(** * PCAPREWRITE: a shallow embedding of [pcap_rewrite.py]

    [rewrite_pcap] drives three external tools (tcpprep, tshark, tcprewrite)
    over a capture file.  The embedding keeps the function's own logic --
    validation, the pair registry, the address cursors, the four rewrite
    passes per pair, the temporary-file chain -- and models everything the
    function asks of the outside (the file system, the subprocesses, the
    prompts, the [ipaddress] library) as an environment it queries.

    Python [str] values are Rocq strings, read as sequences of code points
    below 256.  Integers of unbounded size are [Z] or [nat]. *)

From Stdlib Require Import ZArith List Bool Ascii String Lia Arith.
From Stdlib Require DecimalString DecimalNat.
Import ListNotations.

Open Scope string_scope.
Open Scope Z_scope.

(** ** Python string operations used by the script *)

Module PyStr.

(** [str.isspace] on one code point below 256: TAB..CR, FS..US, SPACE,
    NEL (0x85) and NBSP (0xA0). *)
Definition isspace (c : ascii) : bool :=
  let n := nat_of_ascii c in
  ((9 <=? n)%nat && (n <=? 13)%nat) || ((28 <=? n)%nat && (n <=? 32)%nat)
  || (n =? 133)%nat || (n =? 160)%nat.

Fixpoint lstrip (s : string) : string :=
  match s with
  | EmptyString => EmptyString
  | String c r => if isspace c then lstrip r else s
  end.

Fixpoint rstrip (s : string) : string :=
  match s with
  | EmptyString => EmptyString
  | String c r =>
      match rstrip r with
      | EmptyString => if isspace c then EmptyString else String c EmptyString
      | r' => String c r'
      end
  end.

(** [s.strip()] *)
Definition strip (s : string) : string := rstrip (lstrip s).

(** [s.split()]: maximal runs of non-whitespace; [word] is the token being
    read. *)
Fixpoint split_from (word s : string) : list string :=
  match s with
  | EmptyString => match word with EmptyString => [] | _ => [word] end
  | String c r =>
      if isspace c
      then match word with
           | EmptyString => split_from EmptyString r
           | _ => word :: split_from EmptyString r
           end
      else split_from (word ++ String c EmptyString) r
  end.

Definition split (s : string) : list string := split_from EmptyString s.

(** [s.split(sep)] for a one-character separator: empty fields are kept. *)
Fixpoint split_on (sep : ascii) (s : string) : list string :=
  match s with
  | EmptyString => [EmptyString]
  | String c r =>
      if Ascii.eqb c sep then EmptyString :: split_on sep r
      else match split_on sep r with
           | h :: t => String c h :: t
           | [] => [String c EmptyString]
           end
  end.

(** [sep.join(l)] *)
Definition join (sep : string) (l : list string) : string := String.concat sep l.

(** [str(n)] for a non-negative integer. *)
Definition str_nat (n : nat) : string := DecimalString.NilZero.string_of_uint (Nat.to_uint n).

(** [s.rfind(c)]: the last index of [c], or -1. *)
Fixpoint rfind (c : ascii) (s : string) : Z :=
  match s with
  | EmptyString => -1
  | String a r =>
      let i := rfind c r in
      if 0 <=? i then i + 1 else if Ascii.eqb a c then 0 else -1
  end.

(** [s[:n]] and [s[n:]] for [n >= 0]. *)
Fixpoint take (n : nat) (s : string) : string :=
  match n, s with
  | O, _ => EmptyString
  | S _, EmptyString => EmptyString
  | S k, String c r => String c (take k r)
  end.

Fixpoint drop (n : nat) (s : string) : string :=
  match n, s with
  | O, _ => s
  | S _, EmptyString => EmptyString
  | S k, String c r => drop k r
  end.

(** [c in s] *)
Fixpoint mem (c : ascii) (s : string) : bool :=
  match s with
  | EmptyString => false
  | String a r => Ascii.eqb a c || mem c r
  end.

(** [s.startswith(p)] *)
Fixpoint startswith (p s : string) : bool :=
  match p, s with
  | EmptyString, _ => true
  | String _ _, EmptyString => false
  | String a p', String b s' => Ascii.eqb a b && startswith p' s'
  end.

(** Python compares strings by code point, lexicographically. *)
Definition lt (a b : string) : bool := String.ltb a b.

(** [tuple(sorted((a, b)))]: the sort is stable, so the pair is swapped
    only when the second is strictly smaller. *)
Definition sorted2 (a b : string) : string * string :=
  if lt b a then (b, a) else (a, b).

End PyStr.

(** ** [os.path] (POSIX flavour) *)

Module OsPath.
Import PyStr.

(** [posixpath.basename]: [p[p.rfind('/') + 1:]]. *)
Definition basename (p : string) : string :=
  drop (Z.to_nat (rfind "/" p + 1)) p.

(** [posixpath.splitext]: the extension starts at the last dot, unless that
    dot is preceded only by dots after the last separator. *)
Definition splitext (p : string) : string * string :=
  let sepIndex := rfind "/" p in
  let dotIndex := rfind "." p in
  if sepIndex <? dotIndex then
    let leading := take (Z.to_nat (dotIndex - (sepIndex + 1)))
                        (drop (Z.to_nat (sepIndex + 1)) p) in
    if forallb (Ascii.eqb ".") (list_ascii_of_string leading)
    then (p, EmptyString)
    else (take (Z.to_nat dotIndex) p, drop (Z.to_nat dotIndex) p)
  else (p, EmptyString).

End OsPath.

(** ** The MAC pattern

    [re.match(r"^([0-9A-Fa-f]{2}[:-]){5}([0-9A-Fa-f]{2})$", mac)].  Every
    piece of the pattern has a fixed width, so matching is a left-to-right
    scan.  Without [re.MULTILINE], [$] matches at the end of the string and
    also just before a newline that ends the string. *)

Module MacRe.

Definition in_range (lo hi : nat) (c : ascii) : bool :=
  let n := nat_of_ascii c in ((lo <=? n)%nat && (n <=? hi)%nat).

(** [[0-9A-Fa-f]] *)
Definition hex (c : ascii) : bool :=
  in_range 48 57 c || in_range 65 70 c || in_range 97 102 c.

(** [[:-]] *)
Definition sep (c : ascii) : bool := Ascii.eqb c ":" || Ascii.eqb c "-".

(** [([0-9A-Fa-f]{2}[:-]){n}]: what is left of [s] after the groups. *)
Fixpoint groups (n : nat) (s : string) : option string :=
  match n with
  | O => Some s
  | S k =>
      match s with
      | String a (String b (String d r)) =>
          if hex a && hex b && sep d then groups k r else None
      | _ => None
      end
  end.

(** [$] *)
Definition at_end (s : string) : bool :=
  match s with
  | EmptyString => true
  | String c EmptyString => Ascii.eqb c "010"
  | _ => false
  end.

Definition mac_match (mac : string) : bool :=
  match groups 5 mac with
  | Some (String a (String b r)) => hex a && hex b && at_end r
  | _ => false
  end.

End MacRe.

(** ** The [ipaddress] library

    An address is its family and its integer value; a network is its
    (masked) network address and prefix length.  Parsing and printing are
    the library's business and stay abstract (see [Env]); arithmetic,
    membership and the derived addresses follow the library's definitions. *)

Module IpAddress.

Inductive ip_version := IPv4 | IPv6.

Definition max_prefixlen (v : ip_version) : Z :=
  match v with IPv4 => 32 | IPv6 => 128 end.

Definition ALL_ONES (v : ip_version) : Z := 2 ^ max_prefixlen v - 1.

Record IPAddress := { version : ip_version; ip : Z }.

Record IPNetwork := { network_address : IPAddress; prefixlen : Z }.

Definition version_eqb (a b : ip_version) : bool :=
  match a, b with IPv4, IPv4 | IPv6, IPv6 => true | _, _ => false end.

(** [addr + n]: the constructor refuses integers outside the family's
    range ([AddressValueError], a [ValueError]). *)
Definition add (a : IPAddress) (n : Z) : option IPAddress :=
  let r := ip a + n in
  if (0 <=? r) && (r <=? ALL_ONES (version a))
  then Some {| version := version a; ip := r |}
  else None.

Definition num_addresses (n : IPNetwork) : Z :=
  2 ^ (max_prefixlen (version (network_address n)) - prefixlen n).

(** The network address has its host bits cleared, so or-ing the host mask
    in adds it. *)
Definition broadcast_address (n : IPNetwork) : IPAddress :=
  {| version := version (network_address n);
     ip := ip (network_address n) + (num_addresses n - 1) |}.

(** [addr in network] *)
Definition contains (n : IPNetwork) (a : IPAddress) : bool :=
  version_eqb (version a) (version (network_address n))
  && (ip (network_address n) <=? ip a) && (ip a <=? ip (broadcast_address n)).

(** [a >= b] on addresses of one family. *)
Definition geb (a b : IPAddress) : bool := ip b <=? ip a.

End IpAddress.

Import PyStr IpAddress.

(** ** The pair registry

    [server_client_pairs] is a [dict]: keys are unique and iteration follows
    insertion order, so it is an association list that only grows at its
    end.  A value is the dictionary
    [{'server': str(ip), 'client': str(ip), 'processed': bool}]; the
    embedding keeps the address objects and applies [str] where the script
    consumes the strings (the tcprewrite arguments). *)

Definition pair_key : Type := string * string.

Record ip_mapping := { server : IPAddress; client : IPAddress; processed : bool }.

Definition registry : Type := list (pair_key * ip_mapping).

Definition key_eqb (a b : pair_key) : bool :=
  String.eqb (fst a) (fst b) && String.eqb (snd a) (snd b).

Fixpoint lookup (k : pair_key) (d : registry) : option ip_mapping :=
  match d with
  | [] => None
  | (k', v) :: r => if key_eqb k k' then Some v else lookup k r
  end.

(** [k in d] *)
Definition has_key (k : pair_key) (d : registry) : bool :=
  match lookup k d with Some _ => true | None => false end.

(** [d[k] = v] for a key that is not in [d] yet. *)
Definition insert_new (k : pair_key) (v : ip_mapping) (d : registry) : registry :=
  (d ++ [(k, v)])%list.

(** [d[k]['processed'] = True] *)
Fixpoint mark_processed (k : pair_key) (d : registry) : registry :=
  match d with
  | [] => []
  | (k', v) :: r =>
      if key_eqb k k'
      then (k', {| server := server v; client := client v; processed := true |}) :: r
      else (k', v) :: mark_processed k r
  end.

(** ** What the script does to the outside, and what the outside answers *)

Inductive event :=
| Print (text : string)
| Input (prompt : string)
| Run (command : list string)             (* subprocess.run *)
| Remove (path : string)                  (* os.remove *)
| Rename (src dst : string)               (* os.rename *)
| Dump (path : string) (obj : registry).  (* open(path, "wb") and pickle.dump *)

Inductive exn :=
| CalledProcessError (msg stderr : string)
| ValueError (msg : string)
| OSError (msg : string)
| KeyError.

(** How [subprocess.run(..., check=True)] ends. *)
Inductive completed :=
| Exit0 (stdout : string)
| ExitNonZero (msg stderr : string)   (* raises [CalledProcessError] *)
| NotStarted (msg : string).          (* raises [OSError]: no such program *)

(** The environment answers each request knowing everything the script has
    done so far (the events, most recent first).  The [ipaddress] parsers
    and printer are pure. *)
Record Env := {
  ip_network : string -> IPNetwork + string;   (* strict=False; inr: ValueError *)
  ip_address : string -> bool;                 (* does the string parse? *)
  str : IPAddress -> string;
  path_exists : list event -> string -> bool;
  stdin : list event -> string -> string;
  run : list event -> list string -> completed;
  remove : list event -> string -> option string;            (* Some: OSError *)
  rename : list event -> string -> string -> option string;  (* Some: OSError *)
  dump : list event -> string -> registry -> option string   (* Some: an exception *)
}.

(** ** The function's frame and its control flow

    The mutable locals of [rewrite_pcap], with the events so far.  A
    statement ends normally, by [return], or by raising; the frame is
    whatever it was at that point. *)

Record frame := {
  trace : list event;
  server_client_pairs : registry;
  next_server_ip : IPAddress;
  next_client_ip : IPAddress;
  current_input_file : string;
  processed_count : nat;
  rewrite_step : nat
}.

Inductive outcome (A : Type) :=
| Normal (a : A)
| Returned (v : option string)
| Raised (e : exn).
Arguments Normal {A} a.
Arguments Returned {A} v.
Arguments Raised {A} e.

Definition M (A : Type) : Type := frame -> outcome A * frame.

Definition ret {A} (a : A) : M A := fun f => (Normal a, f).

Definition bind {A B} (m : M A) (k : A -> M B) : M B :=
  fun f =>
    match m f with
    | (Normal a, f') => k a f'
    | (Returned v, f') => (Returned v, f')
    | (Raised e, f') => (Raised e, f')
    end.

Notation "x <- m ;; k" := (bind m (fun x => k))
  (at level 61, m at next level, right associativity).
Notation "m ;; k" := (bind m (fun _ => k))
  (at level 61, right associativity).

(** [return v] *)
Definition return_ {A} (v : option string) : M A := fun f => (Returned v, f).

Definition raise {A} (e : exn) : M A := fun f => (Raised e, f).

(** [try: m  except <the exceptions h accepts>: ...] *)
Definition try_ {A} (m : M A) (h : exn -> option (M A)) : M A :=
  fun f =>
    match m f with
    | (Raised e, f') =>
        match h e with Some k => k f' | None => (Raised e, f') end
    | r => r
    end.

(** [for x in l: body] ([continue] is the body ending normally). *)
Fixpoint for_each {A} (l : list A) (body : A -> M unit) : M unit :=
  match l with
  | [] => ret tt
  | x :: xs => body x ;; for_each xs body
  end.

Definition emit (e : event) (f : frame) : frame :=
  {| trace := e :: trace f;
     server_client_pairs := server_client_pairs f;
     next_server_ip := next_server_ip f;
     next_client_ip := next_client_ip f;
     current_input_file := current_input_file f;
     processed_count := processed_count f;
     rewrite_step := rewrite_step f |}.

Definition set_pairs (d : registry) : M unit := fun f =>
  (Normal tt,
   {| trace := trace f; server_client_pairs := d;
      next_server_ip := next_server_ip f; next_client_ip := next_client_ip f;
      current_input_file := current_input_file f;
      processed_count := processed_count f; rewrite_step := rewrite_step f |}).

Definition set_next_server_ip (a : IPAddress) : M unit := fun f =>
  (Normal tt,
   {| trace := trace f; server_client_pairs := server_client_pairs f;
      next_server_ip := a; next_client_ip := next_client_ip f;
      current_input_file := current_input_file f;
      processed_count := processed_count f; rewrite_step := rewrite_step f |}).

Definition set_next_client_ip (a : IPAddress) : M unit := fun f =>
  (Normal tt,
   {| trace := trace f; server_client_pairs := server_client_pairs f;
      next_server_ip := next_server_ip f; next_client_ip := a;
      current_input_file := current_input_file f;
      processed_count := processed_count f; rewrite_step := rewrite_step f |}).

Definition set_current_input_file (p : string) : M unit := fun f =>
  (Normal tt,
   {| trace := trace f; server_client_pairs := server_client_pairs f;
      next_server_ip := next_server_ip f; next_client_ip := next_client_ip f;
      current_input_file := p;
      processed_count := processed_count f; rewrite_step := rewrite_step f |}).

Definition set_processed_count (n : nat) : M unit := fun f =>
  (Normal tt,
   {| trace := trace f; server_client_pairs := server_client_pairs f;
      next_server_ip := next_server_ip f; next_client_ip := next_client_ip f;
      current_input_file := current_input_file f;
      processed_count := n; rewrite_step := rewrite_step f |}).

Definition set_rewrite_step (n : nat) : M unit := fun f =>
  (Normal tt,
   {| trace := trace f; server_client_pairs := server_client_pairs f;
      next_server_ip := next_server_ip f; next_client_ip := next_client_ip f;
      current_input_file := current_input_file f;
      processed_count := processed_count f; rewrite_step := n |}).

(** Reading a local. *)
Definition get {A} (field : frame -> A) : M A := fun f => (Normal (field f), f).

(** ** [rewrite_pcap] *)

Definition nl : string := String "010" EmptyString.

Section RewritePcap.

Variable E : Env.

(** *** Requests to the outside *)

Definition print (text : string) : M unit := fun f => (Normal tt, emit (Print text) f).

Definition input (prompt : string) : M string := fun f =>
  (Normal (stdin E (trace f) prompt), emit (Input prompt) f).

Definition os_path_exists (p : string) : M bool := fun f =>
  (Normal (path_exists E (trace f) p), f).

Definition subprocess_run (command : list string) : M string := fun f =>
  match run E (trace f) command with
  | Exit0 out => (Normal out, emit (Run command) f)
  | ExitNonZero msg err => (Raised (CalledProcessError msg err), emit (Run command) f)
  | NotStarted msg => (Raised (OSError msg), emit (Run command) f)
  end.

Definition os_remove (p : string) : M unit := fun f =>
  match remove E (trace f) p with
  | None => (Normal tt, emit (Remove p) f)
  | Some msg => (Raised (OSError msg), emit (Remove p) f)
  end.

Definition os_rename (src dst : string) : M unit := fun f =>
  match rename E (trace f) src dst with
  | None => (Normal tt, emit (Rename src dst) f)
  | Some msg => (Raised (OSError msg), emit (Rename src dst) f)
  end.

Definition pickle_dump (p : string) (obj : registry) : M unit := fun f =>
  match dump E (trace f) p obj with
  | None => (Normal tt, emit (Dump p obj) f)
  | Some msg => (Raised (OSError msg), emit (Dump p obj) f)
  end.

Definition ipaddress_ip_network (s : string) : M IPNetwork :=
  match ip_network E s with
  | inl n => ret n
  | inr msg => raise (ValueError msg)
  end.

(** [addr + n] *)
Definition ip_plus (a : IPAddress) (n : Z) : M IPAddress :=
  match IpAddress.add a n with
  | Some r => ret r
  | None => raise (ValueError "AddressValueError")
  end.

(** *** Input validation and prompting (lines 26-48) *)

Definition or_prompt (arg : option string) (prompt : string) : M string :=
  match arg with
  | None => input prompt
  | Some s => ret s
  end.

Definition validate (server_subnet_str server_mac client_subnet_str client_mac : string)
  : M (IPNetwork * IPNetwork) :=
  try_
    (server_subnet <- ipaddress_ip_network server_subnet_str ;;
     client_subnet <- ipaddress_ip_network client_subnet_str ;;
     if negb (forallb MacRe.mac_match [server_mac; client_mac])
     then print "ERROR: Invalid MAC address format.  Use format like 00:11:22:33:44:55" ;;
          return_ None
     else ret (server_subnet, client_subnet))
    (fun e =>
       match e with
       | ValueError msg =>
           Some (print ("ERROR: Invalid subnet or MAC address: " ++ msg) ;; return_ None)
       | _ => None
       end).

(** *** File path setup (lines 50-57) *)

Definition base_filename_of (pcap_file : string) : string :=
  fst (OsPath.splitext (OsPath.basename pcap_file)).

Definition remove_stale (rewritten_pcap_file : string) : M unit :=
  stale <- os_path_exists rewritten_pcap_file ;;
  if stale then os_remove rewritten_pcap_file else ret tt.

(** *** tcpprep, optional (lines 59-68) *)

Definition tcpprep_command (pcap_file tcpprep_cache_file : string) : list string :=
  ["tcpprep"; "-i"; pcap_file; "-o"; tcpprep_cache_file; "-a"; "first"].

Definition tcpprep (pcap_file tcpprep_cache_file tcpprep_auto_mode : string) : M unit :=
  if String.eqb tcpprep_auto_mode "first" || String.eqb tcpprep_auto_mode "only" then
    try_
      (_ <- subprocess_run (tcpprep_command pcap_file tcpprep_cache_file) ;;
       print "tcpprep completed successfully (auto mode).")
      (fun e =>
         match e with
         | CalledProcessError _ stderr =>
             Some (print ("tcpprep (auto mode) failed:" ++ nl ++ " " ++ stderr) ;;
                   if String.eqb tcpprep_auto_mode "only" then return_ None else ret tt)
         | _ => None
         end)
  else ret tt.

(** *** Pair discovery with tshark (lines 70-114) *)

Definition tshark_command (pcap_file : string) : list string :=
  ["tshark"; "-r"; pcap_file; "-T"; "fields"; "-e"; "ip.src"; "-e"; "ip.dst"; "-Y"; "ip"].

(** Lines 100-110: a new registry entry at the two cursors, then each
    cursor moves on. *)
Definition assign (server_subnet client_subnet : IPNetwork) (key : pair_key) : M unit :=
  d <- get server_client_pairs ;;
  s <- get next_server_ip ;;
  c <- get next_client_ip ;;
  set_pairs (insert_new key {| server := s; client := c; processed := false |} d) ;;
  s' <- ip_plus s 1 ;;
  set_next_server_ip s' ;;
  (if negb (contains server_subnet s') then
     r <- ip_plus (network_address server_subnet) 11 ;;
     set_next_server_ip r ;;
     if geb r (broadcast_address server_subnet)
     then print "WARNING: Server subnet exhausted. Reusing addresses."
     else ret tt
   else ret tt) ;;
  c' <- ip_plus c 1 ;;
  set_next_client_ip c' ;;
  (if negb (contains client_subnet c') then
     r <- ip_plus (network_address client_subnet) 11 ;;
     set_next_client_ip r ;;
     if geb r (broadcast_address client_subnet)
     then print "WARNING: Client subnet exhausted. Reusing addresses."
     else ret tt
   else ret tt).

(** Lines 82-110: the body of the loop over tshark's lines. *)
Definition discover_line (server_subnet client_subnet : IPNetwork) (line : string)
  : M unit :=
  match strip line with
  | EmptyString => ret tt
  | _ =>
      match split line with
      | [src_ip; dst_ip] =>
          if negb (ip_address E src_ip && ip_address E dst_ip) then
            print ("WARNING: Skipping invalid IP addresses: " ++ src_ip ++ ", " ++ dst_ip)
          else
            let key := sorted2 src_ip dst_ip in
            d <- get server_client_pairs ;;
            if negb (has_key key d) then assign server_subnet client_subnet key
            else ret tt
      | _ => print ("WARNING: Skipping invalid tshark line: " ++ line)
      end
  end.

Definition discover (pcap_file : string) (server_subnet client_subnet : IPNetwork)
  : M unit :=
  print "Identifying client/server pairs using tshark..." ;;
  set_pairs [] ;;
  s0 <- ip_plus (network_address server_subnet) 11 ;;
  set_next_server_ip s0 ;;
  c0 <- ip_plus (network_address client_subnet) 11 ;;
  set_next_client_ip c0 ;;
  try_
    (stdout <- subprocess_run (tshark_command pcap_file) ;;
     let lines := split_on "010" (strip stdout) in
     for_each lines (discover_line server_subnet client_subnet))
    (fun e =>
       match e with
       | CalledProcessError msg _ =>
           Some (print ("tshark command failed: " ++ msg) ;; return_ None)
       | _ => None
       end).

(** *** Saving the registry (lines 116-122): [except Exception] *)

Definition save_pairs (pairs_file : string) : M unit :=
  try_
    (d <- get server_client_pairs ;;
     pickle_dump pairs_file d ;;
     print ("Server-client pairs saved to: " ++ pairs_file))
    (fun e =>
       match e with
       | OSError msg => Some (print ("Error saving pairs to file: " ++ msg))
       | CalledProcessError msg _ => Some (print ("Error saving pairs to file: " ++ msg))
       | ValueError msg => Some (print ("Error saving pairs to file: " ++ msg))
       | KeyError => Some (print "Error saving pairs to file: ")
       end).

(** *** Iterative tcprewrite (lines 124-219) *)

Section Passes.

Variables (pcap_file base_filename tcpprep_cache_file server_mac client_mac : string).

Definition temp_file_name (count step : nat) : string :=
  base_filename ++ "_temp_" ++ str_nat count ++ "_" ++ str_nat step ++ ".pcap".

Definition tcprewrite_command (infile outfile ipmap : string) : list string :=
  ["tcprewrite";
   "--infile"; infile;
   "--outfile"; outfile;
   "--enet-dmac=" ++ client_mac ++ "," ++ server_mac;
   "--skipbroadcast";
   "--fixcsum";
   ipmap;
   "--cachefile"; tcpprep_cache_file].

(** One of the four blocks of the loop body.  They differ in the map
    option and in the deletion: the first block keeps its input when it is
    [pcap_file] (line 155), the other three delete theirs
    unconditionally. *)
Definition tcprewrite_pass (ipmap : string) (first_block : bool) : M unit :=
  count <- get processed_count ;;
  step <- get rewrite_step ;;
  let temp_file := temp_file_name count step in
  set_rewrite_step (step + 1)%nat ;;
  infile <- get current_input_file ;;
  let command := tcprewrite_command infile temp_file ipmap in
  print ("Running: " ++ join " " command) ;;
  _ <- subprocess_run command ;;
  (if first_block && String.eqb infile pcap_file then ret tt
   else os_remove infile) ;;
  set_current_input_file temp_file.

(** Lines 131-215: the loop body for one key of the registry. *)
Definition rewrite_pair (pair : pair_key) : M unit :=
  d <- get server_client_pairs ;;
  match lookup pair d with
  | None => raise KeyError
  | Some mapping =>
      if processed mapping then ret tt
      else
        let '(original_server_ip, original_client_ip) :=
          if lt (snd pair) (fst pair) then (snd pair, fst pair) else (fst pair, snd pair) in
        let new_server_ip := str E (server mapping) in
        let new_client_ip := str E (client mapping) in
        (* --- Server IP (src) --- *)
        tcprewrite_pass ("--srcipmap=" ++ original_server_ip ++ ":" ++ new_server_ip) true ;;
        (* --- Server IP (dst) --- *)
        tcprewrite_pass ("--dstipmap=" ++ original_client_ip ++ ":" ++ new_client_ip) false ;;
        (* --- Client IP (src) --- *)
        tcprewrite_pass ("--srcipmap=" ++ original_client_ip ++ ":" ++ new_client_ip) false ;;
        (* --- Client IP (dst) --- *)
        tcprewrite_pass ("--dstipmap=" ++ original_server_ip ++ ":" ++ new_server_ip) false ;;
        d' <- get server_client_pairs ;;
        set_pairs (mark_processed pair d') ;;
        count <- get processed_count ;;
        set_processed_count (count + 1)%nat
  end.

Definition rewrite_all : M unit :=
  set_current_input_file pcap_file ;;
  set_processed_count 0%nat ;;
  set_rewrite_step 0%nat ;;
  try_
    (d <- get server_client_pairs ;;
     for_each (map fst d) rewrite_pair)
    (fun e =>
       match e with
       | CalledProcessError _ stderr =>
           Some (print ("tcprewrite failed during iterative rewrite:" ++ nl ++ " " ++ stderr) ;;
                 return_ None)
       | _ => None
       end).

End Passes.

(** *** Final output file (lines 221-229) *)

Definition finalize (rewritten_pcap_file : string) : M (option string) :=
  last <- get current_input_file ;;
  present <- os_path_exists last ;;
  if present then
    os_rename last rewritten_pcap_file ;;
    print ("Rewritten pcap file saved to: " ++ rewritten_pcap_file) ;;
    return_ (Some rewritten_pcap_file)
  else
    print "ERROR: Final temporary file not found. Rewriting failed." ;;
    return_ None.

(** *** The whole function *)

Definition rewrite_pcap (pcap_file : string)
    (server_subnet_str server_mac client_subnet_str client_mac : option string)
    (tcpprep_auto_mode : string) : M (option string) :=
  found <- os_path_exists pcap_file ;;
  if negb found then
    print ("ERROR: File not found: " ++ pcap_file) ;; return_ None
  else
    server_subnet_str <- or_prompt server_subnet_str
      "Enter the new server subnet (e.g., 192.168.1.0/24): " ;;
    server_mac <- or_prompt server_mac
      "Enter the destination MAC address for server->client packets (e.g., 00:11:22:33:44:55): " ;;
    client_subnet_str <- or_prompt client_subnet_str
      "Enter the new client subnet (e.g., 10.0.0.0/24): " ;;
    client_mac <- or_prompt client_mac
      "Enter the destination MAC address for client->server packets (e.g., AA:BB:CC:DD:EE:FF): " ;;
    subnets <- validate server_subnet_str server_mac client_subnet_str client_mac ;;
    let '(server_subnet, client_subnet) := subnets in
    let base_filename := base_filename_of pcap_file in
    let tcpprep_cache_file := base_filename ++ ".cache" in
    let rewritten_pcap_file := base_filename ++ "_rewritten.pcap" in
    let pairs_file := base_filename ++ "_pairs.pkl" in
    remove_stale rewritten_pcap_file ;;
    tcpprep pcap_file tcpprep_cache_file tcpprep_auto_mode ;;
    discover pcap_file server_subnet client_subnet ;;
    save_pairs pairs_file ;;
    rewrite_all pcap_file base_filename tcpprep_cache_file server_mac client_mac ;;
    finalize rewritten_pcap_file.

End RewritePcap.

(** A call starts from a fresh frame; the locals assigned later hold
    placeholders until then. *)
Definition fresh : frame :=
  {| trace := []; server_client_pairs := [];
     next_server_ip := {| version := IPv4; ip := 0 |};
     next_client_ip := {| version := IPv4; ip := 0 |};
     current_input_file := EmptyString; processed_count := 0%nat; rewrite_step := 0%nat |}.

(** What the caller sees: the value returned or the exception that
    escaped, and the events in the order they happened. *)
Definition call {A} (m : M A) : outcome A * list event :=
  let (r, f) := m fresh in (r, List.rev (trace f)).

(** ** [main] of [pcap_rewrite.py] (lines 233-251)

    [argparse] is the caller's business: [main] is taken from the parsed
    namespace on.  [--auto] has [choices], so the namespace holds one of
    the three modes. *)

Record Namespace := {
  ns_pcap_file : string;
  ns_server_subnet : option string;
  ns_server_mac : option string;
  ns_client_subnet : option string;
  ns_client_mac : option string;
  ns_auto : string
}.

(** A call: the callee's [return v] is the value of the call; what it
    raises goes on up. *)
Definition invoke (callee : M (option string)) : M (option string) :=
  fun f =>
    match callee f with
    | (Returned v, f') => (Normal v, f')
    | r => r
    end.

(** [if rewritten_file:] -- [None] and the empty string are false. *)
Definition truthy (v : option string) : bool :=
  match v with
  | None | Some EmptyString => false
  | Some _ => true
  end.

Definition main (E : Env) (args : Namespace) : M unit :=
  rewritten_file <- invoke (rewrite_pcap E (ns_pcap_file args) (ns_server_subnet args)
                              (ns_server_mac args) (ns_client_subnet args)
                              (ns_client_mac args) (ns_auto args)) ;;
  if truthy rewritten_file then
    print ("Rewritten pcap file saved to: "
           ++ match rewritten_file with Some p => p | None => EmptyString end)
  else
    print "Rewriting failed.".

(** ** [pickle_viewer.py]

    What [pickle.load] gives back is a dictionary or something else; of
    something else the viewer only uses [str] and, inside the [str] of a
    dictionary, [repr]. *)

(** The printer of addresses, under a name of its own. *)
Definition str_address_of (E : Env) : IPAddress -> string := str E.

Module PickleViewer.

#[warnings="-register-all"]
Inductive pyobj :=
| PyDict (items : list (pyobj * pyobj))
| PyOther (as_str as_repr : string).

(** [repr(o)]; a dictionary shows as [{k: v, ...}] with the [repr] of its
    keys and values. *)
Fixpoint repr (o : pyobj) : string :=
  match o with
  | PyOther _ r => r
  | PyDict items =>
      "{" ++ join ", " (map (fun kv => repr (fst kv) ++ ": " ++ repr (snd kv)) items) ++ "}"
  end.

(** [str(o)], which is also what [print(o)] and an f-string show. *)
Definition str (o : pyobj) : string :=
  match o with
  | PyOther s _ => s
  | PyDict _ => repr o
  end.

(** [open(pickle_file, "rb")] and [pickle.load]: the object, or the text
    of the exception. *)
Definition Loader : Type := list event -> string -> pyobj + string.

(** Lines 20-25: the lines for one value of the top-level dictionary. *)
Definition print_value (value : pyobj) : M unit :=
  match value with
  | PyDict sub =>
      for_each sub (fun kv => print ("  " ++ str (fst kv) ++ ": " ++ str (snd kv)))
  | PyOther _ _ => print ("  Value: " ++ str value)
  end.

Definition view_pickle (load : Loader) (pickle_file : string) : M unit :=
  try_
    (data <- (fun f => match load (trace f) pickle_file with
                       | inl o => (Normal o, f)
                       | inr msg => (Raised (OSError msg), f)
                       end) ;;
     print (str data) ;;
     match data with
     | PyDict items =>
         for_each items (fun kv => print ("Key: " ++ str (fst kv)) ;; print_value (snd kv))
     | PyOther _ _ => ret tt
     end)
    (fun e =>
       Some (print ("Error loading or printing pickle file: "
                    ++ match e with
                       | OSError msg | ValueError msg | CalledProcessError msg _ => msg
                       | KeyError => EmptyString
                       end))).

(** [main]: the one positional argument, already parsed. *)
Definition main (load : Loader) (pickle_file : string) : M unit :=
  view_pickle load pickle_file.

(** The dictionary [rewrite_pcap] pickles: tuple keys, and for each the
    dictionary of the two address strings and the flag.  [quote] is [repr]
    on strings. *)
Definition py_string (quote : string -> string) (s : string) : pyobj :=
  PyOther s (quote s).

Definition py_bool (b : bool) : pyobj :=
  if b then PyOther "True" "True" else PyOther "False" "False".

Definition py_pair (quote : string -> string) (k : pair_key) : pyobj :=
  let text := "(" ++ quote (fst k) ++ ", " ++ quote (snd k) ++ ")" in
  PyOther text text.

Definition py_registry (E : Env) (quote : string -> string) (d : registry) : pyobj :=
  PyDict (map (fun kv =>
                 (py_pair quote (fst kv),
                  PyDict [(py_string quote "server", py_string quote (str_address_of E (server (snd kv))));
                          (py_string quote "client", py_string quote (str_address_of E (client (snd kv))));
                          (py_string quote "processed", py_bool (processed (snd kv)))]))
              d).

End PickleViewer.

(** ** A concrete environment for the examples

    An IPv4-only reading of the [ipaddress] parsers and printer, and a
    small file system replayed from the events: tools that succeed create
    their output file, [os.remove] and [os.rename] fail on a missing
    file. *)

Module Demo.

Fixpoint digits_value (acc : nat) (s : string) : option nat :=
  match s with
  | EmptyString => Some acc
  | String c r =>
      if MacRe.in_range 48 57 c
      then digits_value (10 * acc + (nat_of_ascii c - 48))%nat r
      else None
  end.

Definition parse_nat (s : string) : option nat :=
  match s with
  | EmptyString => None
  | _ => digits_value 0%nat s
  end.

Definition parse_octets (s : string) : option Z :=
  match map parse_nat (split_on "." s) with
  | [Some a; Some b; Some c; Some d] =>
      if ((a <=? 255) && (b <=? 255) && (c <=? 255) && (d <=? 255))%nat
      then Some (((Z.of_nat a * 256 + Z.of_nat b) * 256 + Z.of_nat c) * 256 + Z.of_nat d)
      else None
  | _ => None
  end.

Definition parse_network (s : string) : IPNetwork + string :=
  match split_on "/" s with
  | [a; l] =>
      match parse_octets a, parse_nat l with
      | Some i, Some len =>
          if (len <=? 32)%nat then
            let size := 2 ^ (32 - Z.of_nat len) in
            inl {| network_address := {| version := IPv4; ip := i / size * size |};
                   prefixlen := Z.of_nat len |}
          else inr (s ++ " does not appear to be an IPv4 or IPv6 network")
      | _, _ => inr (s ++ " does not appear to be an IPv4 or IPv6 network")
      end
  | _ => inr (s ++ " does not appear to be an IPv4 or IPv6 network")
  end.

Definition parse_address (s : string) : bool :=
  match parse_octets s with Some _ => true | None => false end.

Definition str_z (z : Z) : string := str_nat (Z.to_nat z).

Definition str_address (a : IPAddress) : string :=
  let i := ip a in
  str_z (i / 16777216) ++ "." ++ str_z (i / 65536 mod 256) ++ "."
  ++ str_z (i / 256 mod 256) ++ "." ++ str_z (i mod 256).

Definition without (p : string) (files : list string) : list string :=
  filter (fun q => negb (String.eqb p q)) files.

(** The files after one more event; a program that fails leaves no
    output. *)
Definition after (failing : list string) (files : list string) (e : event)
  : list string :=
  match e with
  | Run (program :: _ :: _ :: _ :: output :: _) =>
      if existsb (String.eqb program) failing then files
      else if String.eqb program "tcprewrite" || String.eqb program "tcpprep"
           then output :: files
           else files
  | Remove p => without p files
  | Rename a b => b :: without a files
  | Dump p _ => p :: files
  | _ => files
  end.

(** The files after a whole trace (most recent event first). *)
Definition files_now (initial failing : list string) (t : list event) : list string :=
  fold_left (after failing) (List.rev t) initial.

Definition on_disk (initial failing : list string) (t : list event) (p : string) : bool :=
  existsb (String.eqb p) (files_now initial failing t).

(** [initial]: the files present at the start; [tshark_stdout]: what tshark
    prints; [failing]: the programs that exit with a non-zero status;
    [disk_full]: whether writing the registry file fails. *)
Definition env (initial : list string) (tshark_stdout : string) (failing : list string)
    (disk_full : bool) : Env :=
  {| ip_network := parse_network;
     ip_address := parse_address;
     str := str_address;
     path_exists := on_disk initial failing;
     stdin := fun _ _ => EmptyString;
     run := fun _ command =>
              match command with
              | [] => NotStarted "No such file or directory"
              | program :: _ =>
                  if existsb (String.eqb program) failing
                  then ExitNonZero "returned non-zero exit status 1." "error"
                  else if String.eqb program "tshark" then Exit0 tshark_stdout
                  else Exit0 EmptyString
              end;
     remove := fun t p =>
                 if on_disk initial failing t p then None else Some "No such file or directory";
     rename := fun t a _ =>
                 if on_disk initial failing t a then None else Some "No such file or directory";
     dump := fun _ _ _ => if disk_full then Some "No space left on device" else None |}.

(** The network a string denotes (the empty IPv4 network when it denotes
    none). *)
Definition network (s : string) : IPNetwork :=
  match parse_network s with
  | inl n => n
  | inr _ => {| network_address := {| version := IPv4; ip := 0 |}; prefixlen := 32 |}
  end.

(** Five flows, from five clients to one server. *)
Definition five_flows : string :=
  "10.0.0.1 10.0.0.9" ++ nl ++ "10.0.0.2 10.0.0.9" ++ nl ++ "10.0.0.3 10.0.0.9" ++ nl
  ++ "10.0.0.4 10.0.0.9" ++ nl ++ "10.0.0.5 10.0.0.9" ++ nl.

(** The end-to-end scenario of the specification: one flow between
    10.0.0.5 and 10.0.0.9, seen in both directions. *)
Definition one_flow : string :=
  "10.0.0.9" ++ String "009" "10.0.0.5" ++ nl ++ "10.0.0.5" ++ String "009" "10.0.0.9" ++ nl.

Definition scenario (failing : list string) (disk_full : bool) (mode : string)
  : outcome (option string) * list event :=
  call (rewrite_pcap (env ["capture.pcap"] one_flow failing disk_full) "capture.pcap"
          (Some "192.168.1.0/24") (Some "00:11:22:33:44:55")
          (Some "10.10.10.0/24") (Some "AA:BB:CC:DD:EE:FF") mode).

End Demo.

(** * The vocabulary of the properties *)

(** A MAC string written from six octets and five separators. *)
Fixpoint mac_string (octets : list (ascii * ascii)) (seps : list ascii) : string :=
  match octets with
  | [] => EmptyString
  | (a, b) :: os =>
      String a (String b
        match seps with
        | [] => mac_string os []
        | s :: ss => String s (mac_string os ss)
        end)
  end.

Definition hex_octet (o : ascii * ascii) : bool := MacRe.hex (fst o) && MacRe.hex (snd o).

(** Printing and prompting are the only events that touch neither a file
    nor an external tool. *)
Definition quiet (e : event) : Prop :=
  match e with
  | Print _ | Input _ => True
  | _ => False
  end.

(** A line is malformed when it is not two whitespace-separated tokens that
    both parse as addresses. *)
Definition malformed E (line : string) : bool :=
  match split line with
  | [src_ip; dst_ip] => negb (ip_address E src_ip && ip_address E dst_ip)
  | _ => true
  end.

(** The line left the registry and the cursors alone, and a warning was
    printed for it. *)
Definition skipped_with_warning (f f' : frame) : Prop :=
  server_client_pairs f' = server_client_pairs f
  /\ next_server_ip f' = next_server_ip f
  /\ next_client_ip f' = next_client_ip f
  /\ exists w, startswith "WARNING: " w = true /\ trace f' = Print w :: trace f.

(** The address that the [k]-th new pair (counting from 0) gets from a
    subnet: the cursor starts 11 past the network address and, in a subnet
    of more than 11 addresses, cycles through the addresses from there to
    the last one of the subnet; in a smaller subnet it never moves. *)
Definition slot (n : IPNetwork) (k : nat) : IPAddress :=
  let size := num_addresses n in
  {| version := version (network_address n);
     ip := ip (network_address n) + 11
           + (if 11 <? size then Z.of_nat k mod (size - 11) else 0) |}.

(** The registry follows the cursors: its [i]-th entry holds the [i]-th
    slot of each subnet. *)
Definition follows (ss cs : IPNetwork) (d : registry) : Prop :=
  forall i key m, nth_error d i = Some (key, m) ->
    server m = slot ss i /\ client m = slot cs i.

(** ... and the cursors stand at the slots of the next new pair. *)
Definition cursors_at (ss cs : IPNetwork) (f : frame) : Prop :=
  next_server_ip f = slot ss (List.length (server_client_pairs f))
  /\ next_client_ip f = slot cs (List.length (server_client_pairs f)).

(** What holds of the registry at every point of the discovery loop. *)
Definition allocated (ss cs : IPNetwork) (d : registry) : Prop :=
  follows ss cs d /\ NoDup (map fst d).

(** How a statement of the loop may end: normally with the cursors in
    place, or with the [ValueError] of an address addition. *)
Definition loop_outcome (ss cs : IPNetwork) (r : outcome unit) (f : frame) : Prop :=
  match r with
  | Normal _ => cursors_at ss cs f
  | Raised (ValueError _) => True
  | _ => False
  end.

Definition servers (d : registry) : list IPAddress := map (fun e => server (snd e)) d.
Definition clients (d : registry) : list IPAddress := map (fun e => client (snd e)) d.

(** An address of the subnet that is neither its first nor its last. *)
Definition strictly_inside (n : IPNetwork) (a : IPAddress) : Prop :=
  contains n a = true /\ a <> network_address n /\ a <> broadcast_address n.

(** Whatever way [m] ends, the events it adds all satisfy [phi]. *)
Definition emits {A} (phi : event -> Prop) (m : M A) : Prop :=
  forall f, exists new,
    trace (snd (m f)) = (new ++ trace f)%list /\ Forall phi new.

(** Is the event an invocation of tcprewrite? *)
Definition is_tcprewrite (e : event) : bool :=
  match e with
  | Run (program :: _) => String.eqb program "tcprewrite"
  | _ => false
  end.

(** No removal and no tcprewrite invocation. *)
Definition harmless (e : event) : Prop :=
  match e with
  | Remove _ => False
  | _ => is_tcprewrite e = false
  end.

(** The tcprewrite invocation [e] reads [p]. *)
Definition reads (p : string) (e : event) : Prop :=
  exists rest, e = Run ("tcprewrite" :: "--infile" :: p :: rest).

(** A trace (most recent event first) in which every removal is either
    that of the stale output file, before anything but prompts and
    messages, or that of a file other than the input, right after the
    tcprewrite invocation that read it. *)
Inductive tidy (pcap_file : string) : list event -> Prop :=
| tidy_start : tidy pcap_file []
| tidy_other e t :
    (forall p, e <> Remove p) -> tidy pcap_file t -> tidy pcap_file (e :: t)
| tidy_stale t :
    Forall quiet t ->
    tidy pcap_file (Remove (base_filename_of pcap_file ++ "_rewritten.pcap") :: t)
| tidy_pass infile rest t :
    infile <> pcap_file ->
    tidy pcap_file (Run ("tcprewrite" :: "--infile" :: infile :: rest) :: t) ->
    tidy pcap_file (Remove infile :: Run ("tcprewrite" :: "--infile" :: infile :: rest) :: t).

(** The first tcprewrite invocation of a trace given in the order of
    time, if there is one, reads the input file. *)
Definition first_reads (pcap_file : string) (t : list event) : Prop :=
  match find is_tcprewrite t with
  | Some e => reads pcap_file e
  | None => True
  end.

(** The same with the loop's [current_input_file]: before the first
    invocation it is still the input file. *)
Definition chained (pcap_file : string) (t : list event) (current : string) : Prop :=
  tidy pcap_file t
  /\ match find is_tcprewrite (List.rev t) with
     | Some e => reads pcap_file e
     | None => current = pcap_file
     end.

(** [m], started where [P] holds, ends (in whatever way) where [Q] holds. *)
Definition triple {A} (P : frame -> Prop) (m : M A) (Q : frame -> Prop) : Prop :=
  forall f, P f -> Q (snd (m f)).

(** The loop's invariant. *)
Definition linked (pcap_file : string) (f : frame) : Prop :=
  chained pcap_file (trace f) (current_input_file f).

(** The trace so far is tidy and holds no tcprewrite invocation. *)
Definition before_rewriting (pcap_file : string) (f : frame) : Prop :=
  tidy pcap_file (trace f) /\ find is_tcprewrite (List.rev (trace f)) = None.

(** The trace is tidy and its first tcprewrite invocation reads the
    input. *)
Definition preserved (pcap_file : string) (f : frame) : Prop :=
  tidy pcap_file (trace f) /\ first_reads pcap_file (List.rev (trace f)).

(** Only prompts and messages so far. *)
Definition silent (f : frame) : Prop := Forall quiet (trace f).

(** The tcprewrite invocations of a trace, in order. *)
Definition invocations (t : list event) : list (list string) :=
  flat_map (fun e => match e with
                     | Run command => if is_tcprewrite e then [command] else []
                     | _ => []
                     end) t.

(** The address-map option of an invocation (its ninth word). *)
Definition ipmap_of (command : list string) : string := nth 8 command EmptyString.

(** The last two words of a command. *)
Definition last_words (command : list string) : list string :=
  skipn (List.length command - 2) command.

(** The tcpprep invocations of a trace. *)
Definition prepasses (t : list event) : list (list string) :=
  flat_map (fun e => match e with
                     | Run (program :: args) =>
                         if String.eqb program "tcpprep" then [program :: args] else []
                     | _ => []
                     end) t.

(** An invocation of tcprewrite ends with [--cachefile <cache>]. *)
Definition names_cache (cache : string) (e : event) : Prop :=
  is_tcprewrite e = true ->
  exists command, e = Run command /\ last_words command = ["--cachefile"; cache].

(** ** More vocabulary: how statements end *)

(** The ways a statement ends other than normally. *)
Inductive exit :=
| ByReturn (v : option string)
| ByRaise (e : exn).

(** Whenever [m] does not end normally, its exit satisfies [psi]. *)
Definition exits {A} (psi : exit -> Prop) (m : M A) : Prop :=
  forall f, match fst (m f) with
            | Normal _ => True
            | Returned v => psi (ByReturn v)
            | Raised e => psi (ByRaise e)
            end.

(** [psi] on returns, anything on raises: what the body of a [try] owes. *)
Definition relax (psi : exit -> Prop) (x : exit) : Prop :=
  match x with
  | ByReturn _ => psi x
  | ByRaise _ => True
  end.

(** [m], started where [P] holds, ends with an outcome and a frame that
    satisfy [Q]. *)
Definition hoare {A} (P : frame -> Prop) (m : M A) (Q : outcome A -> frame -> Prop)
  : Prop :=
  forall f, P f -> Q (fst (m f)) (snd (m f)).

(** An exit that is not the return of a file name. *)
Definition not_success (x : exit) : Prop :=
  match x with
  | ByReturn (Some _) => False
  | _ => True
  end.

(** The run returned [p] right after renaming a file to [p] and saying
    so. *)
Definition announced (r : outcome (option string)) (f : frame) : Prop :=
  forall p, r = Returned (Some p) ->
    exists src t,
      trace f = Print ("Rewritten pcap file saved to: " ++ p) :: Rename src p :: t.

(** Nothing that comes after pair discovery: no registry file, no
    tcprewrite invocation, no rename. *)
Definition before_saving (e : event) : Prop :=
  match e with
  | Dump _ _ | Rename _ _ => False
  | _ => is_tcprewrite e = false
  end.

(** As [before_saving], and the only tool invoked is tcpprep. *)
Definition before_discovery (e : event) : Prop :=
  match e with
  | Dump _ _ | Rename _ _ => False
  | Run (program :: _) => program = "tcpprep"
  | Run [] => False
  | _ => True
  end.

(** Not an invocation of tcpprep. *)
Definition no_prepass (e : event) : Prop :=
  match e with
  | Run (program :: _) => String.eqb program "tcpprep" = false
  | _ => True
  end.

(** An entry as pair discovery makes them: the key is the sorted pair of
    two strings that parse as addresses, and the pair is not processed
    yet. *)
Definition discovered (E : Env) (entry : pair_key * ip_mapping) : Prop :=
  lt (snd (fst entry)) (fst (fst entry)) = false
  /\ ip_address E (fst (fst entry)) = true
  /\ ip_address E (snd (fst entry)) = true
  /\ processed (snd entry) = false.

(** The two messages of lines 105 and 110. *)
Definition exhaustion_warning (e : event) : Prop :=
  e = Print "WARNING: Server subnet exhausted. Reusing addresses."
  \/ e = Print "WARNING: Client subnet exhausted. Reusing addresses.".

(** Six flows, from six clients to one server: one more than a /28 has
    addresses past the eleventh. *)
Definition six_flows : string := Demo.five_flows ++ "10.0.0.6 10.0.0.9" ++ nl.

(** The address 11 past the network address. *)
Definition eleventh (n : IPNetwork) : IPAddress :=
  {| version := version (network_address n); ip := ip (network_address n) + 11 |}.

(** The [--infile] and [--outfile] of an invocation (its third and fifth
    words). *)
Definition infile_of (command : list string) : string := nth 2 command EmptyString.
Definition outfile_of (command : list string) : string := nth 4 command EmptyString.

(** Each invocation reads what the one before wrote, the first reads
    [input]. *)
Fixpoint chain_from (input : string) (l : list (list string)) : Prop :=
  match l with
  | [] => True
  | c :: r => infile_of c = input /\ chain_from (outfile_of c) r
  end.

(** The file the next invocation is to read. *)
Definition last_output (input : string) (l : list (list string)) : string :=
  fold_left (fun _ c => outfile_of c) l input.

(** Not an invocation of tcprewrite. *)
Definition not_rewrite (e : event) : Prop := is_tcprewrite e = false.

(** The invocations so far form a chain from the input file, and each
    wrote a temporary file of its own, numbered below the step counter. *)
Definition well_chained (pcap_file base : string) (f : frame) : Prop :=
  let made := invocations (List.rev (trace f)) in
  chain_from pcap_file made
  /\ Forall (fun c => exists count step,
                        outfile_of c = temp_file_name base count step
                        /\ (step < rewrite_step f)%nat) made
  /\ NoDup (map outfile_of made).

(** The loop is ready for its next block. *)
Definition ready (pcap_file : string) (f : frame) : Prop :=
  current_input_file f = last_output pcap_file (invocations (List.rev (trace f))).

(** The chain, without the counter. *)
Definition chain_result (pcap_file : string) (f : frame) : Prop :=
  let made := invocations (List.rev (trace f)) in
  chain_from pcap_file made /\ NoDup (map outfile_of made).

(** The run returned [p] right after renaming to [p] the file the last
    tcprewrite invocation was told to write -- the input file itself if
    there was no invocation -- and saying so. *)
Definition renamed_last (pcap_file : string) (r : outcome (option string)) (f : frame)
  : Prop :=
  forall p, r = Returned (Some p) ->
    exists t,
      trace f = Print ("Rewritten pcap file saved to: " ++ p)
                :: Rename (last_output pcap_file (invocations (List.rev t))) p :: t.

(** An entry with its flag set. *)
Definition marked (entry : pair_key * ip_mapping) : pair_key * ip_mapping :=
  (fst entry, {| server := server (snd entry); client := client (snd entry);
                 processed := true |}).

(** How many tcprewrite invocations the frame's trace holds. *)
Definition invocation_count (f : frame) : nat :=
  List.length (invocations (List.rev (trace f))).

(** The exceptions of the tools and of the file system. *)
Definition tool_or_os_error (e : exn) : Prop :=
  match e with
  | CalledProcessError _ _ | OSError _ => True
  | _ => False
  end.

(** How a block or a pair of the rewrite loop may end: normally, or with
    the exception of a tool or of the file system. *)
Definition loop_exit {A} (r : outcome A) : Prop :=
  match r with
  | Normal _ => True
  | Returned _ => False
  | Raised e => tool_or_os_error e
  end.

(** What may escape [rewrite_pcap], to the exception: it returns [None] or
    the name of the output file, or raises a [ValueError] (an address past
    the end of the address space) or an [OSError] (a program that cannot
    be started, a file that cannot be removed or renamed). *)
Definition possible_exit (pcap_file : string) (x : exit) : Prop :=
  match x with
  | ByReturn None => True
  | ByReturn (Some p) => p = base_filename_of pcap_file ++ "_rewritten.pcap"
  | ByRaise (ValueError _) | ByRaise (OSError _) => True
  | ByRaise _ => False
  end.

(** No [KeyError], and only the returns [psi] allows. *)
Definition no_key_error (psi : exit -> Prop) (x : exit) : Prop :=
  match x with
  | ByReturn _ => psi x
  | ByRaise KeyError => False
  | ByRaise _ => True
  end.

(** Not a write of the registry file. *)
Definition no_dump (e : event) : Prop :=
  match e with
  | Dump _ _ => False
  | _ => True
  end.

(** The registries written to a file, each with the name of the file, in
    order. *)
Definition dumps (t : list event) : list (string * registry) :=
  flat_map (fun e => match e with
                     | Dump p d => [(p, d)]
                     | _ => []
                     end) t.

(** Nothing written, or one registry as pair discovery makes them, under
    the name [pairs_file]. *)
Definition saved_once (E : Env) (pairs_file : string) (l : list (string * registry))
  : Prop :=
  l = []
  \/ exists d, l = [(pairs_file, d)] /\ Forall (discovered E) d /\ NoDup (map fst d).

(** The "Key: ..." lines among the events. *)
Definition is_key_line (e : event) : bool :=
  match e with
  | Print text => startswith "Key: " text
  | _ => false
  end.

Definition not_key_line (e : event) : Prop := is_key_line e = false.

(** How [repr] shows a string without quotes or backslashes in it. *)
Definition single_quoted (s : string) : string := "'" ++ s ++ "'".

(** A loader that finds the registry [d] in every file. *)
Definition loads_registry (E : Env) (d : registry) : PickleViewer.Loader :=
  fun _ _ => inl (PickleViewer.py_registry E single_quoted d).

(** * Properties *)

(** ** Canonical pair keys *)

Lemma lt_asym (a b : string) : lt a b = true -> lt b a = false.
Proof.
  unfold lt, String.ltb. rewrite (String.compare_antisym a b).
  destruct (String.compare b a); simpl; congruence.
Qed.

Lemma lt_total (a b : string) : lt a b = false -> lt b a = false -> a = b.
Proof.
  unfold lt, String.ltb. rewrite (String.compare_antisym a b).
  destruct (String.compare b a) eqn:C; simpl; try congruence.
  intros _ _. symmetry. now apply String.compare_eq_iff.
Qed.

(** C5. The key of a pair does not depend on the order of its two
    addresses, sorting a sorted pair changes nothing, and so a registry
    holds the key of (A, B) exactly when it holds the key of (B, A). *)
Theorem canonical_key_symmetric_idempotent (A B : string) :
  sorted2 A B = sorted2 B A
  /\ sorted2 (fst (sorted2 A B)) (snd (sorted2 A B)) = sorted2 A B
  /\ forall d : registry, has_key (sorted2 A B) d = has_key (sorted2 B A) d.
Proof.
  assert (S : sorted2 A B = sorted2 B A).
  { unfold sorted2.
    destruct (lt B A) eqn:BA, (lt A B) eqn:AB; try reflexivity.
    - apply lt_asym in BA. congruence.
    - now rewrite (lt_total A B AB BA). }
  split; [exact S | split].
  - unfold sorted2.
    destruct (lt B A) eqn:BA; simpl.
    + now rewrite (lt_asym _ _ BA).
    + now rewrite BA.
  - intros d. now rewrite S.
Qed.

(** ** MAC validation *)

(** C10. Six octets of hexadecimal digits joined by five separators, each
    of them a colon or a hyphen whatever the others are, match the
    pattern. *)
Theorem mac_match_mixed_separators (octets : list (ascii * ascii)) (seps : list ascii) :
  List.length octets = 6%nat -> List.length seps = 5%nat ->
  forallb hex_octet octets = true -> forallb MacRe.sep seps = true ->
  MacRe.mac_match (mac_string octets seps) = true.
Proof.
  intros Lo Ls Ho Hs.
  do 7 (destruct octets as [|[? ?] octets]; try discriminate Lo).
  do 6 (destruct seps as [|? seps]; try discriminate Ls).
  unfold hex_octet in Ho. simpl in Ho, Hs.
  repeat (apply andb_prop in Ho; destruct Ho as [? Ho]).
  repeat (apply andb_prop in Hs; destruct Hs as [? Hs]).
  repeat match goal with H : (_ && _) = true |- _ =>
    apply andb_prop in H; destruct H end.
  clear Lo Ls Ho Hs. unfold MacRe.mac_match. simpl.
  repeat (match goal with H : _ = true |- _ => rewrite H; clear H end; simpl).
  reflexivity.
Qed.

Lemma mac_match_mixed_separators_witness :
  MacRe.mac_match "00:11-22:33-44:55" = true.
Proof.
  apply (mac_match_mixed_separators
           [("0", "0"); ("1", "1"); ("2", "2"); ("3", "3"); ("4", "4"); ("5", "5")]%char
           [":"; "-"; ":"; "-"; ":"]%char); reflexivity.
Defined.

(** ** Stepping through the control flow *)

Lemma bind_eq {A B} (m : M A) (k : A -> M B) (f : frame) :
  bind m k f =
  match m f with
  | (Normal a, f') => k a f'
  | (Returned v, f') => (Returned v, f')
  | (Raised e, f') => (Raised e, f')
  end.
Proof. reflexivity. Qed.

Lemma try_eq {A} (m : M A) (h : exn -> option (M A)) (f : frame) :
  try_ m h f =
  match m f with
  | (Raised e, f') => match h e with Some k => k f' | None => (Raised e, f') end
  | r => r
  end.
Proof. reflexivity. Qed.

Lemma validate_bad_mac E (ss sm cs cm : string) (f : frame) :
  MacRe.mac_match sm = false \/ MacRe.mac_match cm = false ->
  exists text, validate E ss sm cs cm f = (Returned None, emit (Print text) f).
Proof.
  intros Bad.
  assert (B : forallb MacRe.mac_match [sm; cm] = false).
  { simpl. destruct Bad as [-> | ->]; [reflexivity | now rewrite andb_false_r]. }
  unfold validate, try_, bind, ipaddress_ip_network.
  destruct (ip_network E ss); simpl; [| eexists; reflexivity].
  destruct (ip_network E cs); simpl; [| eexists; reflexivity].
  simpl in B. rewrite B. simpl. eexists; reflexivity.
Qed.

Lemma or_prompt_spec E (arg : option string) (prompt : string) (f : frame) :
  exists v f', or_prompt E arg prompt f = (Normal v, f')
    /\ (trace f' = trace f \/ trace f' = Input prompt :: trace f)
    /\ (forall s, arg = Some s -> v = s).
Proof.
  destruct arg as [s|]; simpl.
  - exists s, f. repeat split; auto. intros ? [= ->]; reflexivity.
  - eexists _, _. split; [reflexivity |]. split; [right; reflexivity | discriminate].
Qed.

Lemma invalid_mac_run E (pcap_file : string)
    (server_subnet_str server_mac client_subnet_str client_mac : option string)
    (tcpprep_auto_mode mac : string) (f : frame) :
  server_mac = Some mac \/ client_mac = Some mac ->
  MacRe.mac_match mac = false ->
  Forall quiet (trace f) ->
  exists f', rewrite_pcap E pcap_file server_subnet_str server_mac
               client_subnet_str client_mac tcpprep_auto_mode f = (Returned None, f')
             /\ Forall quiet (trace f').
Proof.
  intros Which Bad Q0. unfold rewrite_pcap.
  rewrite bind_eq. unfold os_path_exists at 1.
  destruct (path_exists E (trace f) pcap_file); cbn [negb].
  2:{ eexists. split; [reflexivity |]. simpl. constructor; [exact I | exact Q0]. }
  rewrite bind_eq.
  destruct (or_prompt_spec E server_subnet_str
    "Enter the new server subnet (e.g., 192.168.1.0/24): " f)
    as (v1 & f1 & -> & T1 & _).
  rewrite bind_eq.
  destruct (or_prompt_spec E server_mac
    "Enter the destination MAC address for server->client packets (e.g., 00:11:22:33:44:55): " f1)
    as (v2 & f2 & -> & T2 & V2).
  rewrite bind_eq.
  destruct (or_prompt_spec E client_subnet_str
    "Enter the new client subnet (e.g., 10.0.0.0/24): " f2)
    as (v3 & f3 & -> & T3 & _).
  rewrite bind_eq.
  destruct (or_prompt_spec E client_mac
    "Enter the destination MAC address for client->server packets (e.g., AA:BB:CC:DD:EE:FF): " f3)
    as (v4 & f4 & -> & T4 & V4).
  rewrite bind_eq.
  destruct (validate_bad_mac E v1 v2 v3 v4 f4) as (text & ->).
  { destruct Which as [W | W]; [left; rewrite (V2 _ W) | right; rewrite (V4 _ W)]; exact Bad. }
  eexists. split; [reflexivity |]. simpl.
  assert (Q1 : Forall quiet (trace f1)) by (destruct T1 as [-> | ->]; repeat constructor; assumption).
  assert (Q2 : Forall quiet (trace f2)) by (destruct T2 as [-> | ->]; repeat constructor; assumption).
  assert (Q3 : Forall quiet (trace f3)) by (destruct T3 as [-> | ->]; repeat constructor; assumption).
  constructor; [exact I |].
  destruct T4 as [-> | ->]; repeat constructor; assumption.
Qed.



(** ** Malformed lines of tshark's output *)

(** C6, as stated, fails on an empty line, which tshark's output yields
    whenever it prints nothing or leaves a line blank: the line has no
    tokens at all, and it is skipped without any warning. *)
Lemma blank_line_skipped_silently :
  let E := Demo.env ["capture.pcap"] EmptyString [] false in
  let net := {| network_address := {| version := IPv4; ip := 0 |}; prefixlen := 24 |} in
  split_on "010" (strip EmptyString) = [EmptyString]
  /\ malformed E EmptyString = true
  /\ ~ skipped_with_warning fresh (snd (discover_line E net net EmptyString fresh)).
Proof.
  simpl. repeat split; try reflexivity.
  intros (_ & _ & _ & w & _ & T). discriminate T.
Qed.

Lemma malformed_line_run E (server_subnet client_subnet : IPNetwork)
    (line : string) (f : frame) :
  malformed E line = true ->
  exists f',
    discover_line E server_subnet client_subnet line f = (Normal tt, f')
    /\ (strip line = EmptyString -> f' = f)
    /\ (strip line <> EmptyString ->
        exists text, f' = emit (Print ("WARNING: " ++ text)) f).
Proof.
  unfold malformed, discover_line. intros Bad.
  destruct (strip line) eqn:S.
  - exists f. repeat split; congruence.
  - destruct (split line) as [|a0 [|b [|c l]]];
      try (eexists; repeat split; [discriminate | intros _; eexists; reflexivity]).
    rewrite Bad.
    eexists; repeat split; [discriminate | intros _; eexists; reflexivity].
Qed.

(** C6, amended.  A malformed line never adds to the registry and never
    moves the cursors, and the loop goes on with the lines after it.  A
    malformed line that is not blank gets a warning; a blank line (empty
    or whitespace only) is skipped without one. *)
Theorem malformed_line_skipped E (server_subnet client_subnet : IPNetwork)
    (line : string) (rest : list string) (f : frame) :
  malformed E line = true ->
  exists f',
    discover_line E server_subnet client_subnet line f = (Normal tt, f')
    /\ server_client_pairs f' = server_client_pairs f
    /\ next_server_ip f' = next_server_ip f
    /\ next_client_ip f' = next_client_ip f
    /\ (strip line = EmptyString -> f' = f)
    /\ (strip line <> EmptyString -> skipped_with_warning f f')
    /\ for_each (line :: rest) (discover_line E server_subnet client_subnet) f
       = for_each rest (discover_line E server_subnet client_subnet) f'.
Proof.
  intros Bad.
  destruct (malformed_line_run E server_subnet client_subnet line f Bad)
    as (f' & Run & Blank & Warn).
  assert (Same : server_client_pairs f' = server_client_pairs f
                 /\ next_server_ip f' = next_server_ip f
                 /\ next_client_ip f' = next_client_ip f).
  { destruct (string_dec (strip line) EmptyString) as [B | NB].
    - rewrite (Blank B). auto.
    - destruct (Warn NB) as (text & ->). auto. }
  destruct Same as (S1 & S2 & S3).
  exists f'.
  split; [exact Run |]. split; [exact S1 |]. split; [exact S2 |]. split; [exact S3 |].
  split; [exact Blank |]. split.
  - intros NB. destruct (Warn NB) as (text & ->).
    repeat split. exists ("WARNING: " ++ text). split; reflexivity.
  - simpl. rewrite bind_eq, Run. reflexivity.
Qed.

Lemma malformed_line_skipped_witness :
  let E := Demo.env ["capture.pcap"] EmptyString [] false in
  let net := {| network_address := {| version := IPv4; ip := 0 |}; prefixlen := 24 |} in
  exists f',
    discover_line E net net "10.0.0.5 10.0.0.9 extra" fresh = (Normal tt, f')
    /\ server_client_pairs f' = []
    /\ skipped_with_warning fresh f'.
Proof.
  intros E net.
  destruct (malformed_line_skipped E net net "10.0.0.5 10.0.0.9 extra" [] fresh)
    as (f' & Run & P & _ & _ & _ & W & _); [reflexivity |].
  exists f'. split; [exact Run | split; [exact P |]].
  apply W. discriminate.
Defined.

(** ** The address cursors *)

Lemma version_eqb_refl v : version_eqb v v = true.
Proof. now destruct v. Qed.

Lemma mod_succ_in (k p : Z) :
  0 < p -> k mod p + 1 < p -> (k + 1) mod p = k mod p + 1.
Proof.
  intros Hp H. symmetry. apply (Z.mod_unique (k + 1) p (k / p)).
  - left. pose proof (Z.mod_pos_bound k p Hp). lia.
  - pose proof (Z.div_mod k p). lia.
Qed.

Lemma mod_succ_wrap (k p : Z) :
  0 < p -> ~ k mod p + 1 < p -> (k + 1) mod p = 0.
Proof.
  intros Hp H. symmetry. apply (Z.mod_unique (k + 1) p (k / p + 1)).
  - left. lia.
  - pose proof (Z.div_mod k p). pose proof (Z.mod_pos_bound k p Hp). lia.
Qed.

(** Line 73: the first cursor. *)
Lemma slot_first (n : IPNetwork) (r : IPAddress) :
  IpAddress.add (network_address n) 11 = Some r -> r = slot n 0.
Proof.
  unfold IpAddress.add, slot.
  destruct (_ && _); [| discriminate]. intros [= <-]. f_equal.
  change (Z.of_nat 0) with 0. rewrite Zmod_0_l. destruct (11 <? num_addresses n); lia.
Qed.

(** Lines 101-103: one more, and back to the start when that leaves the
    subnet. *)
Lemma slot_next_inside (n : IPNetwork) (k : nat) (c : IPAddress) :
  IpAddress.add (slot n k) 1 = Some c -> contains n c = true -> c = slot n (S k).
Proof.
  unfold slot. rewrite Nat2Z.inj_succ. unfold Z.succ.
  unfold IpAddress.add, contains, broadcast_address. simpl.
  destruct (_ && _); [| discriminate]. intros [= <-]. simpl.
  rewrite version_eqb_refl. simpl. rewrite andb_true_iff, !Z.leb_le.
  intros [_ In]. f_equal.
  destruct (11 <? num_addresses n) eqn:Big.
  - apply Z.ltb_lt in Big. rewrite mod_succ_in; lia.
  - apply Z.ltb_ge in Big. lia.
Qed.

Lemma slot_next_outside (n : IPNetwork) (k : nat) (c r : IPAddress) :
  IpAddress.add (slot n k) 1 = Some c -> contains n c = false ->
  IpAddress.add (network_address n) 11 = Some r -> r = slot n (S k).
Proof.
  intros Hc Out Hr. rewrite (slot_first n r Hr). revert Hc Out.
  unfold slot. rewrite Nat2Z.inj_succ. unfold Z.succ.
  unfold IpAddress.add, contains, broadcast_address. simpl.
  destruct (_ && _); [| discriminate]. intros [= <-]. simpl.
  rewrite version_eqb_refl. simpl. rewrite andb_false_iff, !Z.leb_gt.
  intros Out. f_equal.
  destruct (11 <? num_addresses n) eqn:Big; [| reflexivity].
  apply Z.ltb_lt in Big. change (Z.of_nat 0) with 0. rewrite Zmod_0_l.
  pose proof (Z.mod_pos_bound (Z.of_nat k) (num_addresses n - 11)).
  rewrite mod_succ_wrap; lia.
Qed.

Lemma follows_nil ss cs : follows ss cs [].
Proof. intros [|i] key m H; discriminate H. Qed.

Lemma follows_insert ss cs (d : registry) key :
  follows ss cs d ->
  follows ss cs (insert_new key {| server := slot ss (List.length d);
                                   client := slot cs (List.length d);
                                   processed := false |} d).
Proof.
  intros F i k m H. unfold insert_new in H.
  destruct (Nat.lt_ge_cases i (List.length d)) as [Lt | Ge].
  - rewrite nth_error_app1 in H by exact Lt. exact (F i k m H).
  - rewrite nth_error_app2 in H by exact Ge.
    destruct (i - List.length d)%nat as [|j] eqn:D.
    + assert (i = List.length d) by lia. subst i.
      simpl in H. injection H as <- <-. split; reflexivity.
    + destruct j; discriminate H.
Qed.
Arguments slot : simpl never.
Arguments IpAddress.add : simpl never.
Arguments contains : simpl never.
Arguments geb : simpl never.

Lemma insert_new_length key v (d : registry) :
  List.length (insert_new key v d) = S (List.length d).
Proof. unfold insert_new. rewrite length_app. simpl. lia. Qed.

Lemma insert_new_keys key v (d : registry) :
  map fst (insert_new key v d) = (map fst d ++ [key])%list.
Proof. unfold insert_new. now rewrite map_app. Qed.

(** Lines 100-110 keep the registry on the slots; the cursors follow
    unless an addition raised. *)
Lemma assign_follows ss cs key f :
  follows ss cs (server_client_pairs f) -> cursors_at ss cs f ->
  let (r, f') := assign ss cs key f in
  follows ss cs (server_client_pairs f')
  /\ map fst (server_client_pairs f') = (map fst (server_client_pairs f) ++ [key])%list
  /\ match r with
     | Normal _ => cursors_at ss cs f'
     | Raised (ValueError _) => True
     | _ => False
     end.
Proof.
  intros F [Cs Cc].
  unfold assign, bind, get, set_pairs, set_next_server_ip, set_next_client_ip,
    ip_plus, ret, raise, print. simpl.
  rewrite Cs, Cc.
  assert (F' := follows_insert ss cs (server_client_pairs f) key F).
  set (d' := insert_new key _ (server_client_pairs f)) in *.
  assert (K : map fst d' = (map fst (server_client_pairs f) ++ [key])%list)
    by apply insert_new_keys.
  assert (L : List.length d' = S (List.length (server_client_pairs f)))
    by apply insert_new_length.
  clearbody d'.
  repeat match goal with
  | |- context [IpAddress.add ?a ?n] => destruct (IpAddress.add a n) eqn:?; simpl
  | |- context [contains ?n ?a] => destruct (contains n a) eqn:?; simpl
  | |- context [geb ?a ?b] => destruct (geb a b); simpl
  end;
  (split; [exact F' | split; [exact K |]]); try exact I;
  unfold cursors_at; simpl; rewrite L; split;
  eauto using slot_next_inside, slot_next_outside.
Qed.

Lemma key_eqb_eq (a b : pair_key) : key_eqb a b = true <-> a = b.
Proof.
  destruct a as [a1 a2], b as [b1 b2]. unfold key_eqb. simpl.
  rewrite andb_true_iff, !String.eqb_eq. split.
  - intros [-> ->]; reflexivity.
  - intros [= -> ->]; auto.
Qed.

Lemma has_key_false (k : pair_key) (d : registry) :
  has_key k d = false -> ~ In k (map fst d).
Proof.
  unfold has_key. induction d as [|[k' v] d IH]; simpl; [tauto |].
  destruct (key_eqb k k') eqn:Eq; [discriminate |].
  intros H [<- | In]; [| exact (IH H In)].
  assert (key_eqb k' k' = true) by (apply key_eqb_eq; reflexivity). congruence.
Qed.

Lemma discover_line_allocated E ss cs line f :
  allocated ss cs (server_client_pairs f) -> cursors_at ss cs f ->
  let (r, f') := discover_line E ss cs line f in
  allocated ss cs (server_client_pairs f') /\ loop_outcome ss cs r f'.
Proof.
  intros [F N] C. unfold discover_line.
  destruct (strip line); [simpl; split; [split; assumption | exact C] |].
  destruct (split line) as [|a0 [|b [|c l]]];
    try (simpl; split; [split; assumption | exact C]).
  destruct (negb (ip_address E a0 && ip_address E b));
    [simpl; split; [split; assumption | exact C] |].
  rewrite bind_eq. unfold get at 1.
  destruct (has_key (sorted2 a0 b) (server_client_pairs f)) eqn:H; cbn [negb];
    [simpl; split; [split; assumption | exact C] |].
  pose proof (assign_follows ss cs (sorted2 a0 b) f F C) as A.
  destruct (assign ss cs (sorted2 a0 b) f) as [r f']. destruct A as (F' & K & O).
  cbv iota beta. split; [split; [exact F' |] | exact O].
  rewrite K. apply NoDup_app; auto.
  - repeat constructor. intros [].
  - intros k In [<- | []]. exact (has_key_false _ _ H In).
Qed.

Lemma discover_loop_allocated E ss cs lines : forall f,
  allocated ss cs (server_client_pairs f) -> cursors_at ss cs f ->
  let (r, f') := for_each lines (discover_line E ss cs) f in
  allocated ss cs (server_client_pairs f') /\ loop_outcome ss cs r f'.
Proof.
  induction lines as [|line lines IH]; intros f A C; simpl.
  - split; assumption.
  - rewrite bind_eq.
    pose proof (discover_line_allocated E ss cs line f A C) as H.
    destruct (discover_line E ss cs line f) as [[[] | v | e] f1]; destruct H as [A1 O1].
    + exact (IH f1 A1 O1).
    + destruct O1.
    + split; assumption.
Qed.

(** The registry that [discover] leaves, however it ends, holds the slots
    in order under distinct keys. *)
Lemma discover_allocated E pcap_file ss cs f :
  allocated ss cs (server_client_pairs (snd (discover E pcap_file ss cs f))).
Proof.
  assert (Nil : allocated ss cs []) by (split; [apply follows_nil | constructor]).
  unfold discover.
  rewrite bind_eq. unfold print at 1. rewrite bind_eq. unfold set_pairs at 1.
  rewrite bind_eq. unfold ip_plus at 1.
  destruct (IpAddress.add (network_address ss) 11) as [s0|] eqn:S0; [| exact Nil].
  unfold ret at 1. rewrite bind_eq. unfold set_next_server_ip at 1.
  rewrite bind_eq. unfold ip_plus at 1.
  destruct (IpAddress.add (network_address cs) 11) as [c0|] eqn:C0; [| exact Nil].
  unfold ret at 1. rewrite bind_eq. unfold set_next_client_ip at 1.
  rewrite try_eq, bind_eq. unfold subprocess_run at 1. cbn [trace emit].
  destruct (run E _ _) as [out | msg err | msg]; cbn [trace]; try exact Nil.
  match goal with |- context [for_each ?l ?b ?f0] =>
    pose proof (discover_loop_allocated E ss cs l f0) as H;
    destruct (for_each l b f0) as [[[] | v | e] f1]
  end.
  all: cbn [server_client_pairs emit next_server_ip next_client_ip] in H.
  all: destruct H as [A O];
    [exact Nil | split; [apply slot_first; assumption | apply slot_first; assumption] | ].
  - exact A.
  - exact A.
  - destruct e; try destruct O. exact A.
Qed.

(** ** Which addresses the pairs get *)

Lemma slot_inside (n : IPNetwork) (k : nat) :
  11 < num_addresses n ->
  contains n (slot n k) = true /\ slot n k <> network_address n.
Proof.
  intros Big. unfold contains, broadcast_address, slot. cbn [version ip].
  rewrite version_eqb_refl.
  apply Z.ltb_lt in Big. rewrite Big. apply Z.ltb_lt in Big.
  pose proof (Z.mod_pos_bound (Z.of_nat k) (num_addresses n - 11)).
  split.
  - rewrite !andb_true_iff, !Z.leb_le. lia.
  - intros Eq. apply (f_equal ip) in Eq. cbn [ip] in Eq. lia.
Qed.

Lemma slot_last (n : IPNetwork) (k : nat) :
  11 < num_addresses n -> Z.of_nat k = num_addresses n - 12 ->
  slot n k = broadcast_address n.
Proof.
  intros Big Last. unfold broadcast_address, slot. f_equal.
  apply Z.ltb_lt in Big. rewrite Big. apply Z.ltb_lt in Big.
  rewrite Z.mod_small; lia.
Qed.

Lemma slot_injective (n : IPNetwork) (i j : nat) :
  Z.of_nat i + 11 < num_addresses n -> Z.of_nat j + 11 < num_addresses n ->
  slot n i = slot n j -> i = j.
Proof.
  intros Hi Hj Eq. apply (f_equal ip) in Eq. unfold slot in Eq. cbn [ip] in Eq.
  assert (Big : (11 <? num_addresses n) = true) by (apply Z.ltb_lt; lia).
  rewrite Big in Eq. rewrite !Z.mod_small in Eq; lia.
Qed.

Lemma follows_firstn ss cs (d : registry) (k : nat) :
  follows ss cs d -> follows ss cs (firstn k d).
Proof.
  intros F i key m H. apply (F i key m).
  destruct (Nat.lt_ge_cases i k) as [Lt | Ge].
  - now rewrite nth_error_firstn, (proj2 (Nat.ltb_lt _ _) Lt) in H.
  - rewrite nth_error_firstn, (proj2 (Nat.ltb_ge _ _) Ge) in H. discriminate.
Qed.

Lemma follows_distinct ss cs (d : registry) :
  follows ss cs d ->
  (Z.of_nat (List.length d) + 11 <= num_addresses ss -> NoDup (servers d))
  /\ (Z.of_nat (List.length d) + 11 <= num_addresses cs -> NoDup (clients d)).
Proof.
  intros F.
  assert (G : forall (pick : ip_mapping -> IPAddress) (n : IPNetwork),
    (forall i key m, nth_error d i = Some (key, m) -> pick m = slot n i) ->
    Z.of_nat (List.length d) + 11 <= num_addresses n ->
    NoDup (map (fun e => pick (snd e)) d)).
  { intros pick n P Cap. apply NoDup_nth_error. intros i j Li Eq.
    rewrite length_map in Li. rewrite !nth_error_map in Eq.
    destruct (nth_error d i) as [[ki mi]|] eqn:Ni;
      [| apply nth_error_None in Ni; lia].
    destruct (nth_error d j) as [[kj mj]|] eqn:Nj; [| discriminate].
    assert (Lj : (j < List.length d)%nat)
      by (apply nth_error_Some; rewrite Nj; discriminate).
    simpl in Eq. injection Eq as Eq.
    rewrite (P _ _ _ Ni), (P _ _ _ Nj) in Eq.
    apply (slot_injective n); [lia | lia | exact Eq]. }
  split; intros Cap.
  - apply (G server ss); [| exact Cap]. intros i key m H. apply (F i key m H).
  - apply (G client cs); [| exact Cap]. intros i key m H. apply (F i key m H).
Qed.

(** C4. Whatever registry [discover] builds, its keys are distinct, and
    when each subnet has at least 11 more addresses than the registry has
    pairs, the pairs have pairwise distinct server addresses and pairwise
    distinct client addresses. *)
Theorem distinct_addresses_within_capacity E (pcap_file : string)
    (server_subnet client_subnet : IPNetwork) (f : frame) :
  let d := server_client_pairs (snd (discover E pcap_file server_subnet client_subnet f)) in
  let N := Z.of_nat (List.length d) in
  N + 11 <= num_addresses server_subnet ->
  N + 11 <= num_addresses client_subnet ->
  NoDup (map fst d) /\ NoDup (servers d) /\ NoDup (clients d).
Proof.
  intros d N Cs Cc.
  destruct (discover_allocated E pcap_file server_subnet client_subnet f) as [F K].
  fold d in F, K.
  destruct (follows_distinct _ _ d F) as [S C]. auto.
Qed.

Lemma distinct_addresses_within_capacity_witness :
  let d := server_client_pairs
             (snd (discover (Demo.env ["capture.pcap"] Demo.five_flows [] false)
                     "capture.pcap" (Demo.network "192.168.1.0/28")
                     (Demo.network "10.10.10.0/24") fresh)) in
  List.length d = 5%nat /\ NoDup (map fst d) /\ NoDup (servers d) /\ NoDup (clients d).
Proof.
  split; [reflexivity |].
  apply (distinct_addresses_within_capacity
           (Demo.env ["capture.pcap"] Demo.five_flows [] false) "capture.pcap"
           (Demo.network "192.168.1.0/28") (Demo.network "10.10.10.0/24") fresh);
    vm_compute; discriminate.
Defined.

(** C2, as stated, fails on both counts in one run: with five pairs, the
    server subnet 192.168.1.0/28 and the client subnet 10.0.0.0/30, a pair
    gets the broadcast address of the server subnet and a client address
    outside the client subnet. *)
Lemma broadcast_and_outside_addresses_assigned :
  let server_subnet := Demo.network "192.168.1.0/28" in
  let client_subnet := Demo.network "10.0.0.0/30" in
  let d := server_client_pairs
             (snd (discover (Demo.env ["capture.pcap"] Demo.five_flows [] false)
                     "capture.pcap" server_subnet client_subnet fresh)) in
  ~ (forall key m, In (key, m) d ->
       strictly_inside server_subnet (server m)
       /\ strictly_inside client_subnet (client m)).
Proof.
  intros server_subnet client_subnet d All.
  assert (D : In (("10.0.0.5", "10.0.0.9"),
                  {| server := {| version := IPv4; ip := 3232235791 |};
                     client := {| version := IPv4; ip := 167772171 |};
                     processed := false |}) d).
  { vm_compute. do 4 right. left. reflexivity. }
  destruct (All _ _ D) as [(_ & _ & Ends) (Inside & _)].
  cbn [server client] in Ends, Inside.
  vm_compute in Inside. discriminate Inside.
Qed.

(** C2, amended.  In subnets of more than 11 addresses, every address a
    pair gets lies within its subnet and is not the network address; the
    [i]-th pair (from 0) gets the address [11 + i mod (size - 11)] past the
    network address, so the first [size - 11] pairs get distinct addresses
    and the last of them gets the broadcast address, which is not
    excluded. *)
Theorem allocated_addresses_within_subnet E (pcap_file : string)
    (server_subnet client_subnet : IPNetwork) (f : frame) :
  11 < num_addresses server_subnet -> 11 < num_addresses client_subnet ->
  let d := server_client_pairs (snd (discover E pcap_file server_subnet client_subnet f)) in
  (forall i key m, nth_error d i = Some (key, m) ->
     server m = slot server_subnet i /\ client m = slot client_subnet i
     /\ contains server_subnet (server m) = true
     /\ server m <> network_address server_subnet
     /\ contains client_subnet (client m) = true
     /\ client m <> network_address client_subnet
     /\ (Z.of_nat i = num_addresses server_subnet - 12 ->
         server m = broadcast_address server_subnet)
     /\ (Z.of_nat i = num_addresses client_subnet - 12 ->
         client m = broadcast_address client_subnet))
  /\ NoDup (servers (firstn (Z.to_nat (num_addresses server_subnet - 11)) d))
  /\ NoDup (clients (firstn (Z.to_nat (num_addresses client_subnet - 11)) d)).
Proof.
  intros Bs Bc d.
  destruct (discover_allocated E pcap_file server_subnet client_subnet f) as [F _].
  fold d in F. split; [| split].
  - intros i key m H. destruct (F i key m H) as [-> ->].
    destruct (slot_inside server_subnet i Bs) as [? ?].
    destruct (slot_inside client_subnet i Bc) as [? ?].
    repeat split; auto using slot_last.
  - apply (follows_distinct server_subnet client_subnet).
    + now apply follows_firstn.
    + rewrite length_firstn. lia.
  - apply (follows_distinct server_subnet client_subnet).
    + now apply follows_firstn.
    + rewrite length_firstn. lia.
Qed.

Lemma allocated_addresses_within_subnet_witness :
  let server_subnet := Demo.network "192.168.1.0/28" in
  let client_subnet := Demo.network "10.10.10.0/24" in
  let d := server_client_pairs
             (snd (discover (Demo.env ["capture.pcap"] Demo.five_flows [] false)
                     "capture.pcap" server_subnet client_subnet fresh)) in
  exists key m, nth_error d 4 = Some (key, m)
    /\ contains server_subnet (server m) = true
    /\ server m = broadcast_address server_subnet
    /\ NoDup (servers (firstn 5 d)).
Proof.
  intros server_subnet client_subnet d.
  destruct (allocated_addresses_within_subnet
              (Demo.env ["capture.pcap"] Demo.five_flows [] false) "capture.pcap"
              server_subnet client_subnet fresh) as (Each & Ds & _);
    [vm_compute; reflexivity | vm_compute; reflexivity |].
  fold d in Each, Ds.
  assert (Nth : nth_error d 4 =
                Some (("10.0.0.5", "10.0.0.9"),
                      {| server := {| version := IPv4; ip := 3232235791 |};
                         client := {| version := IPv4; ip := 168430095 |};
                         processed := false |})) by (vm_compute; reflexivity).
  destruct (Each 4%nat _ _ Nth) as (_ & _ & In & _ & _ & _ & Last & _).
  eexists _, _. split; [exact Nth |]. split; [exact In |]. split.
  - apply Last. vm_compute. reflexivity.
  - exact Ds.
Defined.

(** ** File names

    The names the script makes up -- the output and the temporary files --
    are never the path of the input. *)

Lemma mem_app (c : ascii) (a b : string) : mem c (a ++ b) = mem c a || mem c b.
Proof.
  induction a as [|x a IH]; simpl; [reflexivity |].
  rewrite IH. now rewrite orb_assoc.
Qed.

Lemma append_inv_head (a x y : string) : a ++ x = a ++ y -> x = y.
Proof. induction a as [|c a IH]; simpl; [auto |]. intros [= H]. auto. Qed.

Lemma take_drop (n : nat) (s : string) : take n s ++ drop n s = s.
Proof.
  revert s. induction n as [|n IH]; intros [|c s]; simpl; try reflexivity.
  now rewrite IH.
Qed.

Lemma rfind_lower (c : ascii) (s : string) : -1 <= rfind c s.
Proof.
  induction s as [|a s IH]; simpl; [lia |].
  destruct (0 <=? rfind c s) eqn:P; [apply Z.leb_le in P; lia |].
  destruct (Ascii.eqb a c); lia.
Qed.

Lemma rfind_absent (c : ascii) (s : string) : rfind c s < 0 <-> mem c s = false.
Proof.
  induction s as [|a s IH]; simpl; [split; [reflexivity | lia] |].
  pose proof (rfind_lower c s) as Low.
  destruct (0 <=? rfind c s) eqn:P.
  - apply Z.leb_le in P. split; [lia |].
    intros H. apply orb_false_elim in H. destruct H as [_ H]. apply IH in H. lia.
  - apply Z.leb_gt in P. apply IH in P. rewrite P, orb_false_r.
    destruct (Ascii.eqb a c); split; (reflexivity || discriminate || lia).
Qed.

(** What follows the last [c] holds no [c]. *)
Lemma drop_rfind_absent (c : ascii) (s : string) :
  mem c (drop (Z.to_nat (rfind c s + 1)) s) = false.
Proof.
  induction s as [|a s IH]; simpl; [reflexivity |].
  pose proof (rfind_lower c s).
  destruct (0 <=? rfind c s) eqn:P.
  - apply Z.leb_le in P.
    replace (Z.to_nat (rfind c s + 1 + 1)) with (S (Z.to_nat (rfind c s + 1))) by lia.
    exact IH.
  - apply Z.leb_gt in P. destruct (Ascii.eqb a c) eqn:Eq; simpl.
    + now apply rfind_absent.
    + rewrite Eq. now apply rfind_absent.
Qed.

(** The text from the last [c] on starts with [c]. *)
Lemma drop_rfind_head (c : ascii) (s : string) :
  0 <= rfind c s -> exists r, drop (Z.to_nat (rfind c s)) s = String c r.
Proof.
  induction s as [|a s IH]; simpl; [lia |].
  pose proof (rfind_lower c s).
  destruct (0 <=? rfind c s) eqn:P.
  - apply Z.leb_le in P. intros _.
    replace (Z.to_nat (rfind c s + 1)) with (S (Z.to_nat (rfind c s))) by lia.
    exact (IH P).
  - destruct (Ascii.eqb a c) eqn:Eq; [| lia].
    apply Ascii.eqb_eq in Eq. subst a. intros _. exists s. reflexivity.
Qed.

Lemma basename_no_sep (p : string) : mem "/" (OsPath.basename p) = false.
Proof. apply drop_rfind_absent. Qed.

Lemma basename_plain (p : string) : mem "/" p = false -> OsPath.basename p = p.
Proof.
  intros H. apply rfind_absent in H. pose proof (rfind_lower "/" p).
  unfold OsPath.basename. replace (rfind "/" p + 1) with 0 by lia. reflexivity.
Qed.

Lemma splitext_parts (q : string) :
  q = fst (OsPath.splitext q) ++ snd (OsPath.splitext q)
  /\ (snd (OsPath.splitext q) = EmptyString
      \/ exists r, snd (OsPath.splitext q) = String "." r).
Proof.
  assert (Whole : q = q ++ EmptyString).
  { clear. induction q as [|c q IH]; simpl; [reflexivity | now rewrite <- IH]. }
  unfold OsPath.splitext.
  destruct (rfind "/" q <? rfind "." q) eqn:Dot; [| simpl; auto].
  destruct (forallb _ _); simpl; [auto |].
  split; [symmetry; apply take_drop | right].
  apply drop_rfind_head. apply Z.ltb_lt in Dot. pose proof (rfind_lower "/" q). lia.
Qed.

(** A made-up name: the base name of the input followed by text that
    starts with an underscore and holds no separator. *)
Lemma made_up_name_differs (pcap_file rest : string) :
  mem "/" rest = false ->
  base_filename_of pcap_file ++ String "_" rest <> pcap_file.
Proof.
  intros Plain Eq. unfold base_filename_of in Eq.
  destruct (splitext_parts (OsPath.basename pcap_file)) as [Parts Ext].
  set (root := fst (OsPath.splitext (OsPath.basename pcap_file))) in *.
  set (ext := snd (OsPath.splitext (OsPath.basename pcap_file))) in *.
  assert (R : mem "/" root = false).
  { pose proof (basename_no_sep pcap_file) as B. rewrite Parts, mem_app in B.
    now apply orb_false_elim in B. }
  assert (P : mem "/" pcap_file = false).
  { rewrite <- Eq, mem_app, R. simpl. exact Plain. }
  rewrite (basename_plain _ P) in Parts.
  assert (Same : root ++ String "_" rest = root ++ ext)
    by (transitivity pcap_file; assumption).
  apply append_inv_head in Same.
  destruct Ext as [E | [r E]]; rewrite E in Same; discriminate Same.
Qed.

Lemma digits_no_sep (d : Decimal.uint) :
  mem "/" (DecimalString.NilEmpty.string_of_uint d) = false.
Proof. induction d; simpl; auto. Qed.

Lemma str_nat_no_sep (n : nat) : mem "/" (str_nat n) = false.
Proof.
  unfold str_nat, DecimalString.NilZero.string_of_uint.
  destruct (Nat.to_uint n); try apply digits_no_sep. reflexivity.
Qed.

Lemma rewritten_name_differs (pcap_file : string) :
  base_filename_of pcap_file ++ "_rewritten.pcap" <> pcap_file.
Proof. apply (made_up_name_differs pcap_file "rewritten.pcap"). reflexivity. Qed.

Lemma temp_name_differs (pcap_file : string) (count step : nat) :
  temp_file_name (base_filename_of pcap_file) count step <> pcap_file.
Proof.
  unfold temp_file_name.
  apply (made_up_name_differs pcap_file
           ("temp_" ++ str_nat count ++ "_" ++ str_nat step ++ ".pcap")).
  change (mem "/" (str_nat count ++ "_" ++ str_nat step ++ ".pcap") = false).
  rewrite !mem_app, !str_nat_no_sep. reflexivity.
Qed.

(** ** What a statement may add to the trace *)

Lemma emits_nothing {A} phi (m : M A) :
  (forall f, trace (snd (m f)) = trace f) -> emits phi m.
Proof. intros H f. exists []. split; [apply H | constructor]. Qed.

Lemma emits_one {A} (phi : event -> Prop) (m : M A) (e : event) :
  phi e -> (forall f, trace (snd (m f)) = e :: trace f) -> emits phi m.
Proof. intros P H f. exists [e]. split; [apply H | repeat constructor; exact P]. Qed.

Lemma emits_bind {A B} phi (m : M A) (k : A -> M B) :
  emits phi m -> (forall a, emits phi (k a)) -> emits phi (bind m k).
Proof.
  intros Hm Hk f. destruct (Hm f) as (n1 & T1 & F1). rewrite bind_eq.
  destruct (m f) as [[a | v | e] f1]; simpl in T1 |- *; try solve [exists n1; auto].
  destruct (Hk a f1) as (n2 & T2 & F2). exists (n2 ++ n1)%list.
  rewrite T2, T1, app_assoc. split; [reflexivity | apply Forall_app; auto].
Qed.

Lemma emits_try {A} phi (m : M A) (h : exn -> option (M A)) :
  emits phi m -> (forall e k, h e = Some k -> emits phi k) -> emits phi (try_ m h).
Proof.
  intros Hm Hh f. destruct (Hm f) as (n1 & T1 & F1). rewrite try_eq.
  destruct (m f) as [[a | v | e] f1]; simpl in T1 |- *; try solve [exists n1; auto].
  destruct (h e) as [k|] eqn:He; [| exists n1; auto].
  destruct (Hh e k He f1) as (n2 & T2 & F2). exists (n2 ++ n1)%list.
  rewrite T2, T1, app_assoc. split; [reflexivity | apply Forall_app; auto].
Qed.

Lemma emits_for_each {A} phi (l : list A) (body : A -> M unit) :
  (forall x, emits phi (body x)) -> emits phi (for_each l body).
Proof.
  intros Hb. induction l as [|x l IH]; simpl.
  - apply emits_nothing. reflexivity.
  - apply emits_bind; auto.
Qed.

Lemma emits_print phi text : phi (Print text) -> emits phi (print text).
Proof. intros P. apply (emits_one phi _ (Print text) P). reflexivity. Qed.

Lemma emits_input E phi prompt : phi (Input prompt) -> emits phi (input E prompt).
Proof. intros P. apply (emits_one phi _ (Input prompt) P). reflexivity. Qed.

Lemma emits_subprocess_run E phi command :
  phi (Run command) -> emits phi (subprocess_run E command).
Proof.
  intros P. apply (emits_one phi _ (Run command) P). intros f.
  unfold subprocess_run. destruct (run E (trace f) command); reflexivity.
Qed.

Lemma emits_os_remove E phi p : phi (Remove p) -> emits phi (os_remove E p).
Proof.
  intros P. apply (emits_one phi _ (Remove p) P). intros f.
  unfold os_remove. destruct (remove E (trace f) p); reflexivity.
Qed.

Lemma emits_os_rename E phi a b : phi (Rename a b) -> emits phi (os_rename E a b).
Proof.
  intros P. apply (emits_one phi _ (Rename a b) P). intros f.
  unfold os_rename. destruct (rename E (trace f) a b); reflexivity.
Qed.

Lemma emits_pickle_dump E phi p obj : phi (Dump p obj) -> emits phi (pickle_dump E p obj).
Proof.
  intros P. apply (emits_one phi _ (Dump p obj) P). intros f.
  unfold pickle_dump. destruct (dump E (trace f) p obj); reflexivity.
Qed.

Lemma emits_ip_plus phi a n : emits phi (ip_plus a n).
Proof.
  apply emits_nothing. intros f. unfold ip_plus.
  destruct (IpAddress.add a n); reflexivity.
Qed.

Lemma emits_ip_network E phi s : emits phi (ipaddress_ip_network E s).
Proof.
  apply emits_nothing. intros f. unfold ipaddress_ip_network.
  destruct (ip_network E s); reflexivity.
Qed.

Create HintDb emits.

#[local] Hint Resolve emits_print emits_input emits_subprocess_run emits_os_remove
  emits_os_rename emits_pickle_dump emits_ip_plus emits_ip_network : emits.

#[local] Hint Extern 1 (quiet _) => exact I : emits.

(** Takes a statement apart down to its requests. *)
Ltac emits_steps :=
  repeat first
    [ apply emits_bind; [| intros ?]
    | apply emits_for_each; intros ?
    | apply emits_try; [| let e := fresh "e" in let k := fresh "k" in
                          let H := fresh "H" in
                          intros e k H; destruct e; simpl in H;
                          try discriminate H; injection H as <-]
    | solve [apply emits_nothing; reflexivity]
    | solve [auto with emits]
    | match goal with
      | |- emits _ (if ?b then _ else _) => destruct b
      | |- emits _ (match ?x with _ => _ end) => destruct x
      | |- emits _ (let '(_, _) := ?x in _) => destruct x
      end ].

(** Prompts and messages only. *)
Lemma emits_or_prompt E arg prompt : emits quiet (or_prompt E arg prompt).
Proof. unfold or_prompt. emits_steps. Qed.

Lemma emits_validate E ss sm cs cm : emits quiet (validate E ss sm cs cm).
Proof. unfold validate. emits_steps. Qed.

#[local] Hint Extern 1 (harmless _) => reflexivity : emits.

Lemma emits_tcpprep E pcap_file cache mode : emits harmless (tcpprep E pcap_file cache mode).
Proof. unfold tcpprep. emits_steps. Qed.

Lemma emits_assign ss cs key : emits harmless (assign ss cs key).
Proof. unfold assign. emits_steps. Qed.

#[local] Hint Resolve emits_assign : emits.

Lemma emits_discover E pcap_file ss cs : emits harmless (discover E pcap_file ss cs).
Proof. unfold discover, discover_line. emits_steps. Qed.

Lemma emits_save_pairs E pairs_file : emits harmless (save_pairs E pairs_file).
Proof. unfold save_pairs. emits_steps. Qed.

Lemma emits_finalize E rewritten : emits harmless (finalize E rewritten).
Proof. unfold finalize. emits_steps. Qed.

(** ** Removals and the input file *)

Lemma find_app {A} (p : A -> bool) (a b : list A) :
  find p (a ++ b) = match find p a with Some x => Some x | None => find p b end.
Proof. induction a as [|x a IH]; simpl; [reflexivity |]. destruct (p x); auto. Qed.

Lemma find_none_forall {A} (p : A -> bool) (l : list A) :
  Forall (fun x => p x = false) l -> find p l = None.
Proof. induction 1 as [|x l H _ IH]; simpl; [reflexivity |]. now rewrite H. Qed.

Lemma harmless_not_remove e : harmless e -> forall p, e <> Remove p.
Proof. intros H p ->. exact H. Qed.

Lemma harmless_not_tcprewrite e : harmless e -> is_tcprewrite e = false.
Proof. destruct e; simpl; auto. Qed.

Lemma quiet_harmless e : quiet e -> harmless e.
Proof. destruct e; simpl; intros H; try destruct H; reflexivity. Qed.

Lemma tidy_harmless pcap_file (new t : list event) :
  Forall harmless new -> tidy pcap_file t -> tidy pcap_file (new ++ t).
Proof.
  induction 1 as [|e new H _ IH]; simpl; [auto |].
  intros T. apply tidy_other; [now apply harmless_not_remove | auto].
Qed.

Lemma find_harmless (new t : list event) :
  Forall harmless new ->
  find is_tcprewrite (List.rev (new ++ t)) = find is_tcprewrite (List.rev t).
Proof.
  intros H. rewrite rev_app_distr, find_app.
  destruct (find is_tcprewrite (List.rev t)); [reflexivity |].
  apply find_none_forall, Forall_rev.
  eapply Forall_impl; [| exact H]. apply harmless_not_tcprewrite.
Qed.

Lemma chained_harmless pcap_file e t current :
  harmless e -> chained pcap_file t current -> chained pcap_file (e :: t) current.
Proof.
  intros H [T F]. assert (Hs : Forall harmless [e]) by (repeat constructor; exact H).
  split.
  - exact (tidy_harmless pcap_file [e] t Hs T).
  - change (e :: t) with ([e] ++ t)%list. now rewrite (find_harmless [e] t Hs).
Qed.

(** Line 154: the invocation reads [current]; from then on the first
    invocation is settled, whatever [current_input_file] becomes. *)
Lemma chained_run pcap_file t current rest next :
  chained pcap_file t current ->
  chained pcap_file (Run ("tcprewrite" :: "--infile" :: current :: rest) :: t) next.
Proof.
  intros [T F]. split.
  - apply tidy_other; [discriminate | exact T].
  - simpl List.rev. rewrite find_app.
    destruct (find is_tcprewrite (List.rev t)); [exact F |].
    simpl. subst current. eexists; reflexivity.
Qed.

(** Lines 155-156, 175, 193, 211: the removal of the file just read. *)
Lemma chained_remove pcap_file t infile rest next :
  infile <> pcap_file ->
  chained pcap_file (Run ("tcprewrite" :: "--infile" :: infile :: rest) :: t) next ->
  chained pcap_file
    (Remove infile :: Run ("tcprewrite" :: "--infile" :: infile :: rest) :: t) next.
Proof.
  intros N [T F]. split.
  - now apply tidy_pass.
  - simpl List.rev in *. rewrite find_app.
    destruct (find is_tcprewrite _); [exact F |]. simpl in F. discriminate F || exact F.
Qed.

Lemma triple_bind {A B} (P R Q : frame -> Prop) (m : M A) (k : A -> M B) :
  triple P m R -> (forall f, R f -> Q f) -> (forall a, triple R (k a) Q) ->
  triple P (bind m k) Q.
Proof.
  intros Hm Stop Hk f Pf. rewrite bind_eq. specialize (Hm f Pf).
  destruct (m f) as [[a | v | e] f1]; simpl in *; auto. now apply Hk.
Qed.

Lemma triple_try {A} (P R Q : frame -> Prop) (m : M A) (h : exn -> option (M A)) :
  triple P m R -> (forall f, R f -> Q f) ->
  (forall e k, h e = Some k -> triple R k Q) ->
  triple P (try_ m h) Q.
Proof.
  intros Hm Stop Hh f Pf. rewrite try_eq. specialize (Hm f Pf).
  destruct (m f) as [[a | v | e] f1]; simpl in *; auto.
  destruct (h e) as [k|] eqn:He; simpl; auto. now apply (Hh e k He).
Qed.

Lemma triple_for_each {A} (I : frame -> Prop) (l : list A) (body : A -> M unit) :
  (forall x, triple I (body x) I) -> triple I (for_each l body) I.
Proof.
  intros Hb. induction l as [|x l IH]; simpl.
  - intros f If. exact If.
  - apply (triple_bind I I I); auto.
Qed.

Section Chain.

Variables (E : Env) (pcap_file base_filename cache server_mac client_mac : string).

Hypothesis fresh_names :
  forall count step, temp_file_name base_filename count step <> pcap_file.

(** One block of the loop body keeps the chain, and leaves a temporary
    file as the current input when it ends normally. *)
Lemma tcprewrite_pass_linked ipmap (first_block : bool) (f : frame) :
  linked pcap_file f -> (first_block = false -> current_input_file f <> pcap_file) ->
  let (r, f') := tcprewrite_pass E pcap_file base_filename cache server_mac client_mac
                   ipmap first_block f in
  linked pcap_file f' /\ (r = Normal tt -> current_input_file f' <> pcap_file).
Proof.
  unfold linked. intros L Later.
  unfold tcprewrite_pass, bind, get, set_rewrite_step, print, subprocess_run,
    os_remove, set_current_input_file, ret. simpl.
  set (infile := current_input_file f) in *.
  set (temp := temp_file_name base_filename (processed_count f) (rewrite_step f)).
  set (message := Print _).
  assert (L1 : forall next,
    chained pcap_file
      (Run (tcprewrite_command cache server_mac client_mac infile temp ipmap)
       :: message :: trace f) next).
  { intros next. apply chained_run. apply chained_harmless; [reflexivity | exact L]. }
  destruct (run E _ _) as [out | msg err | msg]; simpl;
    try (split; [apply L1 | discriminate]).
  assert (L2 : infile <> pcap_file -> forall next,
    chained pcap_file
      (Remove infile
       :: Run (tcprewrite_command cache server_mac client_mac infile temp ipmap)
       :: message :: trace f) next).
  { intros N next. apply chained_remove; [exact N | apply L1]. }
  destruct first_block; simpl.
  - destruct (String.eqb infile pcap_file) eqn:Same; simpl.
    + split; [apply L1 | intros _; apply fresh_names].
    + apply String.eqb_neq in Same.
      destruct (remove E _ _); simpl;
        (split; [apply L2; exact Same | first [discriminate | intros _; apply fresh_names]]).
  - specialize (Later eq_refl).
    destruct (remove E _ _); simpl;
      (split; [apply L2; exact Later | first [discriminate | intros _; apply fresh_names]]).
Qed.

Lemma rewrite_pair_linked (pair : pair_key) :
  triple (linked pcap_file)
    (rewrite_pair E pcap_file base_filename cache server_mac client_mac pair)
    (linked pcap_file).
Proof.
  intros f L. unfold rewrite_pair. rewrite bind_eq. unfold get at 1.
  destruct (lookup pair (server_client_pairs f)) as [mapping|]; [| exact L].
  destruct (processed mapping); [exact L |].
  destruct (if lt (snd pair) (fst pair) then _ else _)
    as [original_server_ip original_client_ip].
  rewrite bind_eq.
  match goal with |- context [tcprewrite_pass _ _ _ _ _ _ ?m ?b f] =>
    pose proof (tcprewrite_pass_linked m b f L ltac:(discriminate)) as S1;
    destruct (tcprewrite_pass E pcap_file base_filename cache server_mac client_mac m b f)
      as [[[] | v1 | e1] f1]; destruct S1 as [L1 C1]; [| exact L1 | exact L1]
  end.
  rewrite bind_eq.
  match goal with |- context [tcprewrite_pass _ _ _ _ _ _ ?m ?b f1] =>
    pose proof (tcprewrite_pass_linked m b f1 L1 (fun _ => C1 eq_refl)) as S2;
    destruct (tcprewrite_pass E pcap_file base_filename cache server_mac client_mac m b f1)
      as [[[] | v2 | e2] f2]; destruct S2 as [L2 C2]; [| exact L2 | exact L2]
  end.
  rewrite bind_eq.
  match goal with |- context [tcprewrite_pass _ _ _ _ _ _ ?m ?b f2] =>
    pose proof (tcprewrite_pass_linked m b f2 L2 (fun _ => C2 eq_refl)) as S3;
    destruct (tcprewrite_pass E pcap_file base_filename cache server_mac client_mac m b f2)
      as [[[] | v3 | e3] f3]; destruct S3 as [L3 C3]; [| exact L3 | exact L3]
  end.
  rewrite bind_eq.
  match goal with |- context [tcprewrite_pass _ _ _ _ _ _ ?m ?b f3] =>
    pose proof (tcprewrite_pass_linked m b f3 L3 (fun _ => C3 eq_refl)) as S4;
    destruct (tcprewrite_pass E pcap_file base_filename cache server_mac client_mac m b f3)
      as [[[] | v4 | e4] f4]; destruct S4 as [L4 C4]; [| exact L4 | exact L4]
  end.
  exact L4.
Qed.

Lemma linked_preserved f : linked pcap_file f -> preserved pcap_file f.
Proof.
  intros [T F]. split; [exact T |]. unfold first_reads.
  destruct (find is_tcprewrite _); auto.
Qed.

Lemma rewrite_all_preserved :
  triple (before_rewriting pcap_file)
    (rewrite_all E pcap_file base_filename cache server_mac client_mac)
    (preserved pcap_file).
Proof.
  intros f [T N]. unfold rewrite_all.
  rewrite bind_eq. unfold set_current_input_file at 1.
  rewrite bind_eq. unfold set_processed_count at 1. cbn [trace current_input_file].
  rewrite bind_eq. unfold set_rewrite_step at 1.
  cbn [trace current_input_file server_client_pairs processed_count].
  match goal with |- preserved pcap_file (snd (try_ ?m ?h ?f0)) =>
    assert (L0 : linked pcap_file f0) by (split; simpl; [exact T | now rewrite N]);
    generalize f0 L0
  end.
  apply (triple_try (linked pcap_file) (linked pcap_file) (preserved pcap_file)).
  - apply (triple_bind (linked pcap_file) (linked pcap_file) (linked pcap_file));
      [intros f0 L; exact L | auto |].
    intros d. apply triple_for_each. apply rewrite_pair_linked.
  - apply linked_preserved.
  - intros e k H. destruct e; try discriminate H. injection H as <-.
    intros f0 L. simpl. apply linked_preserved.
    apply chained_harmless; [reflexivity | exact L].
Qed.

End Chain.

Lemma triple_post {A} (P R Q : frame -> Prop) (m : M A) :
  triple P m R -> (forall f, R f -> Q f) -> triple P m Q.
Proof. intros H W f Pf. apply W, H, Pf. Qed.

Lemma triple_quiet {A} (m : M A) : emits quiet m -> triple silent m silent.
Proof.
  intros Hm f Q. destruct (Hm f) as (new & T & F).
  unfold silent. rewrite T. apply Forall_app. auto.
Qed.

Lemma triple_harmless_before {A} pcap_file (m : M A) :
  emits harmless m -> triple (before_rewriting pcap_file) m (before_rewriting pcap_file).
Proof.
  intros Hm f [T N]. destruct (Hm f) as (new & Tr & F).
  unfold before_rewriting. rewrite Tr. split.
  - now apply tidy_harmless.
  - now rewrite find_harmless.
Qed.

Lemma triple_harmless_preserved {A} pcap_file (m : M A) :
  emits harmless m -> triple (preserved pcap_file) m (preserved pcap_file).
Proof.
  intros Hm f [T N]. destruct (Hm f) as (new & Tr & F).
  unfold preserved. rewrite Tr. split.
  - now apply tidy_harmless.
  - unfold first_reads in *. now rewrite find_harmless.
Qed.

Lemma silent_before pcap_file f : silent f -> before_rewriting pcap_file f.
Proof.
  intros Q. assert (H : Forall harmless (trace f))
    by (eapply Forall_impl; [apply quiet_harmless | exact Q]).
  split.
  - rewrite <- (app_nil_r (trace f)). apply tidy_harmless; [exact H | constructor].
  - rewrite <- (app_nil_r (trace f)). now rewrite find_harmless.
Qed.

Lemma before_preserved pcap_file f : before_rewriting pcap_file f -> preserved pcap_file f.
Proof. intros [T N]. split; [exact T |]. unfold first_reads. now rewrite N. Qed.

(** Lines 56-57. *)
Lemma remove_stale_before E pcap_file :
  triple silent (remove_stale E (base_filename_of pcap_file ++ "_rewritten.pcap"))
    (before_rewriting pcap_file).
Proof.
  intros f Q. unfold remove_stale. rewrite bind_eq. unfold os_path_exists at 1.
  destruct (path_exists E _ _); [| now apply silent_before].
  assert (B : before_rewriting pcap_file
                (emit (Remove (base_filename_of pcap_file ++ "_rewritten.pcap")) f)).
  { split; simpl.
    - now apply tidy_stale.
    - rewrite find_app. destruct (silent_before pcap_file f Q) as [_ ->]. reflexivity. }
  unfold os_remove. destruct (remove E _ _); exact B.
Qed.

(** However [rewrite_pcap] ends, its trace is tidy and its first
    tcprewrite invocation reads the input file. *)
Lemma rewrite_pcap_preserved E (pcap_file : string)
    (server_subnet_str server_mac client_subnet_str client_mac : option string)
    (tcpprep_auto_mode : string) :
  triple silent
    (rewrite_pcap E pcap_file server_subnet_str server_mac client_subnet_str client_mac
       tcpprep_auto_mode)
    (preserved pcap_file).
Proof.
  assert (Stop : forall f, silent f -> preserved pcap_file f)
    by (intros f Q; now apply before_preserved, silent_before).
  unfold rewrite_pcap.
  apply (triple_bind silent silent); [intros f Q; exact Q | exact Stop | intros found].
  destruct found; cbn [negb].
  2:{ apply (triple_post silent silent); [| exact Stop].
      apply triple_quiet. emits_steps. }
  apply (triple_bind silent silent);
    [apply triple_quiet, emits_or_prompt | exact Stop | intros ss].
  apply (triple_bind silent silent);
    [apply triple_quiet, emits_or_prompt | exact Stop | intros sm].
  apply (triple_bind silent silent);
    [apply triple_quiet, emits_or_prompt | exact Stop | intros cs].
  apply (triple_bind silent silent);
    [apply triple_quiet, emits_or_prompt | exact Stop | intros cm].
  apply (triple_bind silent silent);
    [apply triple_quiet, emits_validate | exact Stop | intros [server_subnet client_subnet]].
  apply (triple_bind silent (before_rewriting pcap_file));
    [apply remove_stale_before | apply before_preserved | intros _].
  apply (triple_bind (before_rewriting pcap_file) (before_rewriting pcap_file));
    [apply triple_harmless_before, emits_tcpprep | apply before_preserved | intros _].
  apply (triple_bind (before_rewriting pcap_file) (before_rewriting pcap_file));
    [apply triple_harmless_before, emits_discover | apply before_preserved | intros _].
  apply (triple_bind (before_rewriting pcap_file) (before_rewriting pcap_file));
    [apply triple_harmless_before, emits_save_pairs | apply before_preserved | intros _].
  apply (triple_bind (before_rewriting pcap_file) (preserved pcap_file));
    [apply rewrite_all_preserved, temp_name_differs | auto | intros _].
  apply triple_harmless_preserved, emits_finalize.
Qed.

(** In a tidy trace, each removal is accounted for. *)
Lemma tidy_removals pcap_file (t : list event) :
  tidy pcap_file t ->
  forall newer p older, t = (newer ++ Remove p :: older)%list ->
    (p = base_filename_of pcap_file ++ "_rewritten.pcap" /\ Forall quiet older)
    \/ (p <> pcap_file
        /\ exists rest older',
             older = Run ("tcprewrite" :: "--infile" :: p :: rest) :: older').
Proof.
  induction 1 as [| e t NotRemove T IH | t Q | infile rest t N T IH];
    intros newer p older Eq.
  - destruct newer; discriminate Eq.
  - destruct newer as [|e' newer]; simpl in Eq; injection Eq as -> Eq.
    + now destruct (NotRemove p).
    + exact (IH newer p older Eq).
  - destruct newer as [|e' newer]; simpl in Eq; injection Eq as Ep Eq.
    + subst. left. split; [reflexivity | exact Q].
    + subst t. apply Forall_app in Q. destruct Q as [_ Q].
      apply Forall_inv in Q. destruct Q.
  - destruct newer as [|e' newer]; simpl in Eq; injection Eq as Ep Eq.
    + subst. right. split; [exact N |]. eexists _, _. reflexivity.
    + exact (IH newer p older Eq).
Qed.

(** X14. In every run, however it ends: [os.remove] is never applied to the
    input file; the first tcprewrite invocation, if there is one, reads
    the input file; and every removal is either that of the stale output
    file, made before any tool ran, or that of a file other than the input,
    made right after the tcprewrite invocation that read that file. *)
Theorem input_file_never_removed E (pcap_file : string)
    (server_subnet_str server_mac client_subnet_str client_mac : option string)
    (tcpprep_auto_mode : string) :
  let t := snd (call (rewrite_pcap E pcap_file server_subnet_str server_mac
                        client_subnet_str client_mac tcpprep_auto_mode)) in
  ~ In (Remove pcap_file) t
  /\ first_reads pcap_file t
  /\ forall before p after, t = (before ++ Remove p :: after)%list ->
       (p = base_filename_of pcap_file ++ "_rewritten.pcap" /\ Forall quiet before)
       \/ (p <> pcap_file
           /\ exists earlier rest,
                before = (earlier ++ [Run ("tcprewrite" :: "--infile" :: p :: rest)])%list).
Proof.
  intros t.
  pose proof (rewrite_pcap_preserved E pcap_file server_subnet_str server_mac
                client_subnet_str client_mac tcpprep_auto_mode fresh) as H.
  destruct H as [T F]; [constructor |].
  unfold call in t.
  destruct (rewrite_pcap E pcap_file server_subnet_str server_mac client_subnet_str
              client_mac tcpprep_auto_mode fresh) as [r f].
  simpl in T, F, t. subst t.
  assert (Removals : forall before p after,
    List.rev (trace f) = (before ++ Remove p :: after)%list ->
    (p = base_filename_of pcap_file ++ "_rewritten.pcap" /\ Forall quiet before)
    \/ (p <> pcap_file
        /\ exists earlier rest,
             before = (earlier ++ [Run ("tcprewrite" :: "--infile" :: p :: rest)])%list)).
  { intros before p after Eq.
    assert (Eq' : trace f = (List.rev after ++ Remove p :: List.rev before)%list).
    { rewrite <- (rev_involutive (trace f)), Eq, rev_app_distr. simpl.
      now rewrite <- app_assoc. }
    destruct (tidy_removals pcap_file _ T _ _ _ Eq') as [[-> Q] | [N (rest & older & O)]].
    - left. split; [reflexivity |].
      rewrite <- (rev_involutive before). now apply Forall_rev.
    - right. split; [exact N |]. exists (List.rev older), rest.
      rewrite <- (rev_involutive before), O. reflexivity. }
  split; [| split; [exact F | exact Removals]].
  intros In. apply in_split in In. destruct In as (before & after & Eq).
  destruct (Removals before pcap_file after Eq) as [[Same _] | [N _]].
  - exact (rewritten_name_differs pcap_file (eq_sym Same)).
  - now apply N.
Qed.

(** ** The rewrite invocations *)

(** Lines 143-152 and their three copies: the option is there in every
    run, in every block, whether or not tcpprep ran or succeeded. *)
Lemma rewrite_all_names_cache E pcap_file base cache server_mac client_mac :
  emits (names_cache cache)
    (rewrite_all E pcap_file base cache server_mac client_mac).
Proof.
  unfold rewrite_all, rewrite_pair, tcprewrite_pass.
  emits_steps;
    first [ apply emits_print | apply emits_os_remove | apply emits_subprocess_run ];
    try (intros H; discriminate H).
  all: intros _; eexists; split; reflexivity.
Qed.

Lemma invocations_app (a b : list event) :
  invocations (a ++ b) = (invocations a ++ invocations b)%list.
Proof. apply flat_map_app. Qed.

(** A block that ends normally has made exactly one invocation: from the
    current input file to a new temporary file, with the block's map. *)
Lemma tcprewrite_pass_invocation E pcap_file base cache server_mac client_mac
    ipmap (first_block : bool) (f f' : frame) :
  tcprewrite_pass E pcap_file base cache server_mac client_mac ipmap first_block f
  = (Normal tt, f') ->
  invocations (List.rev (trace f'))
  = (invocations (List.rev (trace f))
     ++ [tcprewrite_command cache server_mac client_mac (current_input_file f)
           (temp_file_name base (processed_count f) (rewrite_step f)) ipmap])%list
  /\ server_client_pairs f' = server_client_pairs f
  /\ current_input_file f'
     = temp_file_name base (processed_count f) (rewrite_step f).
Proof.
  unfold tcprewrite_pass, bind, get, set_rewrite_step, print, subprocess_run,
    os_remove, set_current_input_file, ret. simpl.
  destruct (run E _ _) as [out | msg err | msg]; simpl; try discriminate.
  destruct (first_block && String.eqb (current_input_file f) pcap_file); simpl.
  - intros [= <-]. simpl. rewrite !invocations_app. simpl.
    rewrite app_nil_r. auto.
  - destruct (remove E _ _); simpl; [discriminate |].
    intros [= <-]. simpl. rewrite !invocations_app. simpl.
    rewrite !app_nil_r. auto.
Qed.

(** Runs the next block of the loop body, keeping the case where it ends
    normally. *)
Ltac next_pass f f' P I :=
  rewrite bind_eq;
  match goal with
  | |- context [tcprewrite_pass ?a ?b ?c ?d ?e ?g ?m ?fb f] =>
      destruct (tcprewrite_pass a b c d e g m fb f) as [[[] | ? | ?] f'] eqn:P
  end;
  try discriminate;
  apply tcprewrite_pass_invocation in P; destruct P as (I & _ & _).

(** Lines 134-212 for any pair that is processed to the end: exactly four
    invocations, whose maps are, in this order, the server as source, the
    client as destination, the client as source and the server as
    destination. *)
Lemma rewrite_pair_invocations E pcap_file base cache server_mac client_mac
    (pair : pair_key) (mapping : ip_mapping) (f f' : frame) :
  lookup pair (server_client_pairs f) = Some mapping ->
  processed mapping = false ->
  rewrite_pair E pcap_file base cache server_mac client_mac pair f = (Normal tt, f') ->
  let original_server_ip := fst (sorted2 (fst pair) (snd pair)) in
  let original_client_ip := snd (sorted2 (fst pair) (snd pair)) in
  exists c1 c2 c3 c4,
    invocations (List.rev (trace f'))
    = (invocations (List.rev (trace f)) ++ [c1; c2; c3; c4])%list
    /\ map ipmap_of [c1; c2; c3; c4]
       = ["--srcipmap=" ++ original_server_ip ++ ":" ++ str E (server mapping);
          "--dstipmap=" ++ original_client_ip ++ ":" ++ str E (client mapping);
          "--srcipmap=" ++ original_client_ip ++ ":" ++ str E (client mapping);
          "--dstipmap=" ++ original_server_ip ++ ":" ++ str E (server mapping)].
Proof.
  intros Look Fresh. unfold rewrite_pair. rewrite bind_eq. unfold get at 1.
  rewrite Look, Fresh. unfold sorted2.
  destruct (lt (snd pair) (fst pair)); cbn [fst snd];
    next_pass f f1 P1 I1; next_pass f1 f2 P2 I2;
    next_pass f2 f3 P3 I3; next_pass f3 f4 P4 I4;
    unfold bind, get, set_pairs, set_processed_count; simpl; intros [= <-]; simpl;
    rewrite I4, I3, I2, I1, <- !app_assoc; simpl;
    eexists _, _, _, _; split; reflexivity.
Qed.

(** The end-to-end scenario of the specification, as the code runs it. *)
Example scenario_result :
  fst (Demo.scenario [] false "none") = Returned (Some "capture_rewritten.pcap")
  /\ List.length (invocations (snd (Demo.scenario [] false "none"))) = 4%nat.
Proof. vm_compute. split; reflexivity. Qed.

(** C1 (the code differs).  In the end-to-end scenario the four
    invocations map, in this order: the server as source, the client as
    destination, the client as source, the server as destination.  The
    second and the fourth are not the ones the comments of the blocks
    announce ("Server IP (dst)", "Client IP (dst)"). *)
Theorem passes_in_scenario :
  map ipmap_of (invocations (snd (Demo.scenario [] false "none")))
  = ["--srcipmap=10.0.0.5:192.168.1.11";
     "--dstipmap=10.0.0.9:10.10.10.11";
     "--srcipmap=10.0.0.9:10.10.10.11";
     "--dstipmap=10.0.0.5:192.168.1.11"]
  /\ nth 1 (map ipmap_of (invocations (snd (Demo.scenario [] false "none")))) EmptyString
     <> "--dstipmap=10.0.0.5:192.168.1.11".
Proof. vm_compute. split; [reflexivity | discriminate]. Qed.

(** C3 (the code differs).  With the pre-pass skipped (mode "none"), and
    with the pre-pass failed under mode "first", no cache file is ever
    produced, and all four invocations still name it. *)
Theorem cachefile_named_without_prepass :
  (let t := snd (Demo.scenario [] false "none") in
   prepasses t = []
   /\ Demo.on_disk ["capture.pcap"] [] (List.rev t) "capture.cache" = false
   /\ map last_words (invocations t) = repeat ["--cachefile"; "capture.cache"] 4)
  /\ (let t := snd (Demo.scenario ["tcpprep"] false "first") in
      fst (Demo.scenario ["tcpprep"] false "first") = Returned (Some "capture_rewritten.pcap")
      /\ Demo.on_disk ["capture.pcap"] ["tcpprep"] (List.rev t) "capture.cache" = false
      /\ map last_words (invocations t) = repeat ["--cachefile"; "capture.cache"] 4).
Proof. vm_compute. repeat split; reflexivity. Qed.

(** ** Saving the registry *)

(** C9. When writing the registry file raises, [save_pairs] ends normally:
    it has recorded the attempt and printed the error, it has changed
    neither the registry nor any other local, and whatever follows it --
    in [rewrite_pcap], the rewrite loop and the final rename -- runs from
    there. *)
Theorem save_failure_does_not_abort E (pairs_file msg : string)
    (rest : M (option string)) (f : frame) :
  dump E (trace f) pairs_file (server_client_pairs f) = Some msg ->
  let f' := emit (Print ("Error saving pairs to file: " ++ msg))
              (emit (Dump pairs_file (server_client_pairs f)) f) in
  save_pairs E pairs_file f = (Normal tt, f')
  /\ server_client_pairs f' = server_client_pairs f
  /\ (save_pairs E pairs_file ;; rest) f = rest f'.
Proof.
  intros Fail f'.
  assert (Run : save_pairs E pairs_file f = (Normal tt, f')).
  { unfold save_pairs. rewrite try_eq, bind_eq. unfold get at 1.
    rewrite bind_eq. unfold pickle_dump at 1. rewrite Fail. reflexivity. }
  split; [exact Run | split; [reflexivity |]].
  rewrite bind_eq, Run. reflexivity.
Qed.

Lemma save_failure_does_not_abort_witness :
  let E := Demo.env ["capture.pcap"] Demo.one_flow [] true in
  let rest := rewrite_all E "capture.pcap" "capture" "capture.cache"
                "00:11:22:33:44:55" "AA:BB:CC:DD:EE:FF" ;;
              finalize E "capture_rewritten.pcap" in
  exists f', save_pairs E "capture_pairs.pkl" fresh = (Normal tt, f')
             /\ server_client_pairs f' = []
             /\ (save_pairs E "capture_pairs.pkl" ;; rest) fresh = rest f'.
Proof.
  intros E rest.
  destruct (save_failure_does_not_abort E "capture_pairs.pkl" "No space left on device"
              rest fresh) as (Run & Same & Next); [reflexivity |].
  eexists. split; [exact Run | split; [exact Same | exact Next]].
Defined.

(** The whole scenario with a full disk: the error is printed, the four
    invocations follow, and the output file is returned. *)
Example scenario_with_full_disk :
  let result := Demo.scenario [] true "none" in
  fst result = Returned (Some "capture_rewritten.pcap")
  /\ In (Print "Error saving pairs to file: No space left on device") (snd result)
  /\ List.length (invocations (snd result)) = 4%nat.
Proof. vm_compute. split; [reflexivity | split; [| reflexivity]]. do 3 right. left. reflexivity. Qed.

(** With no pair at all, the loop never runs and the final rename moves
    the input file itself: it is not removed, but it no longer has its
    name. *)
Example input_renamed_when_no_pairs :
  snd (call (rewrite_pcap (Demo.env ["capture.pcap"] EmptyString [] false) "capture.pcap"
               (Some "192.168.1.0/24") (Some "00:11:22:33:44:55")
               (Some "10.10.10.0/24") (Some "AA:BB:CC:DD:EE:FF") "none"))
  = [Print "Identifying client/server pairs using tshark...";
     Run (tshark_command "capture.pcap");
     Dump "capture_pairs.pkl" [];
     Print "Server-client pairs saved to: capture_pairs.pkl";
     Rename "capture.pcap" "capture_rewritten.pcap";
     Print "Rewritten pcap file saved to: capture_rewritten.pcap"].
Proof. vm_compute. reflexivity. Qed.

(** * Further properties *)

(** ** How statements end *)

Lemma exits_normal {A} psi (m : M A) :
  (forall f, exists a, fst (m f) = Normal a) -> exits psi m.
Proof. intros H f. destruct (H f) as [a ->]. exact I. Qed.

Lemma exits_bind {A B} psi (m : M A) (k : A -> M B) :
  exits psi m -> (forall a, exits psi (k a)) -> exits psi (bind m k).
Proof.
  intros Hm Hk f. specialize (Hm f). rewrite bind_eq.
  destruct (m f) as [[a | v | e] f1]; simpl in *; auto. apply Hk.
Qed.

Lemma exits_try {A} psi (m : M A) (h : exn -> option (M A)) :
  exits (relax psi) m ->
  (forall e, match h e with Some k => exits psi k | None => psi (ByRaise e) end) ->
  exits psi (try_ m h).
Proof.
  intros Hm Hh f. specialize (Hm f). rewrite try_eq.
  destruct (m f) as [[a | v | e] f1]; simpl in *; auto.
  specialize (Hh e). destruct (h e) as [k|]; simpl; auto. apply Hh.
Qed.

Lemma exits_for_each {A} psi (l : list A) (body : A -> M unit) :
  (forall x, exits psi (body x)) -> exits psi (for_each l body).
Proof.
  intros Hb. induction l as [|x l IH]; simpl.
  - apply exits_normal. intros f. exists tt. reflexivity.
  - apply exits_bind; auto.
Qed.

Lemma exits_return {A} (psi : exit -> Prop) v : psi (ByReturn v) -> exits psi (@return_ A v).
Proof. intros H f. exact H. Qed.

Lemma exits_raise {A} (psi : exit -> Prop) e : psi (ByRaise e) -> exits psi (@raise A e).
Proof. intros H f. exact H. Qed.

Lemma exits_subprocess_run E (psi : exit -> Prop) command :
  (forall msg err, psi (ByRaise (CalledProcessError msg err))) ->
  (forall msg, psi (ByRaise (OSError msg))) ->
  exits psi (subprocess_run E command).
Proof.
  intros C O f. unfold subprocess_run. destruct (run E _ _); simpl; auto.
Qed.

Lemma exits_os_remove E (psi : exit -> Prop) p :
  (forall msg, psi (ByRaise (OSError msg))) -> exits psi (os_remove E p).
Proof. intros O f. unfold os_remove. destruct (remove E _ _); simpl; auto. Qed.

Lemma exits_os_rename E (psi : exit -> Prop) a b :
  (forall msg, psi (ByRaise (OSError msg))) -> exits psi (os_rename E a b).
Proof. intros O f. unfold os_rename. destruct (rename E _ _ _); simpl; auto. Qed.

Lemma exits_pickle_dump E (psi : exit -> Prop) p obj :
  (forall msg, psi (ByRaise (OSError msg))) -> exits psi (pickle_dump E p obj).
Proof. intros O f. unfold pickle_dump. destruct (dump E _ _ _); simpl; auto. Qed.

Lemma exits_ip_plus (psi : exit -> Prop) a n :
  (forall msg, psi (ByRaise (ValueError msg))) -> exits psi (ip_plus a n).
Proof. intros V f. unfold ip_plus. destruct (IpAddress.add a n); simpl; auto. Qed.

Lemma exits_ip_network E (psi : exit -> Prop) s :
  (forall msg, psi (ByRaise (ValueError msg))) -> exits psi (ipaddress_ip_network E s).
Proof.
  intros V f. unfold ipaddress_ip_network. destruct (ip_network E s); simpl; auto.
Qed.

Lemma exits_try_with {A} (inner psi : exit -> Prop) (m : M A) (h : exn -> option (M A)) :
  exits inner m ->
  (forall v, inner (ByReturn v) -> psi (ByReturn v)) ->
  (forall e, inner (ByRaise e) ->
             match h e with Some k => exits psi k | None => psi (ByRaise e) end) ->
  exits psi (try_ m h).
Proof.
  intros Hm Hr Hh f. specialize (Hm f). rewrite try_eq.
  destruct (m f) as [[a | v | e] f1]; simpl in *; auto.
  specialize (Hh e Hm). destruct (h e) as [k|]; simpl; auto. apply Hh.
Qed.

Create HintDb exits.

(** Takes a statement apart down to the places where it can end. *)
Ltac exits_steps :=
  repeat first
    [ solve [auto with exits]
    | apply exits_bind; [| intros ?]
    | apply exits_for_each; intros ?
    | apply exits_try; [| let e := fresh "e" in intros e; destruct e; cbn [relax]]
    | solve [apply exits_normal; intros ?; eexists; reflexivity]
    | apply exits_return
    | apply exits_raise
    | apply exits_subprocess_run; [intros ? ? | intros ?]
    | apply exits_os_remove; intros ?
    | apply exits_os_rename; intros ?
    | apply exits_pickle_dump; intros ?
    | apply exits_ip_plus; intros ?
    | apply exits_ip_network; intros ?
    | match goal with
      | |- exits _ (if ?b then _ else _) => destruct b
      | |- exits _ (match ?x with _ => _ end) => destruct x
      | |- exits _ (let '(_, _) := ?x in _) => destruct x
      end ].

(** Lines 40-48 end normally or by [return None]: the only exception of
    the body is the [ValueError] of a subnet, and it is caught. *)
Lemma validate_exits E (psi : exit -> Prop) ss sm cs cm :
  psi (ByReturn None) -> exits psi (validate E ss sm cs cm).
Proof.
  intros N. unfold validate.
  apply (exits_try_with
           (fun x => match x with
                     | ByReturn v => v = None
                     | ByRaise (ValueError _) => True
                     | ByRaise _ => False
                     end)).
  - unfold print. exits_steps; simpl; auto.
  - intros v ->. exact N.
  - intros [] In; try destruct In. unfold print. exits_steps; exact N.
Qed.

#[local] Hint Extern 1 (exits _ (validate _ _ _ _ _)) =>
  apply validate_exits; exact I : exits.

Lemma bind_not_normal {A B} (m : M A) (k : A -> M B) (f : frame) :
  (forall a f1 b, fst (k a f1) <> Normal b) -> forall b, fst (bind m k f) <> Normal b.
Proof.
  intros Hk b. rewrite bind_eq. destruct (m f) as [[a | v | e] f1]; simpl.
  - apply Hk.
  - discriminate.
  - discriminate.
Qed.

Lemma rewrite_pcap_not_normal E (pcap_file : string)
    (server_subnet_str server_mac client_subnet_str client_mac : option string)
    (tcpprep_auto_mode : string) (f : frame) b :
  fst (rewrite_pcap E pcap_file server_subnet_str server_mac client_subnet_str client_mac
         tcpprep_auto_mode f) <> Normal b.
Proof.
  unfold rewrite_pcap. apply bind_not_normal. intros found f1 b1.
  destruct found; cbn [negb].
  - repeat (apply bind_not_normal; intros ? ? ?).
    match goal with |- context [let '(_, _) := ?x in _] => destruct x end.
    repeat (apply bind_not_normal; intros ? ? ?).
    match goal with |- context [if ?c then _ else _] => destruct c end;
      repeat (apply bind_not_normal; intros ? ? ?); discriminate.
  - apply bind_not_normal. intros ? ? ?. discriminate.
Qed.

(** ** Validation *)

(** Lines 40-48, case by case. *)
Lemma validate_cases E (ss sm cs cm : string) (f : frame) :
  (exists n n', ip_network E ss = inl n /\ ip_network E cs = inl n'
                /\ MacRe.mac_match sm = true /\ MacRe.mac_match cm = true
                /\ validate E ss sm cs cm f = (Normal (n, n'), f))
  \/ ((forall n n', ip_network E ss = inl n -> ip_network E cs = inl n' ->
                    MacRe.mac_match sm = true -> MacRe.mac_match cm = true -> False)
      /\ exists text, validate E ss sm cs cm f = (Returned None, emit (Print text) f)).
Proof.
  unfold validate, try_, bind, ipaddress_ip_network.
  destruct (ip_network E ss) as [n | msg]; simpl.
  2:{ right. split; [discriminate | eexists; reflexivity]. }
  destruct (ip_network E cs) as [n' | msg]; simpl.
  2:{ right. split; [discriminate | eexists; reflexivity]. }
  destruct (MacRe.mac_match sm) eqn:Ms; simpl.
  2:{ right. split; [intros ? ? _ _ H; discriminate H | eexists; reflexivity]. }
  destruct (MacRe.mac_match cm) eqn:Mc; simpl.
  2:{ right. split; [intros ? ? _ _ _ H; discriminate H | eexists; reflexivity]. }
  left. exists n, n'. repeat split; reflexivity.
Qed.

(** X2. With all four options given, [rewrite_pcap] does something other
    than print -- invokes a tool, writes, removes or renames a file -- only
    if the input file exists, both subnets parse and both MAC addresses
    match the pattern. *)
Theorem nothing_touched_unless_valid E (pcap_file ss sm cs cm mode : string) :
  let t := snd (call (rewrite_pcap E pcap_file (Some ss) (Some sm) (Some cs) (Some cm)
                        mode)) in
  ~ Forall quiet t ->
  path_exists E [] pcap_file = true
  /\ (exists n, ip_network E ss = inl n)
  /\ (exists n, ip_network E cs = inl n)
  /\ MacRe.mac_match sm = true
  /\ MacRe.mac_match cm = true.
Proof.
  unfold call, rewrite_pcap. rewrite bind_eq. unfold os_path_exists at 1.
  change (trace fresh) with (@nil event).
  destruct (path_exists E [] pcap_file); cbn [negb].
  2:{ simpl. intros H. destruct H. repeat constructor. }
  unfold or_prompt.
  do 4 (rewrite bind_eq; unfold ret at 1; cbv beta iota).
  rewrite bind_eq.
  destruct (validate_cases E ss sm cs cm fresh)
    as [(n & n' & Hs & Hc & Ms & Mc & _) | (_ & text & ->)].
  - intros _. eauto 10.
  - simpl. intros H. destruct H. repeat constructor.
Qed.

Lemma nothing_touched_unless_valid_witness :
  path_exists (Demo.env ["capture.pcap"] Demo.one_flow [] false) [] "capture.pcap" = true
  /\ MacRe.mac_match "00:11:22:33:44:55" = true.
Proof.
  destruct (nothing_touched_unless_valid
              (Demo.env ["capture.pcap"] Demo.one_flow [] false) "capture.pcap"
              "192.168.1.0/24" "00:11:22:33:44:55" "10.10.10.0/24" "AA:BB:CC:DD:EE:FF"
              "none") as (P & _ & _ & M & _).
  - vm_compute. intros H. inversion H as [|? ? _ H']. inversion H' as [|? ? Q _].
    exact Q.
  - split; [exact P | exact M].
Defined.

(** ** The end of a successful run *)

Lemma hoare_bind {A B} (P : frame -> Prop) (Q1 : outcome A -> frame -> Prop)
    (Q : outcome B -> frame -> Prop) (m : M A) (k : A -> M B) :
  hoare P m Q1 ->
  (forall a, hoare (Q1 (Normal a)) (k a) Q) ->
  (forall v f, Q1 (Returned v) f -> Q (Returned v) f) ->
  (forall e f, Q1 (Raised e) f -> Q (Raised e) f) ->
  hoare P (bind m k) Q.
Proof.
  intros Hm Hk Hv He f Pf. rewrite bind_eq. specialize (Hm f Pf).
  destruct (m f) as [[a | v | e] f1]; simpl in *; auto. now apply Hk.
Qed.

(** A statement that never returns a file name can be skipped over when
    the postcondition only speaks of such returns. *)
Lemma hoare_after {A} (Q : outcome (option string) -> frame -> Prop)
    (m : M A) (k : A -> M (option string)) :
  exits not_success m ->
  (forall f, Q (Returned None) f) -> (forall e f, Q (Raised e) f) ->
  (forall a, hoare (fun _ => True) (k a) Q) ->
  hoare (fun _ => True) (bind m k) Q.
Proof.
  intros Hm Qn Qe Hk f _. rewrite bind_eq. specialize (Hm f).
  destruct (m f) as [[a | [p|] | e] f1]; simpl in *; auto.
  - now apply Hk.
  - destruct Hm.
Qed.

Ltac never_succeeds :=
  unfold or_prompt, input, os_path_exists, remove_stale, tcpprep,
    discover, discover_line, assign, save_pairs, rewrite_all, rewrite_pair,
    tcprewrite_pass, print, get, set_pairs;
  exits_steps; simpl; auto.

Lemma rewrite_pcap_announced E (pcap_file : string)
    (server_subnet_str server_mac client_subnet_str client_mac : option string)
    (tcpprep_auto_mode : string) :
  hoare (fun _ => True)
    (rewrite_pcap E pcap_file server_subnet_str server_mac client_subnet_str client_mac
       tcpprep_auto_mode)
    announced.
Proof.
  assert (Qn : forall f, announced (Returned None) f) by (intros f p H; discriminate H).
  assert (Qe : forall e f, announced (Raised e) f) by (intros e f p H; discriminate H).
  unfold rewrite_pcap.
  apply hoare_after; [never_succeeds | exact Qn | exact Qe | intros found].
  destruct found; cbn [negb].
  2:{ intros f _ p. unfold bind, print, return_. simpl. discriminate. }
  do 5 (apply hoare_after; [never_succeeds | exact Qn | exact Qe | intros ?]).
  match goal with |- context [let '(_, _) := ?x in _] => destruct x end.
  do 5 (apply hoare_after; [never_succeeds | exact Qn | exact Qe | intros ?]).
  intros f _ p. unfold finalize, bind, get, os_path_exists, os_rename, print, return_.
  simpl. destruct (path_exists E _ _); simpl; [| discriminate].
  destruct (rename E _ _ _); simpl; [discriminate |].
  intros [= <-]. eexists _, _. reflexivity.
Qed.

(** X3. When [rewrite_pcap] returns a file name, the last two things it
    did were to rename a file to that name and to print
    "Rewritten pcap file saved to: <name>". *)
Theorem success_ends_with_rename E (pcap_file : string)
    (server_subnet_str server_mac client_subnet_str client_mac : option string)
    (tcpprep_auto_mode p : string) :
  let result := call (rewrite_pcap E pcap_file server_subnet_str server_mac
                        client_subnet_str client_mac tcpprep_auto_mode) in
  fst result = Returned (Some p) ->
  exists earlier src,
    snd result
    = (earlier ++ [Rename src p; Print ("Rewritten pcap file saved to: " ++ p)])%list.
Proof.
  unfold call. cbv zeta.
  pose proof (rewrite_pcap_announced E pcap_file server_subnet_str server_mac
                client_subnet_str client_mac tcpprep_auto_mode fresh I) as H.
  destruct (rewrite_pcap E pcap_file server_subnet_str server_mac client_subnet_str
              client_mac tcpprep_auto_mode fresh) as [r f].
  simpl in *. intros ->. destruct (H p eq_refl) as (src & t & ->).
  exists (List.rev t), src. simpl. now rewrite <- app_assoc.
Qed.

Lemma success_ends_with_rename_witness :
  exists earlier src,
    snd (Demo.scenario [] false "none")
    = (earlier ++ [Rename src "capture_rewritten.pcap";
                   Print "Rewritten pcap file saved to: capture_rewritten.pcap"])%list.
Proof.
  apply (success_ends_with_rename
           (Demo.env ["capture.pcap"] Demo.one_flow [] false) "capture.pcap"
           (Some "192.168.1.0/24") (Some "00:11:22:33:44:55")
           (Some "10.10.10.0/24") (Some "AA:BB:CC:DD:EE:FF") "none"
           "capture_rewritten.pcap").
  vm_compute. reflexivity.
Defined.

(** ** When a tool fails *)

Lemma triple_emits {A} (phi : event -> Prop) (m : M A) :
  emits phi m ->
  triple (fun f => Forall phi (trace f)) m (fun f => Forall phi (trace f)).
Proof.
  intros Hm f Q. destruct (Hm f) as (new & T & F). rewrite T. apply Forall_app. auto.
Qed.

(** What follows a statement that never ends normally never runs. *)
Lemma triple_stop {A B} (P Q : frame -> Prop) (m : M A) (k : A -> M B) :
  triple P m Q -> (forall f a, fst (m f) <> Normal a) -> triple P (bind m k) Q.
Proof.
  intros Hm Stop f Pf. rewrite bind_eq. specialize (Hm f Pf). specialize (Stop f).
  destruct (m f) as [[a | v | e] f1]; simpl in *; auto. now destruct (Stop a).
Qed.

#[local] Hint Extern 1 (before_saving _) => reflexivity : emits.
#[local] Hint Extern 1 (before_discovery _) => first [exact I | reflexivity] : emits.

Lemma discover_stops_on_failure E pcap_file ss cs :
  (forall t, exists msg err, run E t (tshark_command pcap_file) = ExitNonZero msg err) ->
  forall f a, fst (discover E pcap_file ss cs f) <> Normal a.
Proof.
  intros Fail f a. unfold discover.
  repeat (apply bind_not_normal; intros ? ? ?).
  rewrite try_eq, bind_eq. unfold subprocess_run at 1.
  match goal with |- context [run E ?t _] => destruct (Fail t) as (msg & err & ->) end.
  simpl. discriminate.
Qed.

Lemma tcpprep_stops_on_failure E pcap_file cache :
  (forall t, exists msg err,
     run E t (tcpprep_command pcap_file cache) = ExitNonZero msg err) ->
  forall f a, fst (tcpprep E pcap_file cache "only" f) <> Normal a.
Proof.
  intros Fail f a. unfold tcpprep.
  change (String.eqb "only" "first" || String.eqb "only" "only") with true. cbv iota.
  rewrite try_eq, bind_eq. unfold subprocess_run at 1.
  match goal with |- context [run E ?t _] => destruct (Fail t) as (msg & err & ->) end.
  simpl. discriminate.
Qed.

Lemma success_has_rename (r : outcome (option string)) (f : frame) (phi : event -> Prop) :
  announced r f -> (forall a b, ~ phi (Rename a b)) -> Forall phi (trace f) ->
  forall p, r <> Returned (Some p).
Proof.
  intros A N F p ->. destruct (A p eq_refl) as (src & t & T). rewrite T in F.
  apply Forall_inv_tail, Forall_inv in F. exact (N _ _ F).
Qed.

(** X4. If tshark exits with a non-zero status, the run does not return a
    file name, and it has written no registry file, invoked tcprewrite not
    once and renamed nothing. *)
Theorem tshark_failure_stops_the_run E (pcap_file : string)
    (server_subnet_str server_mac client_subnet_str client_mac : option string)
    (tcpprep_auto_mode : string) :
  (forall t, exists msg err, run E t (tshark_command pcap_file) = ExitNonZero msg err) ->
  let result := call (rewrite_pcap E pcap_file server_subnet_str server_mac
                        client_subnet_str client_mac tcpprep_auto_mode) in
  (forall p, fst result <> Returned (Some p)) /\ Forall before_saving (snd result).
Proof.
  intros Fail. unfold call. cbv zeta.
  pose proof (rewrite_pcap_announced E pcap_file server_subnet_str server_mac
                client_subnet_str client_mac tcpprep_auto_mode fresh I) as A.
  assert (T : Forall before_saving
                (trace (snd (rewrite_pcap E pcap_file server_subnet_str server_mac
                               client_subnet_str client_mac tcpprep_auto_mode fresh)))).
  { generalize fresh (Forall_nil before_saving : Forall before_saving (trace fresh)).
    change (triple (fun f => Forall before_saving (trace f))
              (rewrite_pcap E pcap_file server_subnet_str server_mac client_subnet_str
                 client_mac tcpprep_auto_mode)
              (fun f => Forall before_saving (trace f))).
    unfold rewrite_pcap.
    apply (triple_bind _ (fun f => Forall before_saving (trace f)));
      [apply triple_emits; unfold os_path_exists; emits_steps | auto | intros found].
    destruct found; cbn [negb]; [| apply triple_emits; emits_steps].
    do 5 (apply (triple_bind _ (fun f => Forall before_saving (trace f)));
          [apply triple_emits; unfold or_prompt, validate; emits_steps | auto | intros ?]).
    match goal with |- context [let '(_, _) := ?x in _] => destruct x end.
    do 2 (apply (triple_bind _ (fun f => Forall before_saving (trace f)));
          [apply triple_emits; unfold remove_stale, os_path_exists, tcpprep; emits_steps
          | auto | intros ?]).
    apply triple_stop; [| now apply discover_stops_on_failure].
    apply triple_emits. unfold discover, discover_line, assign. emits_steps. }
  destruct (rewrite_pcap E pcap_file server_subnet_str server_mac client_subnet_str
              client_mac tcpprep_auto_mode fresh) as [r f]. simpl in *.
  split; [| now apply Forall_rev].
  apply (success_has_rename r f before_saving A); [intros a b H; exact H | exact T].
Qed.

Lemma tshark_failure_stops_the_run_witness :
  let result := Demo.scenario ["tshark"] false "first" in
  (forall p, fst result <> Returned (Some p)) /\ Forall before_saving (snd result).
Proof.
  apply (tshark_failure_stops_the_run
           (Demo.env ["capture.pcap"] Demo.one_flow ["tshark"] false)).
  intros t. eexists _, _. reflexivity.
Defined.

(** X5. In mode "only", if tcpprep exits with a non-zero status the run
    does not return a file name; tcpprep is the only tool it has invoked,
    and it has written no registry file and renamed nothing. *)
Theorem tcpprep_failure_stops_mode_only E (pcap_file : string)
    (server_subnet_str server_mac client_subnet_str client_mac : option string) :
  (forall t, exists msg err,
     run E t (tcpprep_command pcap_file (base_filename_of pcap_file ++ ".cache"))
     = ExitNonZero msg err) ->
  let result := call (rewrite_pcap E pcap_file server_subnet_str server_mac
                        client_subnet_str client_mac "only") in
  (forall p, fst result <> Returned (Some p)) /\ Forall before_discovery (snd result).
Proof.
  intros Fail. unfold call. cbv zeta.
  pose proof (rewrite_pcap_announced E pcap_file server_subnet_str server_mac
                client_subnet_str client_mac "only" fresh I) as A.
  assert (T : Forall before_discovery
                (trace (snd (rewrite_pcap E pcap_file server_subnet_str server_mac
                               client_subnet_str client_mac "only" fresh)))).
  { generalize fresh (Forall_nil before_discovery : Forall before_discovery (trace fresh)).
    change (triple (fun f => Forall before_discovery (trace f))
              (rewrite_pcap E pcap_file server_subnet_str server_mac client_subnet_str
                 client_mac "only")
              (fun f => Forall before_discovery (trace f))).
    unfold rewrite_pcap.
    apply (triple_bind _ (fun f => Forall before_discovery (trace f)));
      [apply triple_emits; unfold os_path_exists; emits_steps | auto | intros found].
    destruct found; cbn [negb]; [| apply triple_emits; emits_steps].
    do 5 (apply (triple_bind _ (fun f => Forall before_discovery (trace f)));
          [apply triple_emits; unfold or_prompt, validate; emits_steps | auto | intros ?]).
    match goal with |- context [let '(_, _) := ?x in _] => destruct x end.
    apply (triple_bind _ (fun f => Forall before_discovery (trace f)));
      [apply triple_emits; unfold remove_stale, os_path_exists; emits_steps
      | auto | intros ?].
    apply triple_stop; [| now apply tcpprep_stops_on_failure].
    apply triple_emits. unfold tcpprep. emits_steps. }
  destruct (rewrite_pcap E pcap_file server_subnet_str server_mac client_subnet_str
              client_mac "only" fresh) as [r f]. simpl in *.
  split; [| now apply Forall_rev].
  apply (success_has_rename r f before_discovery A); [intros a b H; exact H | exact T].
Qed.

Lemma tcpprep_failure_stops_mode_only_witness :
  let result := Demo.scenario ["tcpprep"] false "only" in
  (forall p, fst result <> Returned (Some p)) /\ Forall before_discovery (snd result).
Proof.
  apply (tcpprep_failure_stops_mode_only
           (Demo.env ["capture.pcap"] Demo.one_flow ["tcpprep"] false)).
  intros t. eexists _, _. reflexivity.
Defined.

(** ** When the pre-pass runs *)

Lemma prepasses_app (a b : list event) :
  prepasses (a ++ b) = (prepasses a ++ prepasses b)%list.
Proof. apply flat_map_app. Qed.

Lemma prepasses_none (l : list event) : Forall no_prepass l -> prepasses l = [].
Proof.
  induction 1 as [|e l H _ IH]; simpl; [reflexivity |]. rewrite IH, app_nil_r.
  destruct e as [| | [|program args] | | |]; try reflexivity.
  simpl in H. now rewrite H.
Qed.

Lemma triple_no_prepass {A} (R : list (list string) -> Prop) (m : M A) :
  emits no_prepass m ->
  triple (fun f => R (prepasses (List.rev (trace f)))) m
         (fun f => R (prepasses (List.rev (trace f)))).
Proof.
  intros Hm f Rf. destruct (Hm f) as (new & T & F).
  rewrite T, rev_app_distr, prepasses_app, (prepasses_none (List.rev new)), app_nil_r;
    [exact Rf | now apply Forall_rev].
Qed.

#[local] Hint Extern 1 (no_prepass _) => first [exact I | reflexivity] : emits.

Ltac no_prepass_phase :=
  unfold os_path_exists, or_prompt, validate, remove_stale, discover, discover_line,
    assign, save_pairs, rewrite_all, rewrite_pair, tcprewrite_pass, finalize;
  emits_steps.

(** Lines 60-68 add at most one tcpprep invocation, and none in a mode
    other than "first" and "only". *)
Lemma tcpprep_once E pcap_file cache mode :
  triple (fun f => prepasses (List.rev (trace f)) = [])
    (tcpprep E pcap_file cache mode)
    (fun f => (List.length (prepasses (List.rev (trace f))) <= 1)%nat
              /\ (mode <> "first" -> mode <> "only" ->
                  prepasses (List.rev (trace f)) = [])).
Proof.
  intros f P. unfold tcpprep.
  destruct (String.eqb mode "first" || String.eqb mode "only") eqn:C.
  2:{ simpl. rewrite P. auto. }
  assert (Mode : mode <> "first" -> mode <> "only" -> False).
  { intros N1 N2. apply orb_true_iff in C. destruct C as [C | C];
      apply String.eqb_eq in C; auto. }
  rewrite try_eq, bind_eq. unfold subprocess_run at 1.
  destruct (run E _ _); simpl; try destruct (String.eqb mode "only"); simpl;
    rewrite ?prepasses_app, P; simpl; (split; [lia | intros N1 N2; destruct (Mode N1 N2)]).
Qed.

(** X6. tcpprep is invoked at most once in a run, and never in a mode
    other than "first" and "only". *)
Theorem prepass_only_when_asked E (pcap_file : string)
    (server_subnet_str server_mac client_subnet_str client_mac : option string)
    (tcpprep_auto_mode : string) :
  let t := snd (call (rewrite_pcap E pcap_file server_subnet_str server_mac
                        client_subnet_str client_mac tcpprep_auto_mode)) in
  (List.length (prepasses t) <= 1)%nat
  /\ (tcpprep_auto_mode <> "first" -> tcpprep_auto_mode <> "only" -> prepasses t = []).
Proof.
  unfold call. cbv zeta.
  set (none := fun f : frame => prepasses (List.rev (trace f)) = []).
  set (once := fun f : frame =>
         (List.length (prepasses (List.rev (trace f))) <= 1)%nat
         /\ (tcpprep_auto_mode <> "first" -> tcpprep_auto_mode <> "only" ->
             prepasses (List.rev (trace f)) = [])).
  assert (Stop : forall f, none f -> once f).
  { unfold none, once. intros f ->. simpl. auto. }
  assert (T : triple none
                (rewrite_pcap E pcap_file server_subnet_str server_mac client_subnet_str
                   client_mac tcpprep_auto_mode) once).
  { unfold rewrite_pcap.
    apply (triple_bind none none);
      [apply (triple_no_prepass (fun l => l = [])); unfold os_path_exists; emits_steps
      | exact Stop | intros found].
    destruct found; cbn [negb].
    2:{ apply (triple_post none none); [| exact Stop].
        apply (triple_no_prepass (fun l => l = [])). emits_steps. }
    do 5 (apply (triple_bind none none);
          [apply (triple_no_prepass (fun l => l = [])); no_prepass_phase
          | exact Stop | intros ?]).
    match goal with |- context [let '(_, _) := ?x in _] => destruct x end.
    apply (triple_bind none none);
      [apply (triple_no_prepass (fun l => l = [])); no_prepass_phase
      | exact Stop | intros ?].
    apply (triple_bind none once); [apply tcpprep_once | auto | intros ?].
    do 3 (apply (triple_bind once once);
          [apply (triple_no_prepass
                    (fun l => (List.length l <= 1)%nat
                              /\ (tcpprep_auto_mode <> "first" ->
                                  tcpprep_auto_mode <> "only" -> l = [])));
           no_prepass_phase
          | auto | intros ?]).
    apply (triple_no_prepass
             (fun l => (List.length l <= 1)%nat
                       /\ (tcpprep_auto_mode <> "first" ->
                           tcpprep_auto_mode <> "only" -> l = []))).
    no_prepass_phase. }
  specialize (T fresh eq_refl).
  destruct (rewrite_pcap E pcap_file server_subnet_str server_mac client_subnet_str
              client_mac tcpprep_auto_mode fresh) as [r f].
  exact T.
Qed.

(** ** What pair discovery puts in the registry *)

(** Lines 100-110 add one entry, at the cursors, not processed; whether
    or not a cursor addition raises afterwards. *)
Lemma assign_entry ss cs key f :
  server_client_pairs (snd (assign ss cs key f))
  = insert_new key {| server := next_server_ip f; client := next_client_ip f;
                      processed := false |} (server_client_pairs f).
Proof.
  unfold assign, bind, get, set_pairs, set_next_server_ip, set_next_client_ip,
    ip_plus, ret, raise, print. simpl.
  repeat match goal with
  | |- context [IpAddress.add ?a ?n] => destruct (IpAddress.add a n); simpl
  | |- context [contains ?n ?a] => destruct (contains n a); simpl
  | |- context [geb ?a ?b] => destruct (geb a b); simpl
  end; reflexivity.
Qed.

Lemma sorted2_canonical (a b : string) :
  lt (snd (sorted2 a b)) (fst (sorted2 a b)) = false.
Proof.
  unfold sorted2. destruct (lt b a) eqn:BA; simpl; [now apply lt_asym | exact BA].
Qed.

Lemma discover_line_discovered E ss cs line f :
  Forall (discovered E) (server_client_pairs f) ->
  Forall (discovered E) (server_client_pairs (snd (discover_line E ss cs line f))).
Proof.
  intros D. unfold discover_line.
  destruct (strip line); [exact D |].
  destruct (split line) as [|a0 [|b [|c l]]]; try exact D.
  destruct (ip_address E a0 && ip_address E b) eqn:V; cbn [negb]; [| exact D].
  rewrite bind_eq. unfold get at 1.
  destruct (has_key _ _); cbn [negb]; [exact D |].
  rewrite assign_entry. unfold insert_new. apply Forall_app. split; [exact D |].
  repeat constructor; cbn [fst snd processed].
  - apply sorted2_canonical.
  - apply andb_prop in V. unfold sorted2. destruct (lt b a0); simpl; tauto.
  - apply andb_prop in V. unfold sorted2. destruct (lt b a0); simpl; tauto.
Qed.

Lemma discover_loop_discovered E ss cs lines : forall f,
  Forall (discovered E) (server_client_pairs f) ->
  Forall (discovered E)
    (server_client_pairs (snd (for_each lines (discover_line E ss cs) f))).
Proof.
  induction lines as [|line lines IH]; intros f D; simpl; [exact D |].
  rewrite bind_eq.
  pose proof (discover_line_discovered E ss cs line f D) as D1.
  destruct (discover_line E ss cs line f) as [[[] | v | e] f1]; simpl in *; auto.
Qed.

Lemma discover_discovered E pcap_file ss cs f :
  Forall (discovered E) (server_client_pairs (snd (discover E pcap_file ss cs f))).
Proof.
  unfold discover.
  rewrite bind_eq. unfold print at 1. rewrite bind_eq. unfold set_pairs at 1.
  rewrite bind_eq. unfold ip_plus at 1.
  destruct (IpAddress.add (network_address ss) 11); [| constructor].
  unfold ret at 1. rewrite bind_eq. unfold set_next_server_ip at 1.
  rewrite bind_eq. unfold ip_plus at 1.
  destruct (IpAddress.add (network_address cs) 11); [| constructor].
  unfold ret at 1. rewrite bind_eq. unfold set_next_client_ip at 1.
  rewrite try_eq, bind_eq. unfold subprocess_run at 1. cbn [trace emit].
  destruct (run E _ _) as [out | msg err | msg]; cbn [trace]; try constructor.
  match goal with |- context [for_each ?l ?b ?f0] =>
    pose proof (discover_loop_discovered E ss cs l f0 (Forall_nil _)) as H;
    destruct (for_each l b f0) as [[[] | v | e] f1]
  end; simpl in *; try exact H.
  destruct e; exact H.
Qed.

(** X7. Every entry of the registry that pair discovery leaves has a key
    in sorted order whose two strings both parse as addresses, and is not
    marked processed; so the re-sort of lines 134-136 never swaps, and the
    "server" of a pair is always the smaller of its two address strings. *)
Theorem registry_entries_canonical E (pcap_file : string)
    (server_subnet client_subnet : IPNetwork) (f : frame) (key : pair_key)
    (mapping : ip_mapping) :
  In (key, mapping)
     (server_client_pairs (snd (discover E pcap_file server_subnet client_subnet f))) ->
  lt (snd key) (fst key) = false
  /\ ip_address E (fst key) = true /\ ip_address E (snd key) = true
  /\ processed mapping = false
  /\ (if lt (snd key) (fst key) then (snd key, fst key) else (fst key, snd key)) = key.
Proof.
  intros In.
  pose proof (discover_discovered E pcap_file server_subnet client_subnet f) as D.
  rewrite Forall_forall in D. destruct (D _ In) as (C & Va & Vb & P).
  cbn [fst snd] in *. repeat split; auto. rewrite C. now destruct key.
Qed.

Lemma registry_entries_canonical_witness :
  lt "10.0.0.9" "10.0.0.5" = false /\ Demo.parse_address "10.0.0.5" = true.
Proof.
  destruct (registry_entries_canonical
              (Demo.env ["capture.pcap"] Demo.one_flow [] false) "capture.pcap"
              (Demo.network "192.168.1.0/24") (Demo.network "10.10.10.0/24") fresh
              ("10.0.0.5", "10.0.0.9")
              {| server := {| version := IPv4; ip := 3232235787 |};
                 client := {| version := IPv4; ip := 168430091 |};
                 processed := false |}) as (C & V & _).
  - vm_compute. left. reflexivity.
  - split; [exact C | exact V].
Defined.

(** ** Repeated and reversed flows *)

Lemma canonical_key_order (a b : string) :
  sorted2 a b = sorted2 b a /\ True.
Proof.
  split; [| exact I]. unfold sorted2.
  destruct (lt b a) eqn:BA, (lt a b) eqn:AB; try reflexivity.
  - apply lt_asym in BA. congruence.
  - now rewrite (lt_total a b AB BA).
Qed.

(** A line that [strip] empties has no token: the silent skip of lines
    82-83 only ever passes over lines that line 85 would have refused. *)
Lemma blank_line_no_tokens (s : string) : strip s = EmptyString -> split s = [].
Proof.
  unfold strip, split. induction s as [|c r IH]; simpl; [reflexivity |].
  destruct (isspace c) eqn:W; [exact IH |].
  simpl. rewrite W. destruct (rstrip r); discriminate.
Qed.

Lemma key_eqb_refl (k : pair_key) : key_eqb k k = true.
Proof. now apply key_eqb_eq. Qed.

Lemma has_key_insert_new (k : pair_key) (v : ip_mapping) (d : registry) :
  has_key k (insert_new k v d) = true.
Proof.
  unfold has_key, insert_new. induction d as [|[k' v'] d IH]; simpl.
  - now rewrite key_eqb_refl.
  - destruct (key_eqb k k'); [reflexivity | exact IH].
Qed.

(** A line of two valid addresses that was processed to the end leaves
    its key in the registry. *)
Lemma discover_line_records E ss cs line a b f f1 :
  split line = [a; b] -> ip_address E a = true -> ip_address E b = true ->
  discover_line E ss cs line f = (Normal tt, f1) ->
  has_key (sorted2 a b) (server_client_pairs f1) = true.
Proof.
  intros S Va Vb. unfold discover_line.
  destruct (strip line) eqn:B.
  { apply blank_line_no_tokens in B. congruence. }
  rewrite S, Va, Vb. cbn [andb negb]. rewrite bind_eq. unfold get at 1.
  destruct (has_key (sorted2 a b) (server_client_pairs f)) eqn:H; cbn [negb].
  - intros [= <-]. exact H.
  - intros R. pose proof (assign_entry ss cs (sorted2 a b) f) as P.
    rewrite R in P. simpl in P. rewrite P. apply has_key_insert_new.
Qed.

(** A line whose key is in the registry changes nothing at all. *)
Lemma discover_line_known E ss cs line a b f :
  split line = [a; b] -> ip_address E a = true -> ip_address E b = true ->
  has_key (sorted2 a b) (server_client_pairs f) = true ->
  discover_line E ss cs line f = (Normal tt, f).
Proof.
  intros S Va Vb H. unfold discover_line.
  destruct (strip line); [reflexivity |].
  rewrite S, Va, Vb. cbn [andb negb]. rewrite bind_eq. unfold get at 1.
  rewrite H. reflexivity.
Qed.



(** ** Exhausted subnets *)

Lemma slot_period (n : IPNetwork) (i j : nat) :
  11 < num_addresses n -> Z.of_nat j = Z.of_nat i + (num_addresses n - 11) ->
  slot n j = slot n i.
Proof.
  intros Big Next. unfold slot. f_equal.
  apply Z.ltb_lt in Big. rewrite Big. apply Z.ltb_lt in Big.
  rewrite Next. f_equal.
  rewrite <- (Z.mul_1_l (num_addresses n - 11)) at 1.
  apply Z.mod_add. lia.
Qed.

Lemma slot_small (n : IPNetwork) (k : nat) :
  num_addresses n <= 11 -> slot n k = eleventh n /\ contains n (slot n k) = false.
Proof.
  intros Small. assert (S : (11 <? num_addresses n) = false) by (apply Z.ltb_ge; lia).
  unfold slot, eleventh, contains, broadcast_address. cbn [version ip]. rewrite S.
  split; [f_equal; lia |].
  rewrite version_eqb_refl. cbn [andb].
  apply andb_false_iff. right. apply Z.leb_gt. lia.
Qed.

(** X9. Address reuse.  In a subnet of more than 11 addresses the cursor
    wraps with period [size - 11]: the pairs number [i] and
    [i + (size - 11)] get the same address.  In a subnet of at most 11
    addresses every pair gets the address 11 past the network address,
    which is outside the subnet. *)
Theorem exhausted_subnet_reuses_addresses E (pcap_file : string)
    (server_subnet client_subnet : IPNetwork) (f : frame) :
  let d := server_client_pairs (snd (discover E pcap_file server_subnet client_subnet f)) in
  (forall i j ki mi kj mj,
     nth_error d i = Some (ki, mi) -> nth_error d j = Some (kj, mj) ->
     (11 < num_addresses server_subnet ->
      Z.of_nat j = Z.of_nat i + (num_addresses server_subnet - 11) ->
      server mj = server mi)
     /\ (11 < num_addresses client_subnet ->
         Z.of_nat j = Z.of_nat i + (num_addresses client_subnet - 11) ->
         client mj = client mi))
  /\ (forall key m, In (key, m) d ->
        (num_addresses server_subnet <= 11 ->
         server m = eleventh server_subnet /\ contains server_subnet (server m) = false)
        /\ (num_addresses client_subnet <= 11 ->
            client m = eleventh client_subnet
            /\ contains client_subnet (client m) = false)).
Proof.
  intros d.
  destruct (discover_allocated E pcap_file server_subnet client_subnet f) as [F _].
  fold d in F. split.
  - intros i j ki mi kj mj Hi Hj.
    destruct (F i ki mi Hi) as [Si Ci]. destruct (F j kj mj Hj) as [Sj Cj].
    rewrite Si, Sj, Ci, Cj. split; intros Big Next; now apply slot_period.
  - intros key m In. apply In_nth_error in In. destruct In as [i Hi].
    destruct (F i key m Hi) as [-> ->]. split; intros Small; now apply slot_small.
Qed.

Lemma exhausted_subnet_reuses_addresses_witness :
  let d := server_client_pairs
             (snd (discover (Demo.env ["capture.pcap"] six_flows [] false) "capture.pcap"
                     (Demo.network "192.168.1.0/28") (Demo.network "10.0.0.0/30") fresh)) in
  exists k0 m0 k5 m5,
    nth_error d 0 = Some (k0, m0) /\ nth_error d 5 = Some (k5, m5)
    /\ k0 <> k5 /\ server m5 = server m0
    /\ contains (Demo.network "10.0.0.0/30") (client m0) = false.
Proof.
  intros d.
  destruct (exhausted_subnet_reuses_addresses
              (Demo.env ["capture.pcap"] six_flows [] false) "capture.pcap"
              (Demo.network "192.168.1.0/28") (Demo.network "10.0.0.0/30") fresh)
    as [Wrap Small].
  fold d in Wrap, Small.
  assert (H0 : nth_error d 0 =
               Some (("10.0.0.1", "10.0.0.9"),
                     {| server := {| version := IPv4; ip := 3232235787 |};
                        client := {| version := IPv4; ip := 167772171 |};
                        processed := false |})) by (vm_compute; reflexivity).
  assert (H5 : nth_error d 5 =
               Some (("10.0.0.6", "10.0.0.9"),
                     {| server := {| version := IPv4; ip := 3232235787 |};
                        client := {| version := IPv4; ip := 167772171 |};
                        processed := false |})) by (vm_compute; reflexivity).
  eexists _, _, _, _. split; [exact H0 |]. split; [exact H5 |].
  split; [discriminate |]. split.
  - apply (Wrap 0%nat 5%nat _ _ _ _ H0 H5); vm_compute; reflexivity.
  - apply (Small _ _ (nth_error_In d 0 H0)). vm_compute. discriminate.
Defined.

(** Line 104 compares the reset cursor with the broadcast address: in a
    subnet of more than 12 addresses the test fails. *)
Lemma reset_below_broadcast (n : IPNetwork) (r : IPAddress) :
  12 < num_addresses n -> IpAddress.add (network_address n) 11 = Some r ->
  geb r (broadcast_address n) = false.
Proof.
  intros Big. unfold IpAddress.add. destruct (_ && _); [| discriminate].
  intros [= <-]. unfold geb, broadcast_address. cbn [ip]. apply Z.leb_gt. lia.
Qed.

Lemma assign_silent ss cs key f :
  12 < num_addresses ss -> 12 < num_addresses cs ->
  trace (snd (assign ss cs key f)) = trace f.
Proof.
  intros Bs Bc.
  unfold assign, bind, get, set_pairs, set_next_server_ip, set_next_client_ip,
    ip_plus, ret, raise, print. simpl.
  repeat match goal with
  | H : IpAddress.add (network_address ?n) 11 = Some ?r
    |- context [geb ?r (broadcast_address ?n)] =>
      rewrite (reset_below_broadcast n r) by assumption; simpl
  | |- context [IpAddress.add ?a ?n] => destruct (IpAddress.add a n) eqn:?; simpl
  | |- context [contains ?n ?a] => destruct (contains n a); simpl
  end; reflexivity.
Qed.

(** X10. In subnets of more than 12 addresses, pair discovery never
    prints a "subnet exhausted" warning, however many pairs there are:
    the reuse of addresses after the cursor wraps is silent. *)
Theorem no_warning_when_cursor_wraps E (pcap_file : string)
    (server_subnet client_subnet : IPNetwork) (f : frame) :
  12 < num_addresses server_subnet -> 12 < num_addresses client_subnet ->
  exists new,
    trace (snd (discover E pcap_file server_subnet client_subnet f))
    = (new ++ trace f)%list
    /\ Forall (fun e => ~ exhaustion_warning e) new.
Proof.
  intros Bs Bc.
  assert (A : forall key, emits (fun e => ~ exhaustion_warning e)
                            (assign server_subnet client_subnet key)).
  { intros key. apply emits_nothing. intros f0. now apply assign_silent. }
  revert f. change (emits (fun e => ~ exhaustion_warning e)
                      (discover E pcap_file server_subnet client_subnet)).
  unfold discover, discover_line.
  generalize (assign server_subnet client_subnet) A. intros assign_at A'.
  emits_steps; try apply A';
    first [apply emits_print | apply emits_subprocess_run];
    intros [H | H]; simpl in H; discriminate H.
Qed.

Lemma no_warning_when_cursor_wraps_witness :
  exists new,
    trace (snd (discover (Demo.env ["capture.pcap"] six_flows [] false) "capture.pcap"
                  (Demo.network "192.168.1.0/28") (Demo.network "10.10.10.0/28") fresh))
    = (new ++ trace fresh)%list
    /\ Forall (fun e => ~ exhaustion_warning e) new.
Proof.
  apply (no_warning_when_cursor_wraps
           (Demo.env ["capture.pcap"] six_flows [] false) "capture.pcap"
           (Demo.network "192.168.1.0/28") (Demo.network "10.10.10.0/28") fresh);
    vm_compute; reflexivity.
Defined.

(** ** The chain of temporary files *)

Lemma no_char_split (c : ascii) (x x' y y' : string) :
  mem c x = false -> mem c x' = false ->
  x ++ String c y = x' ++ String c y' -> x = x' /\ y = y'.
Proof.
  revert x'. induction x as [|a x IH]; intros [|a' x'] Hx Hx'; simpl in *.
  - intros [= ->]. auto.
  - intros [= <- _]. rewrite Ascii.eqb_refl in Hx'. discriminate.
  - intros [= -> _]. rewrite Ascii.eqb_refl in Hx. discriminate.
  - intros [= -> Eq]. apply orb_false_elim in Hx. apply orb_false_elim in Hx'.
    destruct (IH x' (proj2 Hx) (proj2 Hx') Eq) as [-> ->]. auto.
Qed.

Lemma digits_plain (c : ascii) (d : Decimal.uint) :
  MacRe.in_range 48 57 c = false ->
  mem c (DecimalString.NilEmpty.string_of_uint d) = false.
Proof.
  intros N.
  induction d; cbn [DecimalString.NilEmpty.string_of_uint mem]; auto;
    rewrite IHd, orb_false_r; apply Ascii.eqb_neq; intros <-; discriminate N.
Qed.

Lemma to_uint_nonnil (n : nat) : Nat.to_uint n <> Decimal.Nil.
Proof.
  intros H. pose proof (DecimalNat.Unsigned.to_of (Nat.to_uint n)) as T.
  rewrite DecimalNat.Unsigned.of_to, H in T. discriminate T.
Qed.

Lemma str_nat_plain (c : ascii) (n : nat) :
  MacRe.in_range 48 57 c = false -> mem c (str_nat n) = false.
Proof.
  intros N. unfold str_nat, DecimalString.NilZero.string_of_uint.
  pose proof (to_uint_nonnil n) as NN.
  destruct (Nat.to_uint n); try now apply digits_plain.
  now destruct NN.
Qed.

Lemma str_nat_injective (n n' : nat) : str_nat n = str_nat n' -> n = n'.
Proof.
  unfold str_nat. intros Eq. apply DecimalNat.Unsigned.to_uint_inj.
  assert (U : forall k, DecimalString.NilZero.uint_of_string
                          (DecimalString.NilZero.string_of_uint (Nat.to_uint k))
                        = Some (Nat.to_uint k)).
  { intros k. apply DecimalString.NilZero.usu.
    apply to_uint_nonnil. }
  pose proof (U n) as Un. rewrite Eq, U in Un. now injection Un.
Qed.

Lemma temp_file_name_injective (base : string) (count step count' step' : nat) :
  temp_file_name base count step = temp_file_name base count' step' ->
  count = count' /\ step = step'.
Proof.
  unfold temp_file_name. intros Eq.
  apply append_inv_head in Eq. apply (append_inv_head "_temp_") in Eq.
  change (str_nat count ++ String "_" (str_nat step ++ ".pcap")
          = str_nat count' ++ String "_" (str_nat step' ++ ".pcap")) in Eq.
  apply no_char_split in Eq; try (apply str_nat_plain; reflexivity).
  destruct Eq as [Ec Es].
  change (str_nat step ++ String "." "pcap" = str_nat step' ++ String "." "pcap") in Es.
  apply no_char_split in Es; try (apply str_nat_plain; reflexivity).
  split; apply str_nat_injective; tauto.
Qed.

Lemma chain_snoc (input : string) (l : list (list string)) (c : list string) :
  chain_from input l -> infile_of c = last_output input l ->
  chain_from input (l ++ [c]).
Proof.
  revert input. induction l as [|x l IH]; intros input; simpl.
  - intros _ ->. auto.
  - intros [Hx Hl] Hc. split; [exact Hx |]. apply IH; assumption.
Qed.

Lemma last_output_snoc (input : string) (l : list (list string)) (c : list string) :
  last_output input (l ++ [c]) = outfile_of c.
Proof. unfold last_output. now rewrite fold_left_app. Qed.

Lemma invocations_quiet (l : list event) :
  Forall not_rewrite l -> invocations l = [].
Proof.
  induction 1 as [|e l H _ IH]; simpl; [reflexivity |]. rewrite IH, app_nil_r.
  destruct e; try reflexivity. unfold not_rewrite in H. now rewrite H.
Qed.

(** One block of the loop body, however it ends: it has made exactly one
    invocation, from the current input file to the temporary file numbered
    by the two counters, and moved the step counter on; it has left the
    registry and the pair counter alone; and if it ended normally the
    temporary file is the current input file. *)
Lemma tcprewrite_pass_effect E pcap_file base cache server_mac client_mac ipmap
    (first_block : bool) (f : frame) :
  let temp := temp_file_name base (processed_count f) (rewrite_step f) in
  let r := fst (tcprewrite_pass E pcap_file base cache server_mac client_mac ipmap
                  first_block f) in
  let f' := snd (tcprewrite_pass E pcap_file base cache server_mac client_mac ipmap
                   first_block f) in
  invocations (List.rev (trace f'))
  = (invocations (List.rev (trace f))
     ++ [tcprewrite_command cache server_mac client_mac (current_input_file f) temp
           ipmap])%list
  /\ server_client_pairs f' = server_client_pairs f
  /\ processed_count f' = processed_count f
  /\ rewrite_step f' = S (rewrite_step f)
  /\ (r = Normal tt -> current_input_file f' = temp)
  /\ (forall v, r <> Returned v).
Proof.
  unfold tcprewrite_pass, bind, get, set_rewrite_step, print, subprocess_run,
    os_remove, set_current_input_file, ret. simpl.
  destruct (run E _ _) as [out | msg err | msg]; simpl.
  1: destruct (first_block && String.eqb (current_input_file f) pcap_file); simpl.
  2: destruct (remove E _ _); simpl.
  all: rewrite ?invocations_app; simpl; rewrite ?app_nil_r, Nat.add_1_r.
  all: repeat split; auto; discriminate.
Qed.

Section TemporaryFiles.

Variables (E : Env) (pcap_file base cache server_mac client_mac : string).

Lemma tcprewrite_pass_chained ipmap (first_block : bool) (f : frame) :
  well_chained pcap_file base f -> ready pcap_file f ->
  let r := fst (tcprewrite_pass E pcap_file base cache server_mac client_mac ipmap
                  first_block f) in
  let f' := snd (tcprewrite_pass E pcap_file base cache server_mac client_mac ipmap
                   first_block f) in
  well_chained pcap_file base f' /\ (r = Normal tt -> ready pcap_file f').
Proof.
  intros (C & T & N) R.
  destruct (tcprewrite_pass_effect E pcap_file base cache server_mac client_mac ipmap
              first_block f) as (I & _ & _ & S & Cur & _).
  cbv zeta. unfold well_chained, ready. cbv zeta. rewrite I, S. split; [split; [| split] |].
  - apply chain_snoc; [exact C | exact R].
  - apply Forall_app. split.
    + eapply Forall_impl; [| exact T]. intros c (count & step & Out & Lt).
      exists count, step. split; [exact Out | lia].
    + repeat constructor. eexists _, _. split; [reflexivity | lia].
  - rewrite map_app. apply NoDup_app; [exact N | repeat constructor; intros [] |].
    intros name In [<- | []]. apply in_map_iff in In. destruct In as (c & Out & In).
    rewrite Forall_forall in T. destruct (T c In) as (count & step & Out' & Lt).
    rewrite Out' in Out. cbn [outfile_of tcprewrite_command nth] in Out.
    apply temp_file_name_injective in Out. lia.
  - intros Ok. rewrite (Cur Ok), last_output_snoc. reflexivity.
Qed.

Lemma rewrite_pair_chained (pair : pair_key) :
  hoare (fun f => well_chained pcap_file base f /\ ready pcap_file f)
    (rewrite_pair E pcap_file base cache server_mac client_mac pair)
    (fun r f => well_chained pcap_file base f /\ (r = Normal tt -> ready pcap_file f)).
Proof.
  assert (Pass : forall ipmap b,
    hoare (fun f => well_chained pcap_file base f /\ ready pcap_file f)
      (tcprewrite_pass E pcap_file base cache server_mac client_mac ipmap b)
      (fun r f => well_chained pcap_file base f /\ (r = Normal tt -> ready pcap_file f))).
  { intros ipmap b f [W R]. now apply tcprewrite_pass_chained. }
  assert (Go : forall (k : unit -> M unit),
    (forall a, hoare (fun f => well_chained pcap_file base f /\ ready pcap_file f) (k a)
                 (fun r f => well_chained pcap_file base f
                             /\ (r = Normal tt -> ready pcap_file f))) ->
    forall ipmap b,
    hoare (fun f => well_chained pcap_file base f /\ ready pcap_file f)
      (bind (tcprewrite_pass E pcap_file base cache server_mac client_mac ipmap b) k)
      (fun r f => well_chained pcap_file base f /\ (r = Normal tt -> ready pcap_file f))).
  { intros k Hk ipmap b.
    apply (hoare_bind _ (fun r f => well_chained pcap_file base f
                                    /\ (r = Normal tt -> ready pcap_file f))).
    - apply Pass.
    - intros [] f [W R]. apply Hk. split; [exact W | now apply R].
    - intros v f [W _]. split; [exact W | discriminate].
    - intros e f [W _]. split; [exact W | discriminate]. }
  intros f [W R].
  destruct (rewrite_pair E pcap_file base cache server_mac client_mac pair f)
    as [r f'] eqn:Run.
  cbn [fst snd]. unfold rewrite_pair in Run. rewrite bind_eq in Run.
  unfold get at 1 in Run.
  destruct (lookup pair (server_client_pairs f)) as [mapping|].
  2:{ injection Run as <- <-. split; [exact W | discriminate]. }
  destruct (processed mapping).
  { injection Run as <- <-. split; [exact W | intros _; exact R]. }
  destruct (if lt (snd pair) (fst pair) then _ else _)
    as [original_server_ip original_client_ip].
  assert (H : hoare (fun f => well_chained pcap_file base f /\ ready pcap_file f)
    (tcprewrite_pass E pcap_file base cache server_mac client_mac
       ("--srcipmap=" ++ original_server_ip ++ ":" ++ str E (server mapping)) true;;
     tcprewrite_pass E pcap_file base cache server_mac client_mac
       ("--dstipmap=" ++ original_client_ip ++ ":" ++ str E (client mapping)) false;;
     tcprewrite_pass E pcap_file base cache server_mac client_mac
       ("--srcipmap=" ++ original_client_ip ++ ":" ++ str E (client mapping)) false;;
     tcprewrite_pass E pcap_file base cache server_mac client_mac
       ("--dstipmap=" ++ original_server_ip ++ ":" ++ str E (server mapping)) false;;
     d' <- get server_client_pairs;;
     set_pairs (mark_processed pair d');;
     count <- get processed_count;; set_processed_count (count + 1)%nat)
    (fun r f => well_chained pcap_file base f /\ (r = Normal tt -> ready pcap_file f))).
  { do 4 (apply Go; intros _). intros f0 [W0 R0]. split; [exact W0 | intros _; exact R0]. }
  pose proof (H f (conj W R)) as K. rewrite Run in K. exact K.
Qed.

Lemma rewrite_loop_chained (keys : list pair_key) :
  hoare (fun f => well_chained pcap_file base f /\ ready pcap_file f)
    (for_each keys (rewrite_pair E pcap_file base cache server_mac client_mac))
    (fun r f => well_chained pcap_file base f /\ (r = Normal tt -> ready pcap_file f)).
Proof.
  induction keys as [|k keys IH]; cbn [for_each].
  - intros f [W R]. split; [exact W | intros _; exact R].
  - apply (hoare_bind _ (fun r f => well_chained pcap_file base f
                                    /\ (r = Normal tt -> ready pcap_file f))).
    + apply rewrite_pair_chained.
    + intros [] f [W R]. apply IH. split; [exact W | now apply R].
    + intros v f [W _]. split; [exact W | discriminate].
    + intros e f [W _]. split; [exact W | discriminate].
Qed.

Lemma well_chained_result f : well_chained pcap_file base f -> chain_result pcap_file f.
Proof. intros (C & _ & N). split; assumption. Qed.

(** Lines 125-219, from a trace without invocations: the invocations form
    a chain, and if the loop ends normally the current input file is the
    file the last invocation wrote -- the input file itself if there was
    none. *)
Lemma rewrite_all_effect (f f' : frame) (r : outcome unit) :
  invocations (List.rev (trace f)) = [] ->
  rewrite_all E pcap_file base cache server_mac client_mac f = (r, f') ->
  chain_result pcap_file f' /\ (r = Normal tt -> ready pcap_file f').
Proof.
  intros None Run. unfold rewrite_all in Run.
  rewrite bind_eq in Run. unfold set_current_input_file at 1 in Run.
  rewrite bind_eq in Run. unfold set_processed_count at 1 in Run.
  rewrite bind_eq in Run. unfold set_rewrite_step at 1 in Run.
  match type of Run with try_ ?m ?h ?f0 = _ =>
    assert (Start : well_chained pcap_file base f0 /\ ready pcap_file f0)
  end.
  { unfold well_chained, ready. cbn [trace current_input_file rewrite_step].
    rewrite None. simpl. repeat split; constructor. }
  rewrite try_eq, bind_eq in Run. unfold get at 1 in Run.
  match type of Run with context [for_each ?l ?b ?f0] =>
    pose proof (rewrite_loop_chained l f0 Start) as W;
    destruct (for_each l b f0) as [[[] | v | e] f1]
  end; cbn [fst snd] in W; destruct W as [W R].
  - injection Run as <- <-. split; [now apply well_chained_result | exact R].
  - injection Run as <- <-. split; [now apply well_chained_result | discriminate].
  - destruct e; try (injection Run as <- <-;
                     split; [now apply well_chained_result | discriminate]).
    unfold bind, print, return_ in Run. injection Run as <- <-.
    apply well_chained_result in W. unfold chain_result in *. split; [| discriminate].
    simpl. rewrite invocations_app. simpl. now rewrite app_nil_r.
Qed.

Lemma rewrite_all_chained :
  triple (fun f => invocations (List.rev (trace f)) = [])
    (rewrite_all E pcap_file base cache server_mac client_mac)
    (chain_result pcap_file).
Proof.
  intros f None.
  destruct (rewrite_all E pcap_file base cache server_mac client_mac f) as [r f'] eqn:Run.
  now apply (rewrite_all_effect f f' r None Run).
Qed.

End TemporaryFiles.

#[local] Hint Extern 1 (not_rewrite _) => reflexivity : emits.

(** [rewrite_pcap] phase by phase: what holds before the loop is kept by
    everything that invokes no tcprewrite, the loop turns it into [Q], and
    [Q] is kept by what comes after. *)
Lemma rewrite_pcap_phases E (pcap_file : string)
    (server_subnet_str server_mac client_subnet_str client_mac : option string)
    (tcpprep_auto_mode : string) (I Q : frame -> Prop) :
  (forall A (m : M A), emits not_rewrite m -> triple I m I) ->
  (forall f, I f -> Q f) ->
  (forall sm cm,
     triple I (rewrite_all E pcap_file (base_filename_of pcap_file)
                 (base_filename_of pcap_file ++ ".cache") sm cm) Q) ->
  (forall A (m : M A), emits harmless m -> triple Q m Q) ->
  triple I
    (rewrite_pcap E pcap_file server_subnet_str server_mac client_subnet_str client_mac
       tcpprep_auto_mode) Q.
Proof.
  intros Keep Stop Loop After.
  unfold rewrite_pcap.
  apply (triple_bind I I);
    [apply Keep; unfold os_path_exists; emits_steps | exact Stop | intros found].
  destruct found; cbn [negb].
  2:{ apply (triple_post I I); [| exact Stop]. apply Keep. emits_steps. }
  do 5 (apply (triple_bind I I);
        [apply Keep; unfold or_prompt, validate; emits_steps | exact Stop | intros ?]).
  match goal with |- context [let '(_, _) := ?x in _] => destruct x end.
  do 4 (apply (triple_bind I I);
        [apply Keep;
         unfold remove_stale, os_path_exists, tcpprep, discover, discover_line, assign,
           save_pairs; emits_steps
        | exact Stop | intros ?]).
  apply (triple_bind I Q); [apply Loop | auto | intros _].
  apply After, emits_finalize.
Qed.

Lemma triple_invocations {A} (R : list (list string) -> Prop) (m : M A) :
  emits not_rewrite m ->
  triple (fun f => R (invocations (List.rev (trace f)))) m
         (fun f => R (invocations (List.rev (trace f)))).
Proof.
  intros Hm f Rf. destruct (Hm f) as (new & T & F).
  rewrite T, rev_app_distr, invocations_app, (invocations_quiet (List.rev new)), app_nil_r;
    [exact Rf | now apply Forall_rev].
Qed.

Lemma harmless_not_rewrite {A} (m : M A) : emits harmless m -> emits not_rewrite m.
Proof.
  intros Hm f. destruct (Hm f) as (new & T & F). exists new. split; [exact T |].
  eapply Forall_impl; [| exact F]. apply harmless_not_tcprewrite.
Qed.

(** X11. In every run, however it ends, the tcprewrite invocations form a
    chain: the first reads the input capture, each later one reads the
    file the one before was told to write; and the files they are told to
    write are pairwise distinct. *)
Theorem invocations_form_a_chain E (pcap_file : string)
    (server_subnet_str server_mac client_subnet_str client_mac : option string)
    (tcpprep_auto_mode : string) :
  let made := invocations (snd (call (rewrite_pcap E pcap_file server_subnet_str
                                        server_mac client_subnet_str client_mac
                                        tcpprep_auto_mode))) in
  chain_from pcap_file made /\ NoDup (map outfile_of made).
Proof.
  unfold call. cbv zeta.
  pose proof (rewrite_pcap_phases E pcap_file server_subnet_str server_mac
                client_subnet_str client_mac tcpprep_auto_mode
                (fun f => invocations (List.rev (trace f)) = [])
                (chain_result pcap_file)) as H.
  specialize (H (fun A m Hm => triple_invocations (fun l => l = []) m Hm)).
  assert (Q : chain_result pcap_file
                (snd (rewrite_pcap E pcap_file server_subnet_str server_mac
                        client_subnet_str client_mac tcpprep_auto_mode fresh))).
  { apply H; [| | | reflexivity].
    - intros f None. unfold chain_result. rewrite None. simpl. split; constructor.
    - intros sm cm. apply rewrite_all_chained.
    - intros A m Hm.
      apply (triple_invocations
               (fun l => chain_from pcap_file l /\ NoDup (map outfile_of l))).
      now apply harmless_not_rewrite. }
  destruct (rewrite_pcap E pcap_file server_subnet_str server_mac client_subnet_str
              client_mac tcpprep_auto_mode fresh) as [r f].
  exact Q.
Qed.

(** ** The loop over the registry *)

Lemma lookup_middle (k : pair_key) (v : ip_mapping) (done rest : registry) :
  ~ In k (map fst done) -> lookup k (done ++ (k, v) :: rest)%list = Some v.
Proof.
  induction done as [|[k' v'] done IH]; simpl; intros N.
  - now rewrite key_eqb_refl.
  - destruct (key_eqb k k') eqn:Eq.
    + apply key_eqb_eq in Eq. subst. tauto.
    + apply IH. tauto.
Qed.

Lemma mark_processed_middle (k : pair_key) (v : ip_mapping) (done rest : registry) :
  ~ In k (map fst done) ->
  mark_processed k (done ++ (k, v) :: rest)%list = (done ++ marked (k, v) :: rest)%list.
Proof.
  induction done as [|[k' v'] done IH]; simpl; intros N.
  - now rewrite key_eqb_refl.
  - destruct (key_eqb k k') eqn:Eq.
    + apply key_eqb_eq in Eq. subst. tauto.
    + rewrite IH by tauto. reflexivity.
Qed.

(** Lines 131-215 for a pair that is in the registry, not processed, when
    all four blocks end normally. *)
Lemma rewrite_pair_effect E pcap_file base cache server_mac client_mac
    (pair : pair_key) (mapping : ip_mapping) (f f' : frame) :
  lookup pair (server_client_pairs f) = Some mapping ->
  processed mapping = false ->
  rewrite_pair E pcap_file base cache server_mac client_mac pair f = (Normal tt, f') ->
  invocation_count f' = (invocation_count f + 4)%nat
  /\ server_client_pairs f' = mark_processed pair (server_client_pairs f)
  /\ processed_count f' = S (processed_count f)
  /\ rewrite_step f' = (rewrite_step f + 4)%nat.
Proof.
  intros Look Fresh. unfold rewrite_pair. rewrite bind_eq. unfold get at 1.
  rewrite Look, Fresh.
  destruct (if lt (snd pair) (fst pair) then _ else _)
    as [original_server_ip original_client_ip].
  unfold invocation_count.
  rewrite bind_eq.
  match goal with |- context [tcprewrite_pass ?a ?b ?c ?d ?e ?g ?m ?fb f] =>
    destruct (tcprewrite_pass_effect a b c d e g m fb f) as (I1 & P1 & C1 & S1 & _);
    destruct (tcprewrite_pass a b c d e g m fb f) as [[[] | ? | ?] f1]
  end; try discriminate. cbn [fst snd] in *.
  rewrite bind_eq.
  match goal with |- context [tcprewrite_pass ?a ?b ?c ?d ?e ?g ?m ?fb f1] =>
    destruct (tcprewrite_pass_effect a b c d e g m fb f1) as (I2 & P2 & C2 & S2 & _);
    destruct (tcprewrite_pass a b c d e g m fb f1) as [[[] | ? | ?] f2]
  end; try discriminate. cbn [fst snd] in *.
  rewrite bind_eq.
  match goal with |- context [tcprewrite_pass ?a ?b ?c ?d ?e ?g ?m ?fb f2] =>
    destruct (tcprewrite_pass_effect a b c d e g m fb f2) as (I3 & P3 & C3 & S3 & _);
    destruct (tcprewrite_pass a b c d e g m fb f2) as [[[] | ? | ?] f3]
  end; try discriminate. cbn [fst snd] in *.
  rewrite bind_eq.
  match goal with |- context [tcprewrite_pass ?a ?b ?c ?d ?e ?g ?m ?fb f3] =>
    destruct (tcprewrite_pass_effect a b c d e g m fb f3) as (I4 & P4 & C4 & S4 & _);
    destruct (tcprewrite_pass a b c d e g m fb f3) as [[[] | ? | ?] f4]
  end; try discriminate. cbn [fst snd] in *.
  unfold bind, get, set_pairs, set_processed_count. simpl. intros [= <-]. simpl.
  rewrite I4, I3, I2, I1, !length_app, P4, P3, P2, P1, C4, C3, C2, C1, S4, S3, S2, S1.
  simpl. repeat split; lia.
Qed.

Section Loop.

Variables (E : Env) (pcap_file base cache server_mac client_mac : string).

Lemma rewrite_loop_effect (todo : registry) : forall (done : registry) (f f' : frame),
  server_client_pairs f = (done ++ todo)%list ->
  NoDup (map fst (done ++ todo)) ->
  Forall (fun entry => processed (snd entry) = false) todo ->
  for_each (map fst todo) (rewrite_pair E pcap_file base cache server_mac client_mac) f
  = (Normal tt, f') ->
  server_client_pairs f' = (done ++ map marked todo)%list
  /\ invocation_count f' = (invocation_count f + 4 * List.length todo)%nat
  /\ processed_count f' = (processed_count f + List.length todo)%nat
  /\ rewrite_step f' = (rewrite_step f + 4 * List.length todo)%nat.
Proof.
  induction todo as [|[k v] todo IH]; intros done f f' Pairs Keys Fresh; simpl.
  - intros [= <-]. rewrite Pairs. repeat split; lia.
  - rewrite bind_eq.
    assert (New : ~ In k (map fst done)).
    { rewrite map_app in Keys. simpl in Keys. apply NoDup_remove_2 in Keys.
      intros In. apply Keys. apply in_or_app. now left. }
    destruct (rewrite_pair E pcap_file base cache server_mac client_mac k f)
      as [[[] | ? | ?] f1] eqn:Run; try discriminate.
    apply Forall_cons_iff in Fresh. destruct Fresh as [Fk Fresh].
    apply (rewrite_pair_effect E pcap_file base cache server_mac client_mac k v) in Run;
      [| rewrite Pairs; now apply lookup_middle | exact Fk].
    destruct Run as (I1 & P1 & C1 & S1).
    rewrite Pairs, mark_processed_middle in P1 by exact New.
    intros Rest.
    destruct (IH (done ++ [marked (k, v)])%list f1 f') as (P & I & C & S); auto.
    + rewrite P1, <- app_assoc. reflexivity.
    + rewrite <- app_assoc. simpl. rewrite map_app in Keys |- *. exact Keys.
    + rewrite P, I, C, S, I1, C1, S1, <- app_assoc. simpl. repeat split; lia.
Qed.

(** X12. From a registry with distinct keys and no pair processed, as
    pair discovery leaves it: if the rewrite loop ends normally it has made
    exactly four tcprewrite invocations per pair, it has marked every pair
    processed and changed nothing else in the registry, and its two
    counters stand at the number of pairs and four times that number. *)
Theorem rewrite_all_processes_every_pair (f f' : frame) :
  NoDup (map fst (server_client_pairs f)) ->
  Forall (fun entry => processed (snd entry) = false) (server_client_pairs f) ->
  rewrite_all E pcap_file base cache server_mac client_mac f = (Normal tt, f') ->
  let N := List.length (server_client_pairs f) in
  server_client_pairs f' = map marked (server_client_pairs f)
  /\ invocation_count f' = (invocation_count f + 4 * N)%nat
  /\ processed_count f' = N
  /\ rewrite_step f' = (4 * N)%nat.
Proof.
  intros Keys Fresh. unfold rewrite_all.
  rewrite bind_eq. unfold set_current_input_file at 1.
  rewrite bind_eq. unfold set_processed_count at 1.
  rewrite bind_eq. unfold set_rewrite_step at 1.
  rewrite try_eq, bind_eq. unfold get at 1.
  cbn [server_client_pairs].
  match goal with |- context [for_each ?l ?b ?f0] =>
    pose proof (fun f1 => rewrite_loop_effect (server_client_pairs f) [] f0 f1 eq_refl
                            Keys Fresh) as H;
    destruct (for_each l b f0) as [[[] | ? | e] f1]
  end; try discriminate.
  - intros [= <-]. destruct (H f1 eq_refl) as (P & I & C & S). cbv zeta.
    rewrite P. unfold invocation_count in *. cbn [trace] in I. auto.
  - destruct e; simpl; discriminate.
Qed.

End Loop.

Lemma rewrite_all_processes_every_pair_witness :
  let E := Demo.env ["capture.pcap"] Demo.five_flows [] false in
  let f := snd (discover E "capture.pcap" (Demo.network "192.168.1.0/24")
                  (Demo.network "10.10.10.0/24") fresh) in
  let f' := snd (rewrite_all E "capture.pcap" "capture" "capture.cache"
                   "00:11:22:33:44:55" "AA:BB:CC:DD:EE:FF" f) in
  invocation_count f' = (invocation_count f + 20)%nat /\ processed_count f' = 5%nat.
Proof.
  intros E f f'.
  destruct (rewrite_all_processes_every_pair E "capture.pcap" "capture" "capture.cache"
              "00:11:22:33:44:55" "AA:BB:CC:DD:EE:FF" f f') as (_ & I & C & _).
  - apply (discover_allocated E "capture.pcap").
  - eapply Forall_impl; [| apply (discover_discovered E "capture.pcap")].
    intros entry (_ & _ & _ & P). exact P.
  - vm_compute. reflexivity.
  - split; [exact I | exact C].
Defined.

(** ** The exceptions that can escape *)

Lemma lookup_known (k : pair_key) (d : registry) :
  In k (map fst d) -> exists v, lookup k d = Some v.
Proof.
  induction d as [|[k' v'] d IH]; simpl; [tauto |].
  destruct (key_eqb k k') eqn:Eq; [eauto |].
  intros [<- | In]; [| auto]. rewrite key_eqb_refl in Eq. discriminate.
Qed.

Lemma mark_processed_keys (k : pair_key) (d : registry) :
  map fst (mark_processed k d) = map fst d.
Proof.
  induction d as [|[k' v'] d IH]; simpl; [reflexivity |].
  destruct (key_eqb k k'); simpl; [reflexivity | now rewrite IH].
Qed.

Lemma tcprewrite_pass_exit E pcap_file base cache server_mac client_mac ipmap
    (first_block : bool) (f : frame) :
  loop_exit (fst (tcprewrite_pass E pcap_file base cache server_mac client_mac ipmap
                    first_block f)).
Proof.
  unfold tcprewrite_pass, bind, get, set_rewrite_step, print, subprocess_run,
    os_remove, set_current_input_file, ret. simpl.
  destruct (run E _ _); simpl; try exact I.
  destruct (first_block && _); simpl; try exact I.
  destruct (remove E _ _); simpl; exact I.
Qed.

(** The loop body for a key of the registry keeps the keys, and ends
    normally or with the exception of a tool or of the file system. *)
Lemma rewrite_pair_exit E pcap_file base cache server_mac client_mac
    (pair : pair_key) (f : frame) :
  In pair (map fst (server_client_pairs f)) ->
  loop_exit (fst (rewrite_pair E pcap_file base cache server_mac client_mac pair f))
  /\ map fst (server_client_pairs
                (snd (rewrite_pair E pcap_file base cache server_mac client_mac pair f)))
     = map fst (server_client_pairs f).
Proof.
  intros Known. destruct (lookup_known _ _ Known) as [mapping Look].
  destruct (rewrite_pair E pcap_file base cache server_mac client_mac pair f)
    as [r f'] eqn:Run.
  cbn [fst snd]. unfold rewrite_pair in Run. rewrite bind_eq in Run.
  unfold get at 1 in Run. rewrite Look in Run.
  destruct (processed mapping).
  { injection Run as <- <-. split; [exact I | reflexivity]. }
  destruct (if lt (snd pair) (fst pair) then _ else _)
    as [original_server_ip original_client_ip].
  rewrite bind_eq in Run.
  match type of Run with context [tcprewrite_pass ?a ?b ?c ?d ?e ?g ?m ?fb f] =>
    pose proof (tcprewrite_pass_exit a b c d e g m fb f) as X1;
    destruct (tcprewrite_pass_effect a b c d e g m fb f) as (_ & P1 & _);
    destruct (tcprewrite_pass a b c d e g m fb f) as [[[] | ? | ?] f1]
  end; cbn [fst snd] in *;
    try (injection Run as <- <-; split; [exact X1 | now rewrite P1]).
  rewrite bind_eq in Run.
  match type of Run with context [tcprewrite_pass ?a ?b ?c ?d ?e ?g ?m ?fb f1] =>
    pose proof (tcprewrite_pass_exit a b c d e g m fb f1) as X2;
    destruct (tcprewrite_pass_effect a b c d e g m fb f1) as (_ & P2 & _);
    destruct (tcprewrite_pass a b c d e g m fb f1) as [[[] | ? | ?] f2]
  end; cbn [fst snd] in *;
    try (injection Run as <- <-; split; [exact X2 | now rewrite P2, P1]).
  rewrite bind_eq in Run.
  match type of Run with context [tcprewrite_pass ?a ?b ?c ?d ?e ?g ?m ?fb f2] =>
    pose proof (tcprewrite_pass_exit a b c d e g m fb f2) as X3;
    destruct (tcprewrite_pass_effect a b c d e g m fb f2) as (_ & P3 & _);
    destruct (tcprewrite_pass a b c d e g m fb f2) as [[[] | ? | ?] f3]
  end; cbn [fst snd] in *;
    try (injection Run as <- <-; split; [exact X3 | now rewrite P3, P2, P1]).
  rewrite bind_eq in Run.
  match type of Run with context [tcprewrite_pass ?a ?b ?c ?d ?e ?g ?m ?fb f3] =>
    pose proof (tcprewrite_pass_exit a b c d e g m fb f3) as X4;
    destruct (tcprewrite_pass_effect a b c d e g m fb f3) as (_ & P4 & _);
    destruct (tcprewrite_pass a b c d e g m fb f3) as [[[] | ? | ?] f4]
  end; cbn [fst snd] in *;
    try (injection Run as <- <-; split; [exact X4 | now rewrite P4, P3, P2, P1]).
  unfold bind, get, set_pairs, set_processed_count in Run. simpl in Run.
  injection Run as <- <-. simpl. split; [exact I |].
  now rewrite mark_processed_keys, P4, P3, P2, P1.
Qed.

Lemma rewrite_loop_exit E pcap_file base cache server_mac client_mac
    (keys : list pair_key) : forall f,
  incl keys (map fst (server_client_pairs f)) ->
  loop_exit (fst (for_each keys
                    (rewrite_pair E pcap_file base cache server_mac client_mac) f)).
Proof.
  induction keys as [|k keys IH]; intros f Known; simpl; [exact I |].
  rewrite bind_eq.
  destruct (rewrite_pair_exit E pcap_file base cache server_mac client_mac k f)
    as [X K]; [apply Known; now left |].
  destruct (rewrite_pair E pcap_file base cache server_mac client_mac k f)
    as [[[] | ? | ?] f1]; cbn [fst snd] in *; try exact X.
  apply IH. rewrite K. intros x In. apply Known. now right.
Qed.

(** Lines 124-219 end normally, by [return None], or with an [OSError]:
    never with a [KeyError], and never with the error of a tool. *)
Lemma rewrite_all_exits E pcap_file base cache server_mac client_mac (psi : exit -> Prop) :
  psi (ByReturn None) -> (forall msg, psi (ByRaise (OSError msg))) ->
  exits psi (rewrite_all E pcap_file base cache server_mac client_mac).
Proof.
  intros N O f. unfold rewrite_all.
  rewrite bind_eq. unfold set_current_input_file at 1.
  rewrite bind_eq. unfold set_processed_count at 1.
  rewrite bind_eq. unfold set_rewrite_step at 1.
  rewrite try_eq, bind_eq. unfold get at 1. cbn [server_client_pairs].
  match goal with |- context [for_each ?l ?b ?f0] =>
    pose proof (rewrite_loop_exit E pcap_file base cache server_mac client_mac l f0
                  (incl_refl _)) as X;
    destruct (for_each l b f0) as [[[] | ? | e] f1]
  end; cbn [fst] in *; try exact I; try destruct X.
  destruct e; try destruct X; simpl; auto.
Qed.

#[local] Hint Extern 1 (exits _ (rewrite_all _ _ _ _ _ _)) =>
  apply rewrite_all_exits; [exact I | intros ?; exact I] : exits.

Lemma tcpprep_exits E pcap_file cache mode (psi : exit -> Prop) :
  psi (ByReturn None) -> (forall msg, psi (ByRaise (OSError msg))) ->
  exits psi (tcpprep E pcap_file cache mode).
Proof.
  intros N O. unfold tcpprep.
  destruct (_ || _); [| apply exits_normal; intros ?; eexists; reflexivity].
  apply (exits_try_with (fun x => match x with
                                  | ByReturn _ => psi x
                                  | ByRaise e => tool_or_os_error e
                                  end)).
  - unfold print. exits_steps; exact I.
  - intros v H. exact H.
  - intros [] In; try destruct In; simpl; auto.
    unfold print. exits_steps; exact N.
Qed.

Lemma discover_exits E pcap_file ss cs (psi : exit -> Prop) :
  psi (ByReturn None) -> (forall msg, psi (ByRaise (OSError msg))) ->
  (forall msg, psi (ByRaise (ValueError msg))) ->
  exits psi (discover E pcap_file ss cs).
Proof.
  intros N O V. unfold discover.
  do 6 (apply exits_bind;
        [unfold print, set_pairs, set_next_server_ip, set_next_client_ip;
         exits_steps; auto
        | intros ?]).
  apply (exits_try_with (no_key_error psi)).
  - unfold discover_line, assign, print, get, set_pairs. exits_steps; exact I.
  - intros v H. exact H.
  - intros [] In; try destruct In; simpl; auto.
    unfold print. exits_steps; exact N.
Qed.

#[local] Hint Extern 1 (exits _ (tcpprep _ _ _ _)) =>
  apply tcpprep_exits; [exact I | intros ?; exact I] : exits.
#[local] Hint Extern 1 (exits _ (discover _ _ _ _)) =>
  apply discover_exits; [exact I | intros ?; exact I | intros ?; exact I] : exits.

Lemma rewrite_pcap_possible_exits E (pcap_file : string)
    (server_subnet_str server_mac client_subnet_str client_mac : option string)
    (tcpprep_auto_mode : string) :
  exits (possible_exit pcap_file)
    (rewrite_pcap E pcap_file server_subnet_str server_mac client_subnet_str client_mac
       tcpprep_auto_mode).
Proof.
  unfold rewrite_pcap, or_prompt, input, os_path_exists, remove_stale,
    save_pairs, finalize, print, get, set_pairs.
  exits_steps; simpl; auto.
Qed.

(** ** The registry file *)

Lemma dumps_app (a b : list event) : dumps (a ++ b) = (dumps a ++ dumps b)%list.
Proof. apply flat_map_app. Qed.

Lemma dumps_none (l : list event) : Forall no_dump l -> dumps l = [].
Proof.
  induction 1 as [|e l H _ IH]; simpl; [reflexivity |]. rewrite IH, app_nil_r.
  destruct e; try reflexivity. destruct H.
Qed.

Lemma triple_dumps {A} (R : list (string * registry) -> Prop) (m : M A) :
  emits no_dump m ->
  triple (fun f => R (dumps (List.rev (trace f)))) m
         (fun f => R (dumps (List.rev (trace f)))).
Proof.
  intros Hm f Rf. destruct (Hm f) as (new & T & F).
  rewrite T, rev_app_distr, dumps_app, (dumps_none (List.rev new)), app_nil_r;
    [exact Rf | now apply Forall_rev].
Qed.

#[local] Hint Extern 1 (no_dump _) => exact I : emits.

Ltac no_dump_phase :=
  unfold os_path_exists, or_prompt, validate, remove_stale, tcpprep, discover,
    discover_line, assign, rewrite_all, rewrite_pair, tcprewrite_pass, finalize;
  emits_steps.

(** Lines 116-122 write the registry as it stands, once, whether or not
    the write succeeds. *)
Lemma save_pairs_dumps E (pairs_file : string) (f : frame) :
  dumps (List.rev (trace (snd (save_pairs E pairs_file f))))
  = (dumps (List.rev (trace f)) ++ [(pairs_file, server_client_pairs f)])%list.
Proof.
  unfold save_pairs, try_, bind, get, pickle_dump, print. simpl.
  destruct (dump E _ _ _); simpl; rewrite <- app_assoc, !dumps_app; simpl;
    now rewrite ?app_nil_r.
Qed.


(** In the end-to-end scenario the pair is written as not processed, and
    the run goes on to process it. *)
Example scenario_pairs_file :
  dumps (snd (Demo.scenario [] false "none"))
  = [("capture_pairs.pkl",
      [(("10.0.0.5", "10.0.0.9"),
        {| server := {| version := IPv4; ip := 3232235787 |};
           client := {| version := IPv4; ip := 168430091 |};
           processed := false |})])].
Proof. vm_compute. reflexivity. Qed.

(** ** A subnet at the top of the address space *)

(** Lines 71-74: the additions come before the [try] of line 76, so their
    [ValueError] is not caught, and tshark is not invoked. *)
Lemma discover_overflow E pcap_file (ss cs : IPNetwork) (f : frame) :
  IpAddress.add (network_address ss) 11 = None
  \/ IpAddress.add (network_address cs) 11 = None ->
  exists f',
    discover E pcap_file ss cs f = (Raised (ValueError "AddressValueError"), f')
    /\ trace f' = Print "Identifying client/server pairs using tshark..." :: trace f.
Proof.
  intros Over. unfold discover.
  rewrite bind_eq. unfold print at 1. rewrite bind_eq. unfold set_pairs at 1.
  rewrite bind_eq. unfold ip_plus at 1.
  destruct (IpAddress.add (network_address ss) 11) as [s0|] eqn:S0.
  2:{ eexists. split; reflexivity. }
  destruct Over as [Over | Over]; [discriminate Over |].
  unfold ret at 1. rewrite bind_eq. unfold set_next_server_ip at 1.
  rewrite bind_eq. unfold ip_plus at 1. rewrite Over.
  eexists. split; reflexivity.
Qed.

(** X16. A subnet whose network address is less than 11 below the top of
    the address space (255.255.255.248/29, say) passes validation and then
    makes [rewrite_pcap] end with an uncaught [ValueError]: with an
    existing input file, valid options, no stale output file and mode
    "none", the run prints the tshark banner and raises, before any tool is
    invoked. *)
Theorem top_of_address_space_raises E (pcap_file ss sm cs cm : string)
    (server_subnet client_subnet : IPNetwork) :
  path_exists E [] pcap_file = true ->
  ip_network E ss = inl server_subnet -> ip_network E cs = inl client_subnet ->
  MacRe.mac_match sm = true -> MacRe.mac_match cm = true ->
  path_exists E [] (base_filename_of pcap_file ++ "_rewritten.pcap") = false ->
  IpAddress.add (network_address server_subnet) 11 = None
  \/ IpAddress.add (network_address client_subnet) 11 = None ->
  let result := call (rewrite_pcap E pcap_file (Some ss) (Some sm) (Some cs) (Some cm)
                        "none") in
  (exists msg, fst result = Raised (ValueError msg))
  /\ snd result = [Print "Identifying client/server pairs using tshark..."].
Proof.
  intros Exists Ns Nc Ms Mc NoStale Over. unfold call. cbv zeta.
  destruct (rewrite_pcap E pcap_file (Some ss) (Some sm) (Some cs) (Some cm) "none" fresh)
    as [r f'] eqn:Run.
  unfold rewrite_pcap in Run.
  rewrite bind_eq in Run. unfold os_path_exists at 1 in Run.
  change (trace fresh) with (@nil event) in Run. rewrite Exists in Run. cbn [negb] in Run.
  unfold or_prompt in Run.
  do 4 (rewrite bind_eq in Run; unfold ret at 1 in Run).
  rewrite bind_eq in Run.
  destruct (validate_cases E ss sm cs cm fresh)
    as [(n & n' & Hn & Hn' & _ & _ & V) | [Bad _]];
    [| exfalso; exact (Bad _ _ Ns Nc Ms Mc)].
  rewrite V in Run. rewrite Ns in Hn. rewrite Nc in Hn'.
  injection Hn as <-. injection Hn' as <-.
  rewrite bind_eq in Run. unfold remove_stale at 1 in Run.
  rewrite bind_eq in Run. unfold os_path_exists at 1 in Run.
  change (trace fresh) with (@nil event) in Run. rewrite NoStale in Run.
  unfold ret at 1 in Run.
  rewrite bind_eq in Run.
  change (tcpprep E pcap_file (base_filename_of pcap_file ++ ".cache") "none")
    with (@ret unit tt) in Run.
  unfold ret at 1 in Run. rewrite bind_eq in Run.
  destruct (discover_overflow E pcap_file server_subnet client_subnet fresh Over)
    as (f1 & D & T).
  rewrite D in Run. injection Run as <- <-. cbn [fst snd].
  split; [eexists; reflexivity |]. rewrite T. reflexivity.
Qed.

Lemma top_of_address_space_raises_witness :
  let result := call (rewrite_pcap (Demo.env ["capture.pcap"] Demo.one_flow [] false)
                        "capture.pcap" (Some "255.255.255.248/29")
                        (Some "00:11:22:33:44:55") (Some "10.10.10.0/24")
                        (Some "AA:BB:CC:DD:EE:FF") "none") in
  (exists msg, fst result = Raised (ValueError msg))
  /\ snd result = [Print "Identifying client/server pairs using tshark..."].
Proof.
  refine (top_of_address_space_raises
            (Demo.env ["capture.pcap"] Demo.one_flow [] false)
            "capture.pcap" "255.255.255.248/29" "00:11:22:33:44:55" "10.10.10.0/24"
            "AA:BB:CC:DD:EE:FF"
            {| network_address := {| version := IPv4; ip := 4294967288 |};
               prefixlen := 29 |}
            {| network_address := {| version := IPv4; ip := 168430080 |};
               prefixlen := 24 |}
            _ _ _ _ _ _ _).
  1-6: vm_compute; reflexivity.
  left. vm_compute. reflexivity.
Defined.

(** ** The file that takes the output name *)

(** A statement that keeps [I] and never returns a file name can be
    skipped over when the postcondition only speaks of such returns. *)
Lemma hoare_skip {A} (I : frame -> Prop) (Q : outcome (option string) -> frame -> Prop)
    (m : M A) (k : A -> M (option string)) :
  triple I m I -> exits not_success m ->
  (forall f, Q (Returned None) f) -> (forall e f, Q (Raised e) f) ->
  (forall a, hoare I (k a) Q) ->
  hoare I (bind m k) Q.
Proof.
  intros Hi Hm Qn Qe Hk f If. rewrite bind_eq. specialize (Hm f). specialize (Hi f If).
  destruct (m f) as [[a | [p|] | e] f1]; simpl in *; auto.
  - now apply Hk.
  - destruct Hm.
Qed.

(** Lines 221-229: the file renamed is the current input file. *)
Lemma finalize_renames E (pcap_file rewritten : string) :
  hoare (ready pcap_file) (finalize E rewritten) (renamed_last pcap_file).
Proof.
  intros f R p. unfold finalize, bind, get, os_path_exists, os_rename, print, return_.
  simpl. destruct (path_exists E _ _); simpl; [| discriminate].
  destruct (rename E _ _ _); simpl; [discriminate |].
  intros [= <-]. exists (trace f). rewrite <- R. reflexivity.
Qed.

Lemma rewrite_all_never_succeeds E pcap_file base cache server_mac client_mac :
  exits not_success (rewrite_all E pcap_file base cache server_mac client_mac).
Proof. never_succeeds. Qed.

Lemma rewrite_pcap_renames E (pcap_file : string)
    (server_subnet_str server_mac client_subnet_str client_mac : option string)
    (tcpprep_auto_mode : string) :
  hoare (fun f => invocations (List.rev (trace f)) = [])
    (rewrite_pcap E pcap_file server_subnet_str server_mac client_subnet_str client_mac
       tcpprep_auto_mode)
    (renamed_last pcap_file).
Proof.
  assert (Qn : forall f, renamed_last pcap_file (Returned None) f)
    by (intros f p H; discriminate H).
  assert (Qe : forall e f, renamed_last pcap_file (Raised e) f)
    by (intros e f p H; discriminate H).
  assert (Keep : forall A (m : M A), emits not_rewrite m ->
            triple (fun f => invocations (List.rev (trace f)) = []) m
                   (fun f => invocations (List.rev (trace f)) = []))
    by (intros A m Hm; exact (triple_invocations (fun l => l = []) m Hm)).
  unfold rewrite_pcap.
  apply hoare_skip;
    [apply Keep; unfold os_path_exists; emits_steps
    | never_succeeds | exact Qn | exact Qe | intros found].
  destruct found; cbn [negb].
  2:{ intros f _ p. unfold bind, print, return_. simpl. discriminate. }
  do 5 (apply hoare_skip;
        [apply Keep; unfold or_prompt, validate; emits_steps
        | never_succeeds | exact Qn | exact Qe | intros ?]).
  match goal with |- context [let '(_, _) := ?x in _] => destruct x end.
  do 4 (apply hoare_skip;
        [apply Keep;
         unfold remove_stale, os_path_exists, tcpprep, discover, discover_line, assign,
           save_pairs; emits_steps
        | never_succeeds | exact Qn | exact Qe | intros ?]).
  intros f None. rewrite bind_eq.
  pose proof (rewrite_all_never_succeeds E pcap_file (base_filename_of pcap_file)
                (base_filename_of pcap_file ++ ".cache") a0 a2 f) as X.
  destruct (rewrite_all E pcap_file (base_filename_of pcap_file)
              (base_filename_of pcap_file ++ ".cache") a0 a2 f) as [r f1] eqn:Run.
  destruct (rewrite_all_effect E pcap_file _ _ _ _ f f1 r None Run) as [_ R].
  destruct r as [[] | [p'|] | e]; cbn [fst snd] in *.
  - apply finalize_renames. now apply R.
  - destruct X.
  - apply Qn.
  - apply Qe.
Qed.

(** C7 (the code differs).  Whenever a run returns a file name without
    having invoked tcprewrite -- pair discovery registered no pair -- the
    last thing it did to a file was to rename the input file itself to
    [<base>_rewritten.pcap]: the original input capture is not left
    untouched, nothing remains under its name. *)
Theorem input_file_renamed_when_nothing_rewritten E (pcap_file : string)
    (server_subnet_str server_mac client_subnet_str client_mac : option string)
    (tcpprep_auto_mode p : string) :
  let result := call (rewrite_pcap E pcap_file server_subnet_str server_mac
                        client_subnet_str client_mac tcpprep_auto_mode) in
  fst result = Returned (Some p) ->
  invocations (snd result) = [] ->
  p = base_filename_of pcap_file ++ "_rewritten.pcap"
  /\ exists earlier,
       snd result
       = (earlier ++ [Rename pcap_file p;
                      Print ("Rewritten pcap file saved to: " ++ p)])%list.
Proof.
  unfold call. cbv zeta.
  pose proof (rewrite_pcap_renames E pcap_file server_subnet_str server_mac
                client_subnet_str client_mac tcpprep_auto_mode fresh eq_refl) as H.
  pose proof (rewrite_pcap_possible_exits E pcap_file server_subnet_str server_mac
                client_subnet_str client_mac tcpprep_auto_mode fresh) as X.
  destruct (rewrite_pcap E pcap_file server_subnet_str server_mac client_subnet_str
              client_mac tcpprep_auto_mode fresh) as [r f].
  cbn [fst snd] in *. intros -> None. split; [exact X |].
  destruct (H p eq_refl) as (t & T). rewrite T in None |- *.
  simpl in None |- *. rewrite <- app_assoc in None |- *. simpl in None |- *.
  rewrite invocations_app in None. apply app_eq_nil in None. destruct None as [None _].
  rewrite None. exists (List.rev t). reflexivity.
Qed.

Lemma input_file_renamed_when_nothing_rewritten_witness :
  let E := Demo.env ["capture.pcap"] EmptyString [] false in
  let result := call (rewrite_pcap E "capture.pcap"
                        (Some "192.168.1.0/24") (Some "00:11:22:33:44:55")
                        (Some "10.10.10.0/24") (Some "AA:BB:CC:DD:EE:FF") "none") in
  fst result = Returned (Some "capture_rewritten.pcap")
  /\ (exists earlier,
        snd result
        = (earlier ++ [Rename "capture.pcap" "capture_rewritten.pcap";
                       Print "Rewritten pcap file saved to: capture_rewritten.pcap"])%list)
  /\ Demo.on_disk ["capture.pcap"] [] (List.rev (snd result)) "capture.pcap" = false
  /\ Demo.on_disk ["capture.pcap"] [] (List.rev (snd result)) "capture_rewritten.pcap"
     = true.
Proof.
  intros E result.
  split; [vm_compute; reflexivity |].
  split; [| split; vm_compute; reflexivity].
  refine (proj2 (input_file_renamed_when_nothing_rewritten E "capture.pcap"
                   (Some "192.168.1.0/24") (Some "00:11:22:33:44:55")
                   (Some "10.10.10.0/24") (Some "AA:BB:CC:DD:EE:FF") "none"
                   "capture_rewritten.pcap" _ _)); vm_compute; reflexivity.
Defined.

(** X1. [rewrite_pcap] ends in one of three ways only: it returns [None],
    it returns the output name [<base>_rewritten.pcap], or an exception
    escapes -- and that exception is never the [CalledProcessError] of a
    tool that exited with a non-zero status. *)
Theorem rewrite_pcap_ways_to_end E (pcap_file : string)
    (server_subnet_str server_mac client_subnet_str client_mac : option string)
    (tcpprep_auto_mode : string) :
  match fst (call (rewrite_pcap E pcap_file server_subnet_str server_mac
                     client_subnet_str client_mac tcpprep_auto_mode)) with
  | Normal _ => False
  | Returned None => True
  | Returned (Some p) => p = base_filename_of pcap_file ++ "_rewritten.pcap"
  | Raised (CalledProcessError _ _) => False
  | Raised _ => True
  end.
Proof.
  unfold call.
  pose proof (rewrite_pcap_possible_exits E pcap_file server_subnet_str server_mac
                client_subnet_str client_mac tcpprep_auto_mode fresh) as X.
  pose proof (rewrite_pcap_not_normal E pcap_file server_subnet_str server_mac
                client_subnet_str client_mac tcpprep_auto_mode fresh) as N.
  destruct (rewrite_pcap E pcap_file server_subnet_str server_mac client_subnet_str
              client_mac tcpprep_auto_mode fresh) as [[a | [p|] | e] f]; simpl in *.
  - exact (N a eq_refl).
  - exact X.
  - exact I.
  - destruct e; auto.
Qed.

(** ** [main] *)

Lemma output_name_truthy (base : string) :
  truthy (Some (base ++ "_rewritten.pcap")) = true.
Proof. destruct base; reflexivity. Qed.

(** X13. [main] ends as [rewrite_pcap] does.  After a return of [None] it
    adds the line "Rewriting failed."; after a return of the output name
    it prints "Rewritten pcap file saved to: <name>" once more, right after
    the same line of [rewrite_pcap]; an exception goes through it
    untouched. *)
Theorem main_reports_the_result E (args : Namespace) :
  let inner := call (rewrite_pcap E (ns_pcap_file args) (ns_server_subnet args)
                       (ns_server_mac args) (ns_client_subnet args)
                       (ns_client_mac args) (ns_auto args)) in
  let outer := call (main E args) in
  match fst inner with
  | Normal _ => False
  | Returned None =>
      fst outer = Normal tt
      /\ snd outer = (snd inner ++ [Print "Rewriting failed."])%list
  | Returned (Some p) =>
      fst outer = Normal tt
      /\ exists earlier src,
           snd outer
           = (earlier ++ [Rename src p;
                          Print ("Rewritten pcap file saved to: " ++ p);
                          Print ("Rewritten pcap file saved to: " ++ p)])%list
  | Raised e => fst outer = Raised e /\ snd outer = snd inner
  end.
Proof.
  unfold call, main. cbv zeta. rewrite bind_eq. unfold invoke.
  pose proof (rewrite_pcap_possible_exits E (ns_pcap_file args) (ns_server_subnet args)
                (ns_server_mac args) (ns_client_subnet args) (ns_client_mac args)
                (ns_auto args) fresh) as X.
  pose proof (rewrite_pcap_not_normal E (ns_pcap_file args) (ns_server_subnet args)
                (ns_server_mac args) (ns_client_subnet args) (ns_client_mac args)
                (ns_auto args) fresh) as N.
  pose proof (rewrite_pcap_announced E (ns_pcap_file args) (ns_server_subnet args)
                (ns_server_mac args) (ns_client_subnet args) (ns_client_mac args)
                (ns_auto args) fresh I) as A.
  destruct (rewrite_pcap E (ns_pcap_file args) (ns_server_subnet args)
              (ns_server_mac args) (ns_client_subnet args) (ns_client_mac args)
              (ns_auto args) fresh) as [[a | [p|] | e] f]; cbn [fst snd] in *.
  - exact (N a eq_refl).
  - simpl in X. subst p. rewrite output_name_truthy. simpl.
    split; [reflexivity |].
    destruct (A _ eq_refl) as (src & t & ->). exists (List.rev t), src.
    simpl. rewrite <- !app_assoc. reflexivity.
  - simpl. auto.
  - simpl. auto.
Qed.

(** ** The pickle viewer *)

Lemma print_value_lines (value : PickleViewer.pyobj) (f : frame) :
  exists new, trace (snd (PickleViewer.print_value value f)) = (new ++ trace f)%list
              /\ Forall not_key_line new /\ Forall quiet new.
Proof.
  assert (Both : emits (fun e => not_key_line e /\ quiet e)
                   (PickleViewer.print_value value)).
  { unfold PickleViewer.print_value. destruct value as [sub | s r].
    - apply emits_for_each. intros kv. apply emits_print. split; [reflexivity | exact I].
    - apply emits_print. split; [reflexivity | exact I]. }
  destruct (Both f) as (new & T & F). exists new. split; [exact T |].
  split; (eapply Forall_impl; [| exact F]); intros e [H1 H2]; assumption.
Qed.

Lemma print_value_normal (value : PickleViewer.pyobj) (f : frame) :
  fst (PickleViewer.print_value value f) = Normal tt.
Proof.
  unfold PickleViewer.print_value. destruct value as [sub | s r]; [| reflexivity].
  revert f. induction sub as [|kv sub IH]; intros f; cbn [for_each]; [reflexivity |].
  rewrite bind_eq. unfold print at 1. apply IH.
Qed.

Lemma filter_no_key_lines (new : list event) :
  Forall not_key_line new -> filter is_key_line new = [].
Proof.
  induction 1 as [|e new H _ IH]; simpl; [reflexivity |].
  unfold not_key_line in H. now rewrite H.
Qed.

Lemma key_line_then_others (key : string) (new t : list event) :
  Forall not_key_line new ->
  filter is_key_line (List.rev (new ++ Print ("Key: " ++ key) :: t))
  = (filter is_key_line (List.rev t) ++ [Print ("Key: " ++ key)])%list.
Proof.
  intros F. rewrite rev_app_distr. simpl. rewrite !filter_app.
  rewrite (filter_no_key_lines (List.rev new)) by now apply Forall_rev.
  simpl. now rewrite app_nil_r.
Qed.

(** Lines 19-25: the top-level loop ends normally, prints only, and prints
    one "Key: ..." line per item, in order. *)
Lemma view_items (items : list (PickleViewer.pyobj * PickleViewer.pyobj)) : forall f,
  exists f',
    for_each items (fun kv => print ("Key: " ++ PickleViewer.str (fst kv)) ;;
                              PickleViewer.print_value (snd kv)) f
    = (Normal tt, f')
    /\ filter is_key_line (List.rev (trace f'))
       = (filter is_key_line (List.rev (trace f))
          ++ map (fun kv => Print ("Key: " ++ PickleViewer.str (fst kv))) items)%list
    /\ exists new, trace f' = (new ++ trace f)%list /\ Forall quiet new.
Proof.
  induction items as [|kv items IH]; intros f; cbn [for_each map].
  - exists f. rewrite app_nil_r. repeat split. exists []. split; [reflexivity | constructor].
  - rewrite bind_eq, bind_eq. unfold print at 1.
    pose proof (print_value_normal (snd kv)
                  (emit (Print ("Key: " ++ PickleViewer.str (fst kv))) f)) as Nv.
    destruct (print_value_lines (snd kv)
                (emit (Print ("Key: " ++ PickleViewer.str (fst kv))) f))
      as (new & T & F & Qv).
    destruct (PickleViewer.print_value (snd kv)
                (emit (Print ("Key: " ++ PickleViewer.str (fst kv))) f)) as [r f1].
    cbn [fst snd] in Nv, T. subst r.
    destruct (IH f1) as (f' & Run & Ki & more & Ti & Qi).
    exists f'. split; [exact Run | split].
    + rewrite Ki, T. cbn [trace emit]. rewrite key_line_then_others by exact F.
      rewrite <- app_assoc. reflexivity.
    + exists (more ++ new ++ [Print ("Key: " ++ PickleViewer.str (fst kv))])%list.
      rewrite Ti, T. cbn [trace emit]. rewrite <- !app_assoc. split; [reflexivity |].
      repeat (apply Forall_app; split); auto. repeat constructor.
Qed.

(** Lines 12-27 from the start. *)
Lemma view_pickle_run (load : PickleViewer.Loader) (pickle_file : string) :
  match load [] pickle_file with
  | inr msg =>
      PickleViewer.view_pickle load pickle_file fresh
      = (Normal tt,
         emit (Print ("Error loading or printing pickle file: " ++ msg)) fresh)
  | inl data =>
      exists f' new,
        PickleViewer.view_pickle load pickle_file fresh = (Normal tt, f')
        /\ trace f' = (new ++ [Print (PickleViewer.str data)])%list
        /\ Forall quiet new
        /\ forall items, data = PickleViewer.PyDict items ->
             filter is_key_line (List.rev (trace f'))
             = map (fun kv => Print ("Key: " ++ PickleViewer.str (fst kv))) items
  end.
Proof.
  unfold PickleViewer.view_pickle. rewrite try_eq, bind_eq.
  change (trace fresh) with (@nil event).
  destruct (load [] pickle_file) as [data | msg]; [| reflexivity].
  rewrite bind_eq. unfold print at 1.
  destruct data as [items | s r].
  - destruct (view_items items (emit (Print (PickleViewer.str (PickleViewer.PyDict items)))
                                  fresh))
      as (f' & Run & K & new & T & Q).
    rewrite Run. exists f', new. split; [reflexivity |].
    split; [exact T | split; [exact Q |]].
    intros items' [= <-]. rewrite K. reflexivity.
  - eexists _, []. split; [reflexivity |].
    split; [reflexivity | split; [constructor | intros items H; discriminate H]].
Qed.




(** What the viewer shows of the registry file of the end-to-end
    scenario. *)
Example view_scenario_pairs_file :
  let E := Demo.env ["capture.pcap"] Demo.one_flow [] false in
  snd (call (PickleViewer.view_pickle
               (loads_registry E (snd (hd (EmptyString, [])
                                         (dumps (snd (Demo.scenario [] false "none"))))))
               "capture_pairs.pkl"))
  = [Print
       "{('10.0.0.5', '10.0.0.9'): {'server': '192.168.1.11', 'client': '10.10.10.11', 'processed': False}}";
     Print "Key: ('10.0.0.5', '10.0.0.9')";
     Print "  server: 192.168.1.11";
     Print "  client: 10.10.10.11";
     Print "  processed: False"].
Proof. vm_compute. reflexivity. Qed.
